(** * Web-Archiving: link extraction, archive submission and the archive log

    A shallow embedding of the three Python scripts of the repository

      - [.github/workflows/scripts/extract_links.py]  (module [Extract]),
      - [scripts/archive_services.py]                  (module [Services]),
      - [.github/workflows/scripts/archive_links.py]   (module [Orchestrator]),

    together with the properties of the specification that concern them.

    Python strings are modelled by [string]; a character stands for the code
    point of the same number, so the model covers the code points below 256.
    The network, the clock, the version-control query and the file system are
    explicit: every effect of the scripts is a transition of a [World]. The
    lines the scripts print and the [User-Agent] header that [random.choice]
    picks for a request decide no result and are left out. *)

From Stdlib Require Import ZArith Ascii String List Bool Lia.
From stdpp Require Import gmap strings list fin_maps.
Import ListNotations.

Local Open Scope Z_scope.

#[local] Set Warnings "-register-all".

(** ** Strings as Python uses them *)

Module Str.

Definition code (c : ascii) : N := N_of_ascii c.

Definition between (lo hi c : ascii) : bool :=
  ((code lo <=? code c) && (code c <=? code hi))%N.

(** [needle in hay] *)
Fixpoint contains (needle hay : string) : bool :=
  String.prefix needle hay
  || match hay with
     | EmptyString => false
     | String _ rest => contains needle rest
     end.

(** [s.startswith(p)] *)
Definition startswith (p s : string) : bool := String.prefix p s.

(** [s.endswith(p)] *)
Fixpoint endswith (p s : string) : bool :=
  String.eqb p s
  || match s with
     | EmptyString => false
     | String _ rest => endswith p rest
     end.

(** [len(s)] *)
Definition len (s : string) : Z := Z.of_nat (String.length s).

(** truth value of a string: [bool(s)] *)
Definition nonempty (s : string) : bool :=
  match s with EmptyString => false | _ => true end.

End Str.

(** ** Regular expressions, for [re.compile(...).match] *)

Module Regex.

Inductive regex : Type :=
| Never : regex
| Nil : regex
| Class : (ascii -> bool) -> regex
| Cat : regex -> regex -> regex
| Or : regex -> regex -> regex
| Star : regex -> regex.

Fixpoint Lit (s : string) : regex :=
  match s with
  | EmptyString => Nil
  | String c rest => Cat (Class (Ascii.eqb c)) (Lit rest)
  end.

Definition Opt (r : regex) : regex := Or r Nil.
Definition Plus (r : regex) : regex := Cat r (Star r).
(** [r{2,}] *)
Definition AtLeast2 (r : regex) : regex := Cat r (Cat r (Star r)).

Fixpoint nullable (r : regex) : bool :=
  match r with
  | Never => false
  | Nil => true
  | Class _ => false
  | Cat r1 r2 => nullable r1 && nullable r2
  | Or r1 r2 => nullable r1 || nullable r2
  | Star _ => true
  end.

Fixpoint deriv (c : ascii) (r : regex) : regex :=
  match r with
  | Never => Never
  | Nil => Never
  | Class p => if p c then Nil else Never
  | Cat r1 r2 =>
      if nullable r1
      then Or (Cat (deriv c r1) r2) (deriv c r2)
      else Cat (deriv c r1) r2
  | Or r1 r2 => Or (deriv c r1) (deriv c r2)
  | Star r1 => Cat (deriv c r1) (Star r1)
  end.

(** the whole of [s] is in the language of [r] *)
Fixpoint accepts (r : regex) (s : string) : bool :=
  match s with
  | EmptyString => nullable r
  | String c rest => accepts (deriv c r) rest
  end.

Fixpoint drop_last (s : string) : string :=
  match s with
  | EmptyString => EmptyString
  | String c EmptyString => EmptyString
  | String c rest => String c (drop_last rest)
  end.

(** [re.compile('^' r '$').match(s)]: without [re.MULTILINE], [$] matches at
    the end of the string and also just before a newline that ends it. *)
Definition anchored_match (r : regex) (s : string) : bool :=
  accepts r s
  || (Str.endswith (String "010" EmptyString) s && accepts r (drop_last s)).

End Regex.

(** ** Exceptions and results *)

Inductive exn : Type :=
| RequestException    (* requests.RequestException and its subclasses *)
| AttributeError
| KeyError
| OSError.

Inductive result (A : Type) : Type :=
| Ok (a : A)
| Raise (e : exn).
Arguments Ok {A} a.
Arguments Raise {A} e.

(** ** [extract_links.py] *)

Module Extract.
Import Regex.

(** What [yaml.safe_load] returns: nested mappings, sequences and scalars.
    A mapping keeps its entries in document order; [YOpaque] stands for the
    scalars whose content the script never looks at (floats, dates, ...),
    only their truth value. *)
Inductive yaml : Type :=
| YNone : yaml
| YBool : bool -> yaml
| YInt : Z -> yaml
| YOpaque : bool -> yaml
| YStr : string -> yaml
| YList : list yaml -> yaml
| YDict : list (yaml * yaml) -> yaml.

(** [bool(value)] *)
Definition truthy (v : yaml) : bool :=
  match v with
  | YNone => false
  | YBool b => b
  | YInt n => negb (n =? 0)
  | YOpaque t => t
  | YStr s => Str.nonempty s
  | YList l => match l with [] => false | _ => true end
  | YDict d => match d with [] => false | _ => true end
  end.

(** [[a-zA-Z0-9-]] *)
Definition domain_char (c : ascii) : bool :=
  Str.between "a" "z" c || Str.between "A" "Z" c || Str.between "0" "9" c
  || Ascii.eqb c "-".

(** [[a-zA-Z]] *)
Definition letter (c : ascii) : bool :=
  Str.between "a" "z" c || Str.between "A" "Z" c.

(** [\s] on a [str] pattern: the white space of [str.isspace], of which
    these are the code points below 256 *)
Definition whitespace (c : ascii) : bool :=
  Str.between "009" "013" c || Str.between "028" "032" c
  || Ascii.eqb c "133" || Ascii.eqb c "160".

(** The pattern of [is_url], with blanks between its tokens:
    ^ ( https? : \/ \/ )?  ( [a-zA-Z0-9-]+ \. )*  [a-zA-Z0-9-]+
    \. [a-zA-Z]{2,}  ( \/ [^\s]* )? $ *)
Definition url_pattern : regex :=
  Cat (Opt (Cat (Lit "http") (Cat (Opt (Lit "s")) (Lit "://"))))
 (Cat (Star (Cat (Plus (Class domain_char)) (Lit ".")))
 (Cat (Plus (Class domain_char))
 (Cat (Cat (Lit ".") (AtLeast2 (Class letter)))
      (Opt (Cat (Lit "/") (Star (Class (fun c => negb (whitespace c))))))))).

Definition is_url (text : yaml) : bool :=
  match text with
  | YStr s => anchored_match url_pattern s
  | _ => false
  end.

Definition is_link_key (key : yaml) : bool :=
  match key with
  | YStr k => String.eqb k "link"
  | _ => false
  end.

(** [if isinstance(item, str) and is_url(item): links.append(item)] *)
Definition url_string (item : yaml) : list string :=
  match item with
  | YStr s => if is_url item then [s] else []
  | _ => []
  end.

(** The function is only ever applied to a mapping: the recursive calls are
    guarded by [isinstance(_, dict)], and [extract_links_from_yaml] below
    accounts for the [AttributeError] of [data.items()] on anything else. *)
Fixpoint extract_links_from_dict (data : yaml) : list string :=
  match data with
  | YDict entries =>
      flat_map
        (fun entry : yaml * yaml =>
           let (key, value) := entry in
           if is_link_key key && truthy value then
             match value with
             | YStr _ => url_string value
             | YList items => flat_map url_string items
             | _ => []
             end
           else
             match value with
             | YDict _ => extract_links_from_dict value
             | YList items =>
                 flat_map
                   (fun item =>
                      match item with
                      | YDict _ => extract_links_from_dict item
                      | _ => url_string item
                      end)
                   items
             | _ => []
             end)
        entries
  | _ => []
  end.

(** What reading and parsing one file gives. *)
Inductive loaded : Type :=
| YAMLError : loaded
| Parsed : yaml -> loaded.

Definition is_dict (v : yaml) : bool :=
  match v with YDict _ => true | _ => false end.

(** [list(set(links))]: every distinct string once, in an order that the
    script does not control. *)
Definition unique (links : list string) : list string :=
  elements (list_to_set links : gset string).

Definition extract_links_from_yaml (file : loaded) : result (list string) :=
  match file with
  | YAMLError => Ok []
  | Parsed data =>
      if negb (truthy data) then Ok []
      else if is_dict data then Ok (unique (extract_links_from_dict data))
      else Raise AttributeError
  end.

End Extract.

(** *** What the walk of [extract_links_from_dict] reaches *)

Module Walk.
Import Regex Extract.

(** the links one entry of a mapping contributes *)
Definition entry_links (entry : yaml * yaml) : list string :=
  let (key, value) := entry in
  if is_link_key key && truthy value then
    match value with
    | YStr _ => url_string value
    | YList items => flat_map url_string items
    | _ => []
    end
  else
    match value with
    | YDict _ => extract_links_from_dict value
    | YList items =>
        flat_map
          (fun item =>
             match item with
             | YDict _ => extract_links_from_dict item
             | _ => url_string item
             end)
          items
    | _ => []
    end.

(** [visits root m]: the call on the mapping [root] reaches the mapping [m],
    through values that are mappings and through mappings that are elements
    of a sequence value, in both cases of an entry that does not take the
    [key == 'link' and value] branch. *)
Inductive visits : yaml -> yaml -> Prop :=
| visits_root entries :
    visits (YDict entries) (YDict entries)
| visits_value entries key d m :
    In (key, YDict d) entries ->
    is_link_key key && truthy (YDict d) = false ->
    visits (YDict d) m ->
    visits (YDict entries) m
| visits_item entries key items d m :
    In (key, YList items) entries ->
    is_link_key key && truthy (YList items) = false ->
    In (YDict d) items ->
    visits (YDict d) m ->
    visits (YDict entries) m.

(** [yields m u]: the visited mapping [m] itself contributes the string [u]:
    as the URL-shaped value of a [link] key, or as a URL-shaped element of a
    sequence value (under any key). *)
Inductive yields : yaml -> string -> Prop :=
| yields_link entries key u :
    In (key, YStr u) entries ->
    is_link_key key = true ->
    is_url (YStr u) = true ->
    yields (YDict entries) u
| yields_element entries key items u :
    In (key, YList items) entries ->
    In (YStr u) items ->
    is_url (YStr u) = true ->
    yields (YDict entries) u.

(** [occurs t u]: the string [u] is a value somewhere in the tree [t]. *)
Inductive occurs : yaml -> string -> Prop :=
| occurs_str u : occurs (YStr u) u
| occurs_element items t u : In t items -> occurs t u -> occurs (YList items) u
| occurs_value entries key t u :
    In (key, t) entries -> occurs t u -> occurs (YDict entries) u.

(** [has_link_entry t u]: some mapping of the tree [t] has the entry
    [link: u]. *)
Inductive has_link_entry : yaml -> string -> Prop :=
| link_entry_here entries u :
    In (YStr "link", YStr u) entries -> has_link_entry (YDict entries) u
| link_entry_element items t u :
    In t items -> has_link_entry t u -> has_link_entry (YList items) u
| link_entry_value entries key t u :
    In (key, t) entries -> has_link_entry t u -> has_link_entry (YDict entries) u.

Section yaml_induction.
Variable P : yaml -> Prop.
Hypothesis HNone : P YNone.
Hypothesis HBool : forall b, P (YBool b).
Hypothesis HInt : forall n, P (YInt n).
Hypothesis HOpaque : forall t, P (YOpaque t).
Hypothesis HStr : forall s, P (YStr s).
Hypothesis HList : forall items, Forall P items -> P (YList items).
Hypothesis HDict :
  forall entries, Forall (fun kv => P (snd kv)) entries -> P (YDict entries).

Fixpoint yaml_tree_ind (v : yaml) : P v :=
  match v with
  | YNone => HNone
  | YBool b => HBool b
  | YInt n => HInt n
  | YOpaque t => HOpaque t
  | YStr s => HStr s
  | YList items =>
      HList items
        ((fix all (l : list yaml) : Forall P l :=
            match l with
            | [] => @List.Forall_nil _ P
            | x :: l' => @List.Forall_cons _ P x l' (yaml_tree_ind x) (all l')
            end) items)
  | YDict entries =>
      HDict entries
        ((fix all (l : list (yaml * yaml)) : Forall (fun kv => P (snd kv)) l :=
            match l with
            | [] => @List.Forall_nil _ _
            | kv :: l' =>
                @List.Forall_cons _ (fun kv => P (snd kv)) kv l'
                  (yaml_tree_ind (snd kv)) (all l')
            end) entries)
  end.
End yaml_induction.

Definition reached_from (root : yaml) : Prop :=
  forall u, In u (extract_links_from_dict root) ->
            exists m, visits root m /\ yields m u.

End Walk.

(** ** The world the scripts run in *)

(** An HTTP response as the scripts look at it. [anchors] are the [href]
    attributes of the [a] elements of [BeautifulSoup(text, 'html.parser')] in
    document order, [None] for an anchor without the attribute: the HTML parser
    belongs to bs4, so a response carries what it finds. *)
Record Response : Type := mkResponse {
  status_code : Z;
  resp_url : string;
  text : string;
  anchors : list (option string)
}.

(** What a request meets: a response, or a [requests.RequestException]
    (time-out, connection error, too many redirects, ...). *)
Inductive outcome : Type :=
| Responds (response : Response)
| Fails.

Inductive event : Type :=
| Get (url : string)                 (* requests.get / session.get *)
| Post (url data : string)           (* session.post *)
| Sleep (seconds : Z)                (* time.sleep(n) *)
| SleepUniform (lo hi : Z)           (* time.sleep(random.uniform(lo, hi)) *)
| Call_archive_url (url : string).   (* entry into archive_url *)

Inductive node : Type :=
| Dir
| File (content : string).

(** [net n] is what the [n]-th request of the run meets and [clock n] what the
    [n]-th reading of [datetime.utcnow().isoformat()] gives; [sent] and
    [read] count the requests and readings so far, [trace] lists the effects
    in the order they happened, [disk] maps paths to directories and files. *)
Record World : Type := mkWorld {
  net : nat -> outcome;
  sent : nat;
  clock : nat -> string;
  read : nat;
  trace : list event;
  disk : gmap string node
}.

Definition record (e : event) (w : World) : World :=
  mkWorld (net w) (sent w) (clock w) (read w) (trace w ++ [e]) (disk w).

Definition count_request (w : World) : World :=
  mkWorld (net w) (S (sent w)) (clock w) (read w) (trace w) (disk w).

Definition count_reading (w : World) : World :=
  mkWorld (net w) (sent w) (clock w) (S (read w)) (trace w) (disk w).

Definition set_disk (d : gmap string node) (w : World) : World :=
  mkWorld (net w) (sent w) (clock w) (read w) (trace w) d.

(** Computations that change the world and may raise. An exception leaves the
    effects that happened before it. *)
Definition M (A : Type) : Type := World -> result A * World.

Definition ret {A} (a : A) : M A := fun w => (Ok a, w).

Definition raise {A} (e : exn) : M A := fun w => (Raise e, w).

Definition bind {A B} (c : M A) (k : A -> M B) : M B :=
  fun w =>
    match c w with
    | (Ok a, w') => k a w'
    | (Raise e, w') => (Raise e, w')
    end.

Notation "'do' x <- c ; k" := (bind c (fun x => k))
  (at level 10, x name, c at level 100, k at level 200).
Notation "'do_' c ; k" := (bind c (fun _ => k))
  (at level 10, c at level 100, k at level 200).

(** [try: body except requests.RequestException: handler] *)
Definition try_except_RequestException {A} (body handler : M A) : M A :=
  fun w =>
    match body w with
    | (Raise RequestException, w') => handler w'
    | r => r
    end.

(** [for x in xs: body], where the body either returns from the enclosing
    function ([Some v]) or falls through to the next round ([None]); [after]
    is the code that follows the loop. *)
Fixpoint for_each {A R} (body : A -> M (option R)) (xs : list A) (after : M R)
  : M R :=
  match xs with
  | [] => after
  | x :: rest =>
      do r <- body x;
      match r with
      | Some v => ret v
      | None => for_each body rest after
      end
  end.

(** [range(n)] *)
Definition range (n : Z) : list Z := map Z.of_nat (seq 0 (Z.to_nat n)).

Definition effect (e : event) : M unit := fun w => (Ok tt, record e w).

Definition sleep (seconds : Z) : M unit := effect (Sleep seconds).

Definition sleep_uniform (lo hi : Z) : M unit := effect (SleepUniform lo hi).

Definition request (e : event) : M Response :=
  fun w =>
    let w' := count_request (record e w) in
    match net w (sent w) with
    | Responds response => (Ok response, w')
    | Fails => (Raise RequestException, w')
    end.

(** ** [archive_services.py] *)

Module Services.

(** The first anchor whose [href] passes the test of the loop
    [for link in soup.find_all('a'): href = link.get('href'); if href and ...]. *)
Definition first_href (test : string -> bool) (hrefs : list (option string))
  : option string :=
  match
    find (fun href => match href with
                      | Some h => Str.nonempty h && test h
                      | None => false
                      end) hrefs
  with
  | Some href => href
  | None => None
  end.

Definition hex_digit (n : N) : ascii :=
  if (n <? 10)%N then ascii_of_N (48 + n) else ascii_of_N (55 + n).

Definition percent (byte : N) : string :=
  String "%" (String (hex_digit (byte / 16)) (String (hex_digit (byte mod 16)) EmptyString)).

(** the characters [urllib.parse.quote] never quotes, with its default
    [safe='/'] *)
Definition quote_safe (c : ascii) : bool :=
  Str.between "a" "z" c || Str.between "A" "Z" c || Str.between "0" "9" c
  || Ascii.eqb c "_" || Ascii.eqb c "." || Ascii.eqb c "-" || Ascii.eqb c "~"
  || Ascii.eqb c "/".

(** [urllib.parse.quote(url)]: every other character becomes the [%XX] of its
    UTF-8 bytes (two bytes for the code points from 128 to 255). *)
Fixpoint quote (s : string) : string :=
  match s with
  | EmptyString => EmptyString
  | String c rest =>
      (if quote_safe c then String c EmptyString
       else if (Str.code c <? 128)%N then percent (Str.code c)
       else percent (192 + Str.code c / 64) +:+ percent (128 + Str.code c mod 64))
      +:+ quote rest
  end.

Definition wayback_endpoint (url : string) : string :=
  "https://web.archive.org/save/" +:+ url.

(** One round of the loop of [archive_url_wayback]. *)
Definition wayback_attempt (url : string) (max_retries attempt : Z)
  : M (option (bool * option string)) :=
  try_except_RequestException
    (do response <- request (Get (wayback_endpoint url));
     if status_code response =? 200 then
       let archived_url := resp_url response in
       if Str.contains "/web/" archived_url then
         ret (Some (true, Some archived_url))
       else
         match first_href (fun href => Str.contains "/web/" href
                                       && Str.contains url href)
                          (anchors response) with
         | Some href => ret (Some (true, Some ("https://web.archive.org" +:+ href)))
         | None => ret (Some (true, Some ("https://web.archive.org/web/*/" +:+ url)))
         end
     else if status_code response =? 429 then
       do_ sleep (2 ^ attempt);
       ret None
     else
       ret (Some (false, None)))
    (if attempt <? max_retries - 1 then
       do_ sleep (2 ^ attempt);
       ret None
     else
       ret (Some (false, None))).

Definition archive_url_wayback (url : string) (max_retries : Z)
  : M (bool * option string) :=
  for_each (wayback_attempt url max_retries) (range max_retries)
           (ret (false, None)).

Definition archive_endpoint : string := "https://archive.today/submit/".

Definition on_archive_today (s : string) : bool :=
  Str.contains "archive.today" s || Str.contains "archive.is" s.

(** One round of the loop of [archive_url_archive_today]. *)
Definition archive_today_attempt (url : string) (max_retries attempt : Z)
  : M (option (bool * option string)) :=
  let payload := "url=" +:+ quote url in
  try_except_RequestException
    (do_ request (Get "https://archive.today/");
     do response <- request (Post archive_endpoint payload);
     if status_code response =? 200 then
       if on_archive_today (resp_url response) then
         ret (Some (true, Some (resp_url response)))
       else
         match first_href (fun href => on_archive_today href
                                       && Str.contains url href)
                          (anchors response) with
         | Some href => ret (Some (true, Some href))
         | None =>
             match
               if Str.contains "already been saved" (text response) then
                 first_href (fun href => Str.startswith "/" href
                                         && (2 <? Str.len href))
                            (anchors response)
               else None
             with
             | Some href => ret (Some (true, Some ("https://archive.today" +:+ href)))
             | None => ret (Some (true, Some ("https://archive.today/" +:+ url)))
             end
         end
     else if status_code response =? 429 then
       do_ sleep (2 ^ attempt);
       ret None
     else if attempt <? max_retries - 1 then
       do_ sleep (2 ^ attempt);
       ret None
     else
       ret (Some (false, None)))
    (if attempt <? max_retries - 1 then
       do_ sleep (2 ^ attempt);
       ret None
     else
       ret (Some (false, None))).

Definition archive_url_archive_today (url : string) (max_retries : Z)
  : M (bool * option string) :=
  for_each (archive_today_attempt url max_retries) (range max_retries)
           (ret (false, None)).

Record ServiceResult : Type := mkServiceResult {
  success : bool;
  archived_url : option string
}.

(** [max_retries] is left at its default, 3, in both calls. *)
Definition archive_url (url : string) : M (gmap string ServiceResult) :=
  do_ effect (Call_archive_url url);
  let results : gmap string ServiceResult := ∅ in
  do_ sleep_uniform 1 3;
  do wayback <- archive_url_wayback url 3;
  let (wayback_success, wayback_url) := wayback : bool * option string in
  let results :=
    <["wayback_machine" :=
        mkServiceResult wayback_success
          (if wayback_success then wayback_url else None)]> results in
  do_ sleep_uniform 2 5;
  do today <- archive_url_archive_today url 3;
  let (archive_today_success, archive_today_url) := today : bool * option string in
  let results :=
    <["archive_today" :=
        mkServiceResult archive_today_success
          (if archive_today_success then archive_today_url else None)]> results in
  ret results.

End Services.

(** ** The [json] module, as [archive_links.py] uses it *)

Module Json.

(** The documents of the archive log: [null], booleans, strings, lists and
    string-keyed dictionaries. A log that the scripts build holds no number,
    and numbers are not modelled: a file with one is, here, a file that
    [json.load] rejects. A dictionary lists its entries in insertion order. *)
Inductive json : Type :=
| JNull : json
| JBool : bool -> json
| JStr : string -> json
| JArr : list json -> json
| JObj : list (string * json) -> json.

Definition dquote : ascii := "034".
Definition backslash : ascii := "092".
Definition newline : ascii := "010".

Definition hex (n : N) : ascii :=
  if (n <? 10)%N then ascii_of_N (48 + n) else ascii_of_N (87 + n).

(** One character of a string, as [json.dumps] writes it with its default
    [ensure_ascii=True]. *)
Definition escape_char (c : ascii) : string :=
  if Ascii.eqb c dquote then String backslash (String dquote EmptyString)
  else if Ascii.eqb c backslash then String backslash (String backslash EmptyString)
  else if Ascii.eqb c newline then String backslash "n"
  else if Ascii.eqb c "013" then String backslash "r"
  else if Ascii.eqb c "009" then String backslash "t"
  else if Ascii.eqb c "008" then String backslash "b"
  else if Ascii.eqb c "012" then String backslash "f"
  else if (Str.code c <? 32)%N || (126 <? Str.code c)%N then
    String backslash
      (String "u" (String "0" (String "0"
         (String (hex (Str.code c / 16)) (String (hex (Str.code c mod 16)) EmptyString)))))
  else String c EmptyString.

Fixpoint escape (s : string) : string :=
  match s with
  | EmptyString => EmptyString
  | String c rest => escape_char c +:+ escape rest
  end.

Definition quoted (s : string) : string :=
  String dquote (escape s +:+ String dquote EmptyString).

Fixpoint spaces (n : nat) : string :=
  match n with
  | O => EmptyString
  | S n' => String " " (spaces n')
  end.

(** the line break and indentation that [indent=2] puts before an item at
    nesting depth [level] *)
Definition newline_indent (level : nat) : string :=
  String newline (spaces (2 * level)).

Section Tails.
Variable dump_item : json -> string.
Variable level : nat.

(** what follows the first item of a list at depth [level]: a comma, a line
    break and the next item, and so on, then the closing bracket on a line
    of its own *)
Fixpoint items_tail (l : list json) : string :=
  match l with
  | [] => newline_indent level +:+ "]"
  | y :: l' =>
      "," +:+ newline_indent (S level) +:+ dump_item y +:+ items_tail l'
  end.

Fixpoint members_tail (l : list (string * json)) : string :=
  match l with
  | [] => newline_indent level +:+ "}"
  | kv :: l' =>
      "," +:+ newline_indent (S level) +:+ quoted (fst kv) +:+ ": "
      +:+ dump_item (snd kv) +:+ members_tail l'
  end.

End Tails.

(** [json.dumps(v, indent=2)], for a value at nesting depth [level] *)
Fixpoint dumps (level : nat) (v : json) : string :=
  match v with
  | JNull => "null"
  | JBool true => "true"
  | JBool false => "false"
  | JStr s => quoted s
  | JArr [] => "[]"
  | JArr (x :: xs) =>
      "[" +:+ newline_indent (S level) +:+ dumps (S level) x
      +:+ items_tail (dumps (S level)) level xs
  | JObj [] => "{}"
  | JObj (kv :: ms) =>
      "{" +:+ newline_indent (S level) +:+ quoted (fst kv) +:+ ": "
      +:+ dumps (S level) (snd kv)
      +:+ members_tail (dumps (S level)) level ms
  end.

Definition json_dumps (v : json) : string := dumps 0 v.

(** *** Decoding *)

Definition is_ws (c : ascii) : bool :=
  Ascii.eqb c " " || Ascii.eqb c "009" || Ascii.eqb c "010" || Ascii.eqb c "013".

Fixpoint skip_ws (s : string) : string :=
  match s with
  | EmptyString => EmptyString
  | String c rest => if is_ws c then skip_ws rest else s
  end.

Definition hex_value (c : ascii) : option N :=
  if Str.between "0" "9" c then Some (Str.code c - 48)%N
  else if Str.between "a" "f" c then Some (Str.code c - 87)%N
  else if Str.between "A" "F" c then Some (Str.code c - 55)%N
  else None.

(** the character that follows a backslash, for the one-letter escapes *)
Definition unescape (e : ascii) : option ascii :=
  if Ascii.eqb e dquote then Some dquote
  else if Ascii.eqb e backslash then Some backslash
  else if Ascii.eqb e "/" then Some "/"%char
  else if Ascii.eqb e "n" then Some newline
  else if Ascii.eqb e "r" then Some "013"%char
  else if Ascii.eqb e "t" then Some "009"%char
  else if Ascii.eqb e "b" then Some "008"%char
  else if Ascii.eqb e "f" then Some "012"%char
  else None.

Definition cons_char (c : ascii) (r : option (string * string))
  : option (string * string) :=
  match r with
  | Some (str, rest) => Some (String c str, rest)
  | None => None
  end.

(** the code point of [\uXXXX], when it is below 256 *)
Definition code_point (h1 h2 h3 h4 : ascii) : option ascii :=
  match hex_value h1, hex_value h2, hex_value h3, hex_value h4 with
  | Some a, Some b, Some c, Some d =>
      if ((a =? 0) && (b =? 0))%N then Some (ascii_of_N (16 * c + d)) else None
  | _, _, _, _ => None
  end.

(** The characters of a string literal, after its opening quote, up to the
    closing quote; control characters must be escaped. *)
Fixpoint parse_chars (s : string) : option (string * string) :=
  match s with
  | EmptyString => None
  | String c rest =>
      if Ascii.eqb c dquote then Some (EmptyString, rest)
      else if Ascii.eqb c backslash then
        match rest with
        | EmptyString => None
        | String e rest' =>
            match unescape e with
            | Some ch => cons_char ch (parse_chars rest')
            | None =>
                if Ascii.eqb e "u" then
                  match rest' with
                  | String h1 (String h2 (String h3 (String h4 rest''))) =>
                      match code_point h1 h2 h3 h4 with
                      | Some ch => cons_char ch (parse_chars rest'')
                      | None => None
                      end
                  | _ => None
                  end
                else None
            end
        end
      else if (Str.code c <? 32)%N then None
      else cons_char c (parse_chars rest)
  end.

(** [strip p s]: what follows the prefix [p] of [s] *)
Fixpoint strip (p s : string) : option string :=
  match p with
  | EmptyString => Some s
  | String a p' =>
      match s with
      | String b s' => if Ascii.eqb a b then strip p' s' else None
      | EmptyString => None
      end
  end.

(** [d[k] = v] on a dictionary under construction *)
Fixpoint assign (k : string) (v : json) (d : list (string * json))
  : list (string * json) :=
  match d with
  | [] => [(k, v)]
  | (k', v') :: d' =>
      if String.eqb k k' then (k, v) :: d' else (k', v') :: assign k v d'
  end.

(** [dict(pairs)]: a repeated key keeps its first place and its last value *)
Definition dict (pairs : list (string * json)) : list (string * json) :=
  fold_left (fun d kv => assign (fst kv) (snd kv) d) pairs [].

Section Containers.
Variable parse_value : string -> option (json * string).

(** the elements of a list after the first has been announced: a value, then
    [,] and more, or the closing bracket *)
Fixpoint parse_elements (fuel : nat) (s : string) : option (list json * string) :=
  match fuel with
  | O => None
  | S fuel' =>
      match parse_value s with
      | Some (v, rest) =>
          match skip_ws rest with
          | String c rest' =>
              if Ascii.eqb c "," then
                match parse_elements fuel' (skip_ws rest') with
                | Some (vs, rest'') => Some (v :: vs, rest'')
                | None => None
                end
              else if Ascii.eqb c "]" then Some ([v], rest')
              else None
          | EmptyString => None
          end
      | None => None
      end
  end.

(** the members of a dictionary: a quoted key, [:], a value, then [,] and more,
    or the closing brace *)
Fixpoint parse_members (fuel : nat) (s : string)
  : option (list (string * json) * string) :=
  match fuel with
  | O => None
  | S fuel' =>
      match s with
      | String q s1 =>
          if Ascii.eqb q dquote then
            match parse_chars s1 with
            | Some (k, s2) =>
                match skip_ws s2 with
                | String colon s3 =>
                    if Ascii.eqb colon ":" then
                      match parse_value (skip_ws s3) with
                      | Some (v, rest) =>
                          match skip_ws rest with
                          | String c rest' =>
                              if Ascii.eqb c "," then
                                match parse_members fuel' (skip_ws rest') with
                                | Some (ms, rest'') => Some ((k, v) :: ms, rest'')
                                | None => None
                                end
                              else if Ascii.eqb c "}" then Some ([(k, v)], rest')
                              else None
                          | EmptyString => None
                          end
                      | None => None
                      end
                    else None
                | EmptyString => None
                end
            | None => None
            end
          else None
      | EmptyString => None
      end
  end.

End Containers.

(** One value at the head of [s], and what follows it. *)
Fixpoint parse_value (fuel : nat) (s : string) : option (json * string) :=
  match fuel with
  | O => None
  | S fuel' =>
      match s with
      | EmptyString => None
      | String c rest =>
          if Ascii.eqb c dquote then
            match parse_chars rest with
            | Some (str, rest') => Some (JStr str, rest')
            | None => None
            end
          else if Ascii.eqb c "[" then
            match skip_ws rest with
            | String c' rest' =>
                if Ascii.eqb c' "]" then Some (JArr [], rest')
                else
                  match parse_elements (parse_value fuel') fuel' (skip_ws rest) with
                  | Some (vs, rest'') => Some (JArr vs, rest'')
                  | None => None
                  end
            | EmptyString => None
            end
          else if Ascii.eqb c "{" then
            match skip_ws rest with
            | String c' rest' =>
                if Ascii.eqb c' "}" then Some (JObj [], rest')
                else
                  match parse_members (parse_value fuel') fuel' (skip_ws rest) with
                  | Some (ms, rest'') => Some (JObj (dict ms), rest'')
                  | None => None
                  end
            | EmptyString => None
            end
          else
            match strip "null" s, strip "true" s, strip "false" s with
            | Some rest', _, _ => Some (JNull, rest')
            | _, Some rest', _ => Some (JBool true, rest')
            | _, _, Some rest' => Some (JBool false, rest')
            | None, None, None => None
            end
      end
  end.

(** [json.loads(s)]: one value between optional white space, and nothing
    else; [None] stands for [json.JSONDecodeError]. No value nests deeper than
    the text is long. *)
Definition json_loads (s : string) : option json :=
  match parse_value (S (String.length s)) (skip_ws s) with
  | Some (v, rest) =>
      match skip_ws rest with
      | EmptyString => Some v
      | _ => None
      end
  | None => None
  end.

(** the characters a value can start with *)
Definition value_start (c : ascii) : Prop :=
  c = "n"%char \/ c = "t"%char \/ c = "f"%char \/ c = dquote
  \/ c = "["%char \/ c = "{"%char.

(** the number of values in a document *)
Fixpoint size (v : json) : nat :=
  match v with
  | JArr l => S (list_sum (map size l))
  | JObj ms => S (list_sum (map (fun kv => size (snd kv)) ms))
  | _ => 1
  end.

(** The documents that are Python values: no dictionary has a key twice. *)
Inductive document : json -> Prop :=
| document_null : document JNull
| document_bool b : document (JBool b)
| document_str s : document (JStr s)
| document_arr l : Forall document l -> document (JArr l)
| document_obj ms :
    NoDup (map fst ms) -> Forall (fun kv => document (snd kv)) ms ->
    document (JObj ms).

Section json_induction.
Variable P : json -> Prop.
Hypothesis HNull : P JNull.
Hypothesis HBool : forall b, P (JBool b).
Hypothesis HStr : forall s, P (JStr s).
Hypothesis HArr : forall l, Forall P l -> P (JArr l).
Hypothesis HObj : forall ms, Forall (fun kv => P (snd kv)) ms -> P (JObj ms).

Fixpoint json_tree_ind (v : json) : P v :=
  match v with
  | JNull => HNull
  | JBool b => HBool b
  | JStr s => HStr s
  | JArr l =>
      HArr l
        ((fix all (l : list json) : Forall P l :=
            match l with
            | [] => @List.Forall_nil _ P
            | x :: l' => @List.Forall_cons _ P x l' (json_tree_ind x) (all l')
            end) l)
  | JObj ms =>
      HObj ms
        ((fix all (l : list (string * json)) : Forall (fun kv => P (snd kv)) l :=
            match l with
            | [] => @List.Forall_nil _ _
            | kv :: l' =>
                @List.Forall_cons _ (fun kv => P (snd kv)) kv l'
                  (json_tree_ind (snd kv)) (all l')
            end) ms)
  end.
End json_induction.

End Json.

(** ** [archive_links.py] *)

Module Orchestrator.
Import Extract Services Json.

(** [os.path.join(a, b)] on POSIX *)
Definition path_join (a b : string) : string :=
  if Str.startswith "/" b then b
  else if negb (Str.nonempty a) || Str.endswith "/" a then a +:+ b
  else a +:+ "/" +:+ b.

Definition LOG_DIR : string := "logs".
Definition LOG_FILE : string := path_join LOG_DIR "archive_log.json".

(** *** The archive log *)

Record LinkRecord : Type := mkLinkRecord {
  original_url : string;
  first_seen : string;
  last_updated : option string;
  files : list string;
  services : gmap string ServiceResult
}.

(** [log_data]: the dictionary under its one key [archived_links] *)
Record LogData : Type := mkLogData {
  archived_links : gmap string LinkRecord
}.

(** The document that a log is: what [json.dump] is given. *)
Definition encode_result (r : ServiceResult) : json :=
  JObj [("success", JBool (success r));
        ("archived_url", match archived_url r with
                         | Some u => JStr u
                         | None => JNull
                         end)].

Definition encode_services (m : gmap string ServiceResult) : json :=
  JObj (map (fun kv => (fst kv, encode_result (snd kv))) (map_to_list m)).

Definition encode_record (r : LinkRecord) : json :=
  JObj ([("original_url", JStr (original_url r));
         ("first_seen", JStr (first_seen r));
         ("files", JArr (map JStr (files r)));
         ("services", encode_services (services r))]
        ++ match last_updated r with
           | Some t => [("last_updated", JStr t)]
           | None => []
           end).

Definition encode_log (log_data : LogData) : json :=
  JObj [("archived_links",
         JObj (map (fun kv => (fst kv, encode_record (snd kv)))
                   (map_to_list (archived_links log_data))))].

(** The log that a document is, when it has the shape of the data model; a
    document of another shape is outside this model. *)
Fixpoint lookup_key (k : string) (ms : list (string * json)) : option json :=
  match ms with
  | [] => None
  | (k', v) :: ms' => if String.eqb k k' then Some v else lookup_key k ms'
  end.

Definition field (k : string) (v : json) : option json :=
  match v with
  | JObj ms => lookup_key k ms
  | _ => None
  end.

Definition decode_string (v : json) : option string :=
  match v with JStr s => Some s | _ => None end.

Definition decode_result (v : json) : option ServiceResult :=
  match field "success" v, field "archived_url" v with
  | Some (JBool b), Some JNull => Some (mkServiceResult b None)
  | Some (JBool b), Some (JStr u) => Some (mkServiceResult b (Some u))
  | _, _ => None
  end.

Fixpoint decode_all {A B} (f : A -> option B) (l : list A) : option (list B) :=
  match l with
  | [] => Some []
  | x :: l' =>
      match f x, decode_all f l' with
      | Some y, Some ys => Some (y :: ys)
      | _, _ => None
      end
  end.

Definition decode_dict {B} (f : json -> option B) (v : json)
  : option (gmap string B) :=
  match v with
  | JObj ms =>
      match decode_all (fun kv => match f (snd kv) with
                                  | Some y => Some (fst kv, y)
                                  | None => None
                                  end) ms with
      | Some l => Some (list_to_map l)
      | None => None
      end
  | _ => None
  end.

Definition decode_record (v : json) : option LinkRecord :=
  match field "original_url" v, field "first_seen" v,
        field "files" v, field "services" v with
  | Some (JStr o), Some (JStr t), Some (JArr fs), Some sv =>
      match decode_all decode_string fs, decode_dict decode_result sv with
      | Some fs', Some sv' =>
          match field "last_updated" v with
          | None => Some (mkLinkRecord o t None fs' sv')
          | Some (JStr u) => Some (mkLinkRecord o t (Some u) fs' sv')
          | Some _ => None
          end
      | _, _ => None
      end
  | _, _, _, _ => None
  end.

Definition decode_log (v : json) : option LogData :=
  match field "archived_links" v with
  | Some links =>
      match decode_dict decode_record links with
      | Some m => Some (mkLogData m)
      | None => None
      end
  | None => None
  end.

(** *** The log file *)

(** [os.path.exists(path)] *)
Definition path_exists (path : string) : M bool :=
  fun w => (Ok (bool_decide (is_Some (disk w !! path))), w).

(** [os.makedirs(path)], for a path of one component *)
Definition makedirs (path : string) : M unit :=
  fun w =>
    match disk w !! path with
    | None => (Ok tt, set_disk (<[path := Dir]> (disk w)) w)
    | Some _ => (Raise OSError, w)
    end.

Definition ensure_log_directory : M unit :=
  do found <- path_exists LOG_DIR;
  if negb found then makedirs LOG_DIR else ret tt.

(** [{"archived_links": {}}] *)
Definition empty_log : json := JObj [("archived_links", JObj [])].

(** [with open(LOG_FILE, 'r') as f: return json.load(f)]; opening a directory
    raises. *)
Definition load_existing_log : M json :=
  do found <- path_exists LOG_FILE;
  if found then
    fun w =>
      match disk w !! LOG_FILE with
      | Some (File content) =>
          match json_loads content with
          | Some log_data => (Ok log_data, w)
          | None => (Ok empty_log, w)       (* json.JSONDecodeError *)
          end
      | _ => (Raise OSError, w)
      end
  else ret empty_log.

(** [with open(LOG_FILE, 'w') as f: json.dump(log_data, f, indent=2)]; opening
    raises unless the directory of the file is there and the file itself is
    not a directory. *)
Definition save_log (log_data : json) : M unit :=
  fun w =>
    match disk w !! LOG_DIR, disk w !! LOG_FILE with
    | Some Dir, None
    | Some Dir, Some (File _) =>
        (Ok tt, set_disk (<[LOG_FILE := File (json_dumps log_data)]> (disk w)) w)
    | _, _ => (Raise OSError, w)
    end.

(** *** The change filter *)

(** What the query of the repository gives: one of the failures, or the diff
    of the head commit against its parent, each item with its two paths. *)
Inductive git_query : Type :=
| NoRepository
| NoParentCommit
| OtherException
| Diff (items : list (option string * option string)).

Definition is_yaml_name (path : string) : bool :=
  Str.endswith ".yaml" path || Str.endswith ".yml" path.

(** [path.endswith(('.yaml', '.yml'))], which raises on [None] *)
Definition endswith_yaml (path : option string) : option bool :=
  match path with
  | Some p => Some (is_yaml_name p)
  | None => None
  end.

Definition add_path (path : option string) (changed : gset string) : gset string :=
  match path with
  | Some p => if Str.nonempty p then changed ∪ {[p]} else changed
  | None => changed
  end.

(** the loop over the diff; [None] when an [endswith] raises *)
Fixpoint changed_in (items : list (option string * option string))
  (changed_files : gset string) : option (gset string) :=
  match items with
  | [] => Some changed_files
  | (a_path, b_path) :: rest =>
      match endswith_yaml a_path with
      | None => None
      | Some true =>
          changed_in rest (add_path b_path (add_path a_path changed_files))
      | Some false =>
          match endswith_yaml b_path with
          | None => None
          | Some true =>
              changed_in rest (add_path b_path (add_path a_path changed_files))
          | Some false => changed_in rest changed_files
          end
      end
  end.

(** every exception ends in [except Exception: return set()] *)
Definition get_changed_yaml_files (git : git_query) : gset string :=
  match git with
  | Diff items =>
      match changed_in items ∅ with
      | Some changed_files => changed_files
      | None => ∅
      end
  | _ => ∅
  end.

(** *** The files *)

(** [get_all_yaml_files]: [walk] lists what [os.walk('.')] yields, each
    directory with the names of its files. *)
Definition get_all_yaml_files (walk : list (string * list string)) : list string :=
  flat_map
    (fun dir =>
       flat_map
         (fun file =>
            if is_yaml_name file && negb (Str.contains ".git" (fst dir))
            then [path_join (fst dir) file] else [])
         (snd dir))
    walk.

(** [get_links_from_all_yaml_files]: [parse path] is what reading and parsing
    the file gives. The result lists the files in the order of the walk, which
    names each file once. *)
Fixpoint links_of_files (parse : string -> loaded) (yaml_files : list string)
  : result (list (string * list string)) :=
  match yaml_files with
  | [] => Ok []
  | yaml_file :: rest =>
      match extract_links_from_yaml (parse yaml_file) with
      | Raise e => Raise e
      | Ok links =>
          match links_of_files parse rest with
          | Raise e => Raise e
          | Ok results =>
              Ok (match links with
                  | [] => results
                  | _ => (yaml_file, links) :: results
                  end)
          end
      end
  end.

Definition get_links_from_all_yaml_files (walk : list (string * list string))
  (parse : string -> loaded) : result (list (string * list string)) :=
  links_of_files parse (get_all_yaml_files walk).

(** [if changed_files: all_files_links = {f: links for ... if f in changed_files}] *)
Definition restrict_to_changed (changed_files : gset string)
  (all_files_links : list (string * list string)) : list (string * list string) :=
  if bool_decide (changed_files = ∅) then all_files_links
  else filter (fun fl => bool_decide (fst fl ∈ changed_files)) all_files_links.

(** *** The main loop *)

Definition utcnow_isoformat : M string :=
  fun w => (Ok (clock w (read w)), count_reading w).

(** [link in archived_links and any(service["success"] for service in ...)] *)
Definition already_archived (log_data : LogData) (link : string) : bool :=
  match archived_links log_data !! link with
  | Some entry =>
      existsb (fun kv => success (snd kv)) (map_to_list (services entry))
  | None => false
  end.

(** "Create or update log entry" *)
Definition merge (file_path link timestamp : string)
  (archive_results : gmap string ServiceResult) (log_data : LogData) : LogData :=
  match archived_links log_data !! link with
  | None =>
      mkLogData
        (<[link := mkLinkRecord link timestamp None [file_path] archive_results]>
           (archived_links log_data))
  | Some entry =>
      mkLogData
        (<[link :=
             mkLinkRecord (original_url entry) (first_seen entry) (Some timestamp)
               (if bool_decide (file_path ∈ files entry) then files entry
                else files entry ++ [file_path])
               (archive_results ∪ services entry)]>
           (archived_links log_data))
  end.

(** the body of [for link in links] *)
Definition process_link (file_path link : string) (log_data : LogData)
  : M LogData :=
  if already_archived log_data link then ret log_data
  else
    do archive_results <- archive_url link;
    do timestamp <- utcnow_isoformat;
    let log_data := merge file_path link timestamp archive_results log_data in
    do_ save_log (encode_log log_data);
    do_ sleep 1;
    ret log_data.

Fixpoint process_links (file_path : string) (links : list string)
  (log_data : LogData) : M LogData :=
  match links with
  | [] => ret log_data
  | link :: rest =>
      do log_data <- process_link file_path link log_data;
      process_links file_path rest log_data
  end.

(** [for file_path, links in all_files_links.items()] *)
Fixpoint process_files (all_files_links : list (string * list string))
  (log_data : LogData) : M LogData :=
  match all_files_links with
  | [] => ret log_data
  | (file_path, links) :: rest =>
      do log_data <- process_links file_path links log_data;
      process_files rest log_data
  end.

Definition lift {A} (r : result A) : M A := fun w => (r, w).

Definition main (walk : list (string * list string)) (parse : string -> loaded)
  (git : git_query) : M LogData :=
  do_ ensure_log_directory;
  do loaded_log <- load_existing_log;
  do log_data <- match decode_log loaded_log with
                 | Some log_data => ret log_data
                 | None => raise KeyError
                 end;
  do all_files_links <- lift (get_links_from_all_yaml_files walk parse);
  let changed_files := get_changed_yaml_files git in
  let all_files_links := restrict_to_changed changed_files all_files_links in
  process_files all_files_links log_data.

End Orchestrator.

(** ** Vocabulary of the properties *)

Module Outcomes.
Import Services.

(** a service outcome: [(True, url)] or [(False, None)] *)
Definition settled (r : bool * option string) : Prop :=
  match r with
  | (true, Some _) => True
  | (false, None) => True
  | _ => False
  end.

(** [c] returns, whatever the world, with a result that satisfies [P] *)
Definition returns {A} (P : A -> Prop) (c : M A) : Prop :=
  forall w, exists a w', c w = (Ok a, w') /\ P a.

(** the entry that [archive_url] stores for a service outcome *)
Definition entry_of (r : bool * option string) : ServiceResult :=
  mkServiceResult (fst r) (if fst r then snd r else None).

Definition rate_limited : Response := mkResponse 429 "https://web.archive.org/" EmptyString [].
Definition not_found : Response := mkResponse 404 "https://web.archive.org/" EmptyString [].

(** a world with an empty disk in which every request meets [o] *)
Definition world_answering (o : outcome) : World :=
  mkWorld (fun _ => o) 0 (fun _ => "2024-01-01T00:00:00") 0 [] ∅.

Definition archived_ok : Response :=
  mkResponse 200 "https://web.archive.org/web/2024/https://example.com"
    EmptyString [].
Definition landing_page : Response :=
  mkResponse 200 "https://example.org/landing" "<html></html>" [].

(** The three ways in which the specification says Service B recognises a
    success in a submit response. *)
Definition final_url_on_service (response : Response) : bool :=
  on_archive_today (resp_url response).

Definition anchor_on_service (url : string) (response : Response) : bool :=
  existsb (fun href => match href with
                       | Some h => on_archive_today h && Str.contains url h
                       | None => false
                       end) (anchors response).

Definition already_saved_anchor (response : Response) : bool :=
  Str.contains "already been saved" (text response)
  && existsb (fun href => match href with
                          | Some h => Str.startswith "/" h
                          | None => false
                          end) (anchors response).

(** the archived location that [archive_url_archive_today] reports for a
    submit response with status 200 *)
Definition archive_today_location (url : string) (response : Response) : string :=
  if on_archive_today (resp_url response) then resp_url response
  else
    match first_href (fun href => on_archive_today href && Str.contains url href)
                     (anchors response) with
    | Some href => href
    | None =>
        match
          if Str.contains "already been saved" (text response) then
            first_href (fun href => Str.startswith "/" href && (2 <? Str.len href))
                       (anchors response)
          else None
        with
        | Some href => "https://archive.today" +:+ href
        | None => "https://archive.today/" +:+ url
        end
    end.

End Outcomes.

Module Invariants.
Import Services Orchestrator.

(** no record of the log lists a path twice *)
Definition files_unique (log_data : LogData) : Prop :=
  forall link entry,
    archived_links log_data !! link = Some entry -> NoDup (files entry).

(** every effect that [c] adds to the trace satisfies [P] *)
Definition emits {A} (P : event -> Prop) (c : M A) : Prop :=
  forall w r w', c w = (r, w') ->
                 exists t, trace w' = trace w ++ t /\ Forall P t.

(** the record has a service result with [success = true] *)
Definition archived (entry : LinkRecord) : Prop :=
  exists service r, services entry !! service = Some r /\ success r = true.

(** [main] with the change filter left out *)
Definition main_unfiltered (walk : list (string * list string))
  (parse : string -> Extract.loaded) : M LogData :=
  do_ ensure_log_directory;
  do loaded_log <- load_existing_log;
  do log_data <- match decode_log loaded_log with
                 | Some log_data => ret log_data
                 | None => raise KeyError
                 end;
  do all_files_links <- lift (get_links_from_all_yaml_files walk parse);
  process_files all_files_links log_data.

(** a log with one record, archived by the first service only *)
Definition archived_entry : LinkRecord :=
  mkLinkRecord "https://example.com" "2024-01-01T00:00:00" None ["./a.yaml"]
    (<["archive_today" := mkServiceResult false None]>
       (<["wayback_machine" :=
            mkServiceResult true
              (Some "https://web.archive.org/web/2024/https://example.com")]> ∅)).

Definition one_record_log : LogData :=
  mkLogData (<["https://example.com" := archived_entry]> ∅).

End Invariants.

(** ** Vocabulary of the further properties *)

Module Shapes.
Import Regex Extract.

(** the line feed that ends a line *)
Definition LF : string := String "010" EmptyString.

(** the characters of a string *)
Fixpoint chars (s : string) : list ascii :=
  match s with
  | EmptyString => []
  | String c rest => c :: chars rest
  end.

(** every character that a class of [r] admits satisfies [P] *)
Fixpoint within (P : ascii -> bool) (r : regex) : Prop :=
  match r with
  | Class p => forall c, p c = true -> P c = true
  | Cat r1 r2 | Or r1 r2 => within P r1 /\ within P r2
  | Star r1 => within P r1
  | _ => True
  end.

(** [r] matches no string at all, as its shape shows *)
Fixpoint dead (r : regex) : bool :=
  match r with
  | Never => true
  | Cat r1 r2 => dead r1 || dead r2
  | Or r1 r2 => dead r1 && dead r2
  | _ => false
  end.

(** every string that [r] matches has a character that satisfies [P], as the
    shape of [r] shows *)
Fixpoint demands (P : ascii -> bool) (r : regex) : Prop :=
  match r with
  | Never => True
  | Class p => forall c, p c = true -> P c = true
  | Cat r1 r2 => demands P r1 \/ demands P r2
  | Or r1 r2 => demands P r1 /\ demands P r2
  | _ => False
  end.

End Shapes.
Module Bounds.
Import Services.

(** [c] issues at most [n] requests, and never takes one back *)
Definition sends_at_most (n : nat) {A} (c : M A) : Prop :=
  forall w r w', c w = (r, w') -> (sent w <= sent w' <= sent w + n)%nat.

(** the archived location that [archive_url_wayback] reports for a response
    with status 200 *)
Definition wayback_location (url : string) (response : Response) : string :=
  if Str.contains "/web/" (resp_url response) then resp_url response
  else
    match first_href (fun href => Str.contains "/web/" href
                                  && Str.contains url href)
                     (anchors response) with
    | Some href => "https://web.archive.org" +:+ href
    | None => "https://web.archive.org/web/*/" +:+ url
    end.

Definition server_error : Response :=
  mkResponse 500 "https://archive.today/submit/" EmptyString [].

End Bounds.
Module Runs.
Import Services Json Orchestrator.

(** a record after later runs: the same URL and first sighting, and the files
    it listed followed by those added since *)
Definition grows (entry entry' : LinkRecord) : Prop :=
  original_url entry' = original_url entry
  /\ first_seen entry' = first_seen entry
  /\ exists more, files entry' = files entry ++ more.

(** every record of [log_data] is still in [log_data'], grown *)
Definition kept (log_data log_data' : LogData) : Prop :=
  forall link entry,
    archived_links log_data !! link = Some entry ->
    exists entry',
      archived_links log_data' !! link = Some entry' /\ grows entry entry'.

(** the log file holds [log_data] *)
Definition synced (w : World) (log_data : LogData) : Prop :=
  disk w !! LOG_FILE = Some (File (json_dumps (encode_log log_data))).

(** every record sits under its own URL *)
Definition keyed (log_data : LogData) : Prop :=
  forall link entry,
    archived_links log_data !! link = Some entry -> original_url entry = link.

(** no service result of the record is a success *)
Definition unarchived (entry : LinkRecord) : Prop :=
  forall service r, services entry !! service = Some r -> success r = false.

(** a record whose two services failed *)
Definition failed_entry : LinkRecord :=
  mkLinkRecord "https://example.com" "2024-01-01T00:00:00" None ["./a.yaml"]
    (<["archive_today" := mkServiceResult false None]>
       (<["wayback_machine" := mkServiceResult false None]> ∅)).

Definition failed_log : LogData :=
  mkLogData (<["https://example.com" := failed_entry]> ∅).

(** a world whose log directory exists, whose log file holds [log_data],
    and in which every request raises *)
Definition offline_world (log_data : LogData) : World :=
  set_disk (<[LOG_FILE := File (json_dumps (encode_log log_data))]>
              {[ LOG_DIR := Dir ]})
           (Outcomes.world_answering Fails).

(** the log with which a run ends, [log_data] when it raises *)
Definition final_log (log_data : LogData) (run : result LogData * World)
  : LogData :=
  match fst run with
  | Ok log_data' => log_data'
  | Raise _ => log_data
  end.

(** the log directory is there and the log file can be written *)
Definition writable (w : World) : Prop :=
  disk w !! LOG_DIR = Some Dir /\ disk w !! LOG_FILE <> Some Dir.

(** [c] leaves the disk as it is *)
Definition keeps_disk {A} (c : M A) : Prop :=
  forall w r w', c w = (r, w') -> disk w' = disk w.

End Runs.

(** * Properties *)

(** ** The link extractor *)

Section ExtractProperties.
Import Regex Extract Walk.

Lemma extract_links_from_dict_eq entries :
  extract_links_from_dict (YDict entries) = flat_map entry_links entries.
Proof. reflexivity. Qed.

Lemma is_url_truthy u : is_url (YStr u) = true -> truthy (YStr u) = true.
Proof. destruct u; [discriminate | reflexivity]. Qed.

Lemma url_string_In u : is_url (YStr u) = true -> In u (url_string (YStr u)).
Proof. intros H. unfold url_string. rewrite H. now left. Qed.

Lemma url_string_inv item u :
  In u (url_string item) -> item = YStr u /\ is_url (YStr u) = true.
Proof.
  destruct item as [| | | | s | |]; simpl; try tauto.
  destruct (anchored_match url_pattern s) eqn:E; simpl; [|tauto].
  intros [<- | []]. split; [reflexivity | exact E].
Qed.

(** every string a visited mapping yields is in the entry's contribution *)
Lemma yields_collected entries u :
  yields (YDict entries) u -> In u (extract_links_from_dict (YDict entries)).
Proof.
  intros Hy. rewrite extract_links_from_dict_eq. apply in_flat_map.
  inversion Hy as [es key v Hin Hkey Hurl | es key items v Hin Hitem Hurl]; subst.
  - exists (key, YStr u). split; [assumption|]. unfold entry_links.
    rewrite Hkey, (is_url_truthy _ Hurl). simpl. now apply url_string_In.
  - exists (key, YList items). split; [assumption|]. unfold entry_links.
    destruct (is_link_key key && truthy (YList items)).
    + apply in_flat_map. exists (YStr u). split; [assumption|].
      now apply url_string_In.
    + apply in_flat_map. exists (YStr u). split; [assumption|].
      now apply url_string_In.
Qed.

Lemma visits_collected root m u :
  visits root m -> yields m u -> In u (extract_links_from_dict root).
Proof.
  induction 1 as [entries | entries key d m Hin Hbranch Hv IH
                 | entries key items d m Hin Hbranch Hitem Hv IH]; intros Hy.
  - now apply yields_collected.
  - rewrite extract_links_from_dict_eq. apply in_flat_map.
    exists (key, YDict d). split; [assumption|]. unfold entry_links.
    rewrite Hbranch. now apply IH.
  - rewrite extract_links_from_dict_eq. apply in_flat_map.
    exists (key, YList items). split; [assumption|]. unfold entry_links.
    rewrite Hbranch. apply in_flat_map. exists (YDict d). split; [assumption|].
    now apply IH.
Qed.

Lemma collected_visits_nested root :
  reached_from root
  /\ match root with
     | YList items => Forall reached_from items
     | _ => True
     end.
Proof.
  induction root as [| | | | |items IH|entries IH] using yaml_tree_ind;
    try (split; [intros u Hu; contradiction | exact I]).
  - split; [intros u Hu; contradiction|].
    eapply List.Forall_impl; [|exact IH]. intros a [Ha _]. exact Ha.
  - split; [|exact I]. intros u Hu.
    rewrite extract_links_from_dict_eq in Hu. apply in_flat_map in Hu.
    destruct Hu as [[key value] [Hin Hu]].
    rewrite List.Forall_forall in IH. pose proof (IH _ Hin) as IHv.
    simpl in IHv. unfold entry_links in Hu.
    destruct (is_link_key key && truthy value) eqn:Hbranch.
    + apply andb_prop in Hbranch as [Hkey Htruthy].
      destruct value as [| | | | s |items|d]; try contradiction.
      * apply url_string_inv in Hu as [E Hurl]. injection E as ->.
        exists (YDict entries). split; [constructor|].
        eapply yields_link; eauto.
      * apply in_flat_map in Hu as [item [Hitem Hu]].
        apply url_string_inv in Hu as [-> Hurl].
        exists (YDict entries). split; [constructor|].
        eapply yields_element; eauto.
    + destruct value as [| | | | s |items|d]; try contradiction.
      * apply in_flat_map in Hu as [item [Hitem Hu]].
        destruct IHv as [_ IHitems]. rewrite List.Forall_forall in IHitems.
        destruct item as [| | | | s | |d]; try contradiction.
        -- apply url_string_inv in Hu as [E Hurl]. injection E as ->.
           exists (YDict entries). split; [constructor|].
           eapply yields_element; eauto.
        -- destruct (IHitems _ Hitem u Hu) as [m [Hv Hy]].
           exists m. split; [|assumption]. eapply visits_item; eauto.
      * destruct IHv as [IHd _]. destruct (IHd u Hu) as [m [Hv Hy]].
        exists m. split; [|assumption]. eapply visits_value; eauto.
Qed.

(** The strings [extract_links_from_dict] returns are exactly those that the
    mappings it visits yield. *)
Lemma extract_links_from_dict_spec root u :
  In u (extract_links_from_dict root) <->
  exists m, visits root m /\ yields m u.
Proof.
  split.
  - apply collected_visits_nested.
  - intros [m [Hv Hy]]. eapply visits_collected; eauto.
Qed.

Lemma unique_count links u :
  In u links -> count_occ string_dec (unique links) u = 1%nat.
Proof.
  intros Hin. unfold unique.
  apply (proj1 (NoDup_count_occ' string_dec _)).
  - apply NoDup_ListNoDup, NoDup_elements.
  - apply list_elem_of_In, elem_of_elements, elem_of_list_to_set,
      list_elem_of_In, Hin.
Qed.

Lemma visits_root_nonempty root m entries :
  visits root m -> m = YDict entries -> entries <> [] ->
  is_dict root = true /\ truthy root = true.
Proof.
  intros Hv. destruct Hv as [es | es key d m' Hin _ _ | es key items d m' Hin _ _ _];
    intros E Hne.
  - injection E as ->. destruct entries; [congruence | now split].
  - destruct es; [contradiction | now split].
  - destruct es; [contradiction | now split].
Qed.

Lemma mapping_under_link_ignored key d :
  is_link_key key = true -> d <> [] ->
  extract_links_from_dict (YDict [(key, YDict d)]) = [].
Proof.
  intros Hkey Hd. rewrite extract_links_from_dict_eq. cbn [flat_map entry_links].
  rewrite Hkey. destruct d; [congruence | reflexivity].
Qed.

(** C5 (amended). [extract_links_from_dict] descends into every mapping
    stored under a key that does not take the [link] branch and into every
    mapping that is an element of a sequence stored under such a key, at any
    depth; from each mapping [m] so visited it collects the URL-shaped string
    of a [link] key and the URL-shaped string elements of every sequence
    value. A non-empty mapping stored beneath a [link] key is not descended
    into. *)
Theorem extract_links_from_dict_collects (root m : yaml) (u : string)
  (key : yaml) (d : list (yaml * yaml)) :
  visits root m -> yields m u ->
  is_link_key key = true -> d <> [] ->
  In u (extract_links_from_dict root)
  /\ extract_links_from_dict (YDict [(key, YDict d)]) = [].
Proof.
  intros Hv Hy Hkey Hd. split.
  - apply extract_links_from_dict_spec. eauto.
  - now apply mapping_under_link_ignored.
Qed.

Lemma extract_links_from_dict_collects_witness :
  let u := "https://example.com/x" in
  let leaf := YDict [(YStr "link", YStr u)] in
  let mid := YDict [(YStr "refs", YList [YInt 1; leaf])] in
  let root := YDict [(YStr "title", YStr "t"); (YStr "body", mid)] in
  In u (extract_links_from_dict root)
  /\ extract_links_from_dict (YDict [(YStr "link", leaf)]) = [].
Proof.
  intros u leaf mid root.
  apply (extract_links_from_dict_collects root leaf u (YStr "link")
           [(YStr "link", YStr u)]).
  - eapply visits_value with (key := YStr "body");
      [right; left; reflexivity | reflexivity |].
    eapply visits_item with (key := YStr "refs");
      [left; reflexivity | reflexivity | right; left; reflexivity |].
    apply visits_root.
  - eapply yields_link with (key := YStr "link");
      [left; reflexivity | reflexivity | reflexivity].
  - reflexivity.
  - discriminate.
Defined.

(** C5 as stated fails: a URL-shaped string in a mapping stored beneath a
    [link] key, and one in a sequence nested directly in a sequence, occur in
    the tree and are not collected. *)
Lemma extract_links_from_dict_misses_nested :
  let u := "https://example.com/a" in
  let under_link := YDict [(YStr "link", YDict [(YStr "link", YStr u)])] in
  let in_nested_list := YDict [(YStr "refs", YList [YList [YStr u]])] in
  is_url (YStr u) = true
  /\ occurs under_link u /\ extract_links_from_dict under_link = []
  /\ occurs in_nested_list u /\ extract_links_from_dict in_nested_list = [].
Proof.
  intros u under_link in_nested_list.
  split; [reflexivity|]. split.
  { eapply occurs_value; [left; reflexivity|].
    eapply occurs_value; [left; reflexivity|]. constructor. }
  split; [reflexivity|]. split.
  { eapply occurs_value; [left; reflexivity|].
    eapply occurs_element; [left; reflexivity|].
    eapply occurs_element; [left; reflexivity|]. constructor. }
  reflexivity.
Qed.

(** C6 (amended). When the top-level mapping of a parsed file, or a mapping
    that the walk visits from it, has the entry [link: u] and [u] matches the
    URL-shape pattern, the per-file result contains [u] exactly once, however
    often [u] occurs in the file. *)
Theorem extract_links_from_yaml_once root entries key u :
  visits root (YDict entries) ->
  In (key, YStr u) entries -> is_link_key key = true ->
  is_url (YStr u) = true ->
  exists links,
    extract_links_from_yaml (Parsed root) = Ok links
    /\ count_occ string_dec links u = 1%nat.
Proof.
  intros Hv Hin Hkey Hurl.
  destruct (visits_root_nonempty root _ entries Hv eq_refl) as [Hd Ht].
  { intros ->. contradiction. }
  exists (unique (extract_links_from_dict root)). split.
  - unfold extract_links_from_yaml. now rewrite Ht, Hd.
  - apply unique_count. eapply visits_collected; [exact Hv|].
    eapply yields_link; eauto.
Qed.

Lemma extract_links_from_yaml_once_witness :
  let u := "https://a.bc/d" in
  let entries := [(YStr "link", YStr u); (YStr "mirrors", YList [YStr u])] in
  exists links,
    extract_links_from_yaml (Parsed (YDict entries)) = Ok links
    /\ count_occ string_dec links u = 1%nat.
Proof.
  intros u entries.
  apply (extract_links_from_yaml_once (YDict entries) entries (YStr "link") u).
  - apply visits_root.
  - left; reflexivity.
  - reflexivity.
  - reflexivity.
Defined.

(** C6 as stated fails: the final label of "https://a.b/c" has one letter, so
    the string does not match the pattern and the result does not contain
    it. *)
Lemma extract_links_from_yaml_a_b_c :
  let tree := YDict [(YStr "link", YStr "https://a.b/c")] in
  has_link_entry tree "https://a.b/c"
  /\ is_url (YStr "https://a.b/c") = false
  /\ extract_links_from_yaml (Parsed tree) = Ok []
  /\ ~ (exists links,
          extract_links_from_yaml (Parsed tree) = Ok links
          /\ count_occ string_dec links "https://a.b/c" = 1%nat).
Proof.
  intros tree.
  assert (E : extract_links_from_yaml (Parsed tree) = Ok []) by (vm_compute; reflexivity).
  split; [constructor; left; reflexivity|].
  split; [reflexivity|]. split; [exact E|].
  intros [links [Hl Hc]]. rewrite E in Hl. injection Hl as <-. discriminate.
Qed.

End ExtractProperties.



(** ** The archive submitter *)

Section ServiceProperties.
Import Services Outcomes.

Lemma returns_ret {A} (P : A -> Prop) a : P a -> returns P (ret a).
Proof. intros H w. exists a, w. now split. Qed.

Lemma returns_bind {A B} (P : A -> Prop) (Q : B -> Prop) c k :
  returns P c -> (forall a, P a -> returns Q (k a)) -> returns Q (bind c k).
Proof.
  intros Hc Hk w. destruct (Hc w) as [a [w1 [E Pa]]].
  destruct (Hk a Pa w1) as [b [w2 [E2 Qb]]].
  exists b, w2. unfold bind. rewrite E. now split.
Qed.

Lemma returns_for_each {A R} (P : R -> Prop) (body : A -> M (option R)) xs after :
  (forall x, returns (fun r => forall v, r = Some v -> P v) (body x)) ->
  returns P after ->
  returns P (for_each body xs after).
Proof.
  intros Hbody Hafter. induction xs as [|x xs IH]; simpl; [exact Hafter|].
  eapply returns_bind; [apply Hbody|]. intros [v|] Hv.
  - apply returns_ret. now apply Hv.
  - exact IH.
Qed.

Lemma wayback_attempt_returns url max_retries attempt :
  returns (fun r => forall v, r = Some v -> settled v)
          (wayback_attempt url max_retries attempt).
Proof.
  intros w. unfold wayback_attempt, try_except_RequestException, bind, request.
  destruct (net w (sent w)) as [response|].
  - destruct (status_code response =? 200).
    + destruct (Str.contains "/web/" (resp_url response)).
      * eexists _, _. split; [reflexivity|]. now intros v [= <-].
      * destruct (first_href _ (anchors response));
          (eexists _, _; split; [reflexivity|]; now intros v [= <-]).
    + destruct (status_code response =? 429).
      * eexists _, _. split; [reflexivity|]. intros v [=].
      * eexists _, _. split; [reflexivity|]. now intros v [= <-].
  - destruct (attempt <? max_retries - 1).
    + eexists _, _. split; [reflexivity|]. intros v [=].
    + eexists _, _. split; [reflexivity|]. now intros v [= <-].
Qed.

Lemma archive_today_attempt_returns url max_retries attempt :
  returns (fun r => forall v, r = Some v -> settled v)
          (archive_today_attempt url max_retries attempt).
Proof.
  intros w. unfold archive_today_attempt, try_except_RequestException, bind, request.
  destruct (net w (sent w)) as [cookie|]; cbn [sent count_request record net].
  - destruct (net w (S (sent w))) as [response|].
    + destruct (status_code response =? 200).
      * destruct (on_archive_today (resp_url response)).
        { eexists _, _. split; [reflexivity|]. now intros v [= <-]. }
        destruct (first_href _ (anchors response)).
        { eexists _, _. split; [reflexivity|]. now intros v [= <-]. }
        destruct (if Str.contains "already been saved" (text response)
                  then first_href _ (anchors response) else None);
          (eexists _, _; split; [reflexivity|]; now intros v [= <-]).
      * destruct (status_code response =? 429).
        { eexists _, _. split; [reflexivity|]. intros v [=]. }
        destruct (attempt <? max_retries - 1).
        { eexists _, _. split; [reflexivity|]. intros v [=]. }
        eexists _, _. split; [reflexivity|]. now intros v [= <-].
    + destruct (attempt <? max_retries - 1).
      * eexists _, _. split; [reflexivity|]. intros v [=].
      * eexists _, _. split; [reflexivity|]. now intros v [= <-].
  - destruct (attempt <? max_retries - 1).
    + eexists _, _. split; [reflexivity|]. intros v [=].
    + eexists _, _. split; [reflexivity|]. now intros v [= <-].
Qed.

Lemma archive_url_wayback_returns url max_retries :
  returns settled (archive_url_wayback url max_retries).
Proof.
  apply returns_for_each.
  - intros x. apply wayback_attempt_returns.
  - now apply returns_ret.
Qed.

Lemma archive_url_archive_today_returns url max_retries :
  returns settled (archive_url_archive_today url max_retries).
Proof.
  apply returns_for_each.
  - intros x. apply archive_today_attempt_returns.
  - now apply returns_ret.
Qed.

Lemma archive_url_returns url :
  returns (fun results =>
             exists a b, settled a /\ settled b
               /\ results = <["archive_today" := entry_of b]>
                              (<["wayback_machine" := entry_of a]> ∅))
          (archive_url url).
Proof.
  unfold archive_url.
  eapply returns_bind with (P := fun _ => True).
  { intros w. eexists _, _. split; [reflexivity | exact I]. }
  intros _ _. eapply returns_bind with (P := fun _ => True).
  { intros w. eexists _, _. split; [reflexivity | exact I]. }
  intros _ _. eapply returns_bind; [apply archive_url_wayback_returns|].
  intros [b1 o1] S1. cbn beta iota.
  eapply returns_bind with (P := fun _ => True).
  { intros w. eexists _, _. split; [reflexivity | exact I]. }
  intros _ _. eapply returns_bind; [apply archive_url_archive_today_returns|].
  intros [b2 o2] S2. cbn beta iota.
  apply returns_ret. exists (b1, o1), (b2, o2). auto.
Qed.

Lemma entry_of_settled r :
  settled r ->
  (success (entry_of r) = false -> entry_of r = mkServiceResult false None)
  /\ (success (entry_of r) = true -> exists u, archived_url (entry_of r) = Some u).
Proof.
  destruct r as [[] [u|]]; cbn; try contradiction; intros _; split;
    try discriminate; eauto.
Qed.

Lemma results_lookup a b service (r : ServiceResult) :
  (<["archive_today" := entry_of b]> (<["wayback_machine" := entry_of a]> ∅)
     : gmap string ServiceResult) !! service = Some r ->
  r = entry_of a \/ r = entry_of b.
Proof.
  intros H. destruct (decide (service = "archive_today")) as [->|Hne].
  - rewrite lookup_insert_eq in H. injection H as <-. now right.
  - rewrite lookup_insert_ne in H by congruence.
    destruct (decide (service = "wayback_machine")) as [->|Hne'].
    + rewrite lookup_insert_eq in H. injection H as <-. now left.
    + rewrite lookup_insert_ne, lookup_empty in H by congruence. discriminate.
Qed.

(** C2. For every URL and whatever the network does, [archive_url] returns
    (it does not raise) a mapping whose keys are exactly [wayback_machine] and
    [archive_today], and the value of a service that failed is
    [{success: false, archived_url: null}]. *)
Theorem archive_url_both_services (url : string) (w : World) :
  exists results w',
    archive_url url w = (Ok results, w')
    /\ dom results = ({["wayback_machine"; "archive_today"]} : gset string)
    /\ (forall service r,
          results !! service = Some r -> success r = false ->
          r = mkServiceResult false None).
Proof.
  destruct (archive_url_returns url w) as [results [w' [E [a [b [Sa [Sb ->]]]]]]].
  eexists _, w'. split; [exact E|]. split.
  - rewrite !dom_insert_L, dom_empty_L. set_solver.
  - intros service r Hr Hfail.
    destruct (results_lookup _ _ _ _ Hr) as [-> | ->];
      now apply entry_of_settled.
Qed.

(** C10. In every mapping that [archive_url] returns, a service result with
    [success = false] has [archived_url = null] and one with [success = true]
    has a string as [archived_url]. *)
Theorem archive_url_result_shape (url : string) (w w' : World)
  (results : gmap string ServiceResult) (service : string) (r : ServiceResult) :
  archive_url url w = (Ok results, w') ->
  results !! service = Some r ->
  (success r = false -> archived_url r = None)
  /\ (success r = true -> exists u, archived_url r = Some u).
Proof.
  intros E Hr.
  destruct (archive_url_returns url w) as [results' [w'' [E' [a [b [Sa [Sb ->]]]]]]].
  rewrite E in E'. injection E' as -> ->.
  destruct (results_lookup _ _ _ _ Hr) as [-> | ->].
  - destruct (entry_of_settled a Sa) as [Hf Ht]. split; [|exact Ht].
    intros H. now rewrite (Hf H).
  - destruct (entry_of_settled b Sb) as [Hf Ht]. split; [|exact Ht].
    intros H. now rewrite (Hf H).
Qed.

Lemma for_each_continue {A R} (body : A -> M (option R)) x xs after w w' :
  body x w = (Ok None, w') ->
  for_each body (x :: xs) after w = for_each body xs after w'.
Proof. intros E. simpl. unfold bind. now rewrite E. Qed.

Lemma for_each_return {A R} (body : A -> M (option R)) x xs after w w' v :
  body x w = (Ok (Some v), w') ->
  for_each body (x :: xs) after w = (Ok v, w').
Proof. intros E. simpl. unfold bind. now rewrite E. Qed.

Lemma wayback_attempt_429 url max_retries attempt w response :
  net w (sent w) = Responds response -> status_code response = 429 ->
  wayback_attempt url max_retries attempt w
  = (Ok None,
     record (Sleep (2 ^ attempt))
       (count_request (record (Get (wayback_endpoint url)) w))).
Proof.
  intros Hnet Hstatus.
  unfold wayback_attempt, try_except_RequestException, bind, request.
  rewrite Hnet, Hstatus. reflexivity.
Qed.

Lemma wayback_attempt_fails_fast url max_retries attempt w response :
  net w (sent w) = Responds response ->
  status_code response <> 200 -> status_code response <> 429 ->
  wayback_attempt url max_retries attempt w
  = (Ok (Some (false, None)),
     count_request (record (Get (wayback_endpoint url)) w)).
Proof.
  intros Hnet H200 H429.
  unfold wayback_attempt, try_except_RequestException, bind, request.
  rewrite Hnet.
  destruct (Z.eqb_spec (status_code response) 200); [contradiction|].
  destruct (Z.eqb_spec (status_code response) 429); [contradiction|].
  reflexivity.
Qed.

(** C3. With the default bound of 3 attempts, when each of the three GETs to
    the snapshot endpoint is answered with HTTP 429, [archive_url_wayback]
    returns [(False, None)] after exactly 3 requests, with a pause of
    [2 ** attempt] seconds after each of them, so before each retry; and a
    response whose status is neither 200 nor 429 makes the round that receives
    it return [(False, None)] at once, with no further request. *)
Theorem archive_url_wayback_retries (url : string) (w : World)
  (w2 : World) (response : Response) (attempt : Z) (rest : list Z) :
  (forall k, (k < 3)%nat ->
             exists r, net w (sent w + k)%nat = Responds r /\ status_code r = 429) ->
  net w2 (sent w2) = Responds response ->
  status_code response <> 200 -> status_code response <> 429 ->
  (exists w',
      archive_url_wayback url 3 w = (Ok (false, None), w')
      /\ trace w' = trace w ++ [Get (wayback_endpoint url); Sleep (2 ^ 0);
                                Get (wayback_endpoint url); Sleep (2 ^ 1);
                                Get (wayback_endpoint url); Sleep (2 ^ 2)]
      /\ sent w' = (sent w + 3)%nat)
  /\ for_each (wayback_attempt url 3) (attempt :: rest) (ret (false, None)) w2
     = (Ok (false, None), count_request (record (Get (wayback_endpoint url)) w2)).
Proof.
  intros H429 Hnet Hn200 Hn429. split.
  - destruct (H429 0%nat ltac:(lia)) as [r0 [N0 S0]].
    destruct (H429 1%nat ltac:(lia)) as [r1 [N1 S1]].
    destruct (H429 2%nat ltac:(lia)) as [r2 [N2 S2]].
    rewrite Nat.add_0_r in N0. rewrite Nat.add_1_r in N1.
    replace (sent w + 2)%nat with (S (S (sent w))) in N2 by lia.
    unfold archive_url_wayback. change (range 3) with [0; 1; 2].
    erewrite for_each_continue by (eapply wayback_attempt_429; eassumption).
    erewrite for_each_continue by (eapply wayback_attempt_429; eassumption).
    erewrite for_each_continue by (eapply wayback_attempt_429; eassumption).
    eexists. split; [reflexivity|]. cbn. split.
    + rewrite <- !app_assoc. reflexivity.
    + lia.
  - eapply for_each_return. now apply (wayback_attempt_fails_fast _ _ _ _ response).
Qed.

Lemma archive_url_wayback_retries_witness :
  (exists w',
      archive_url_wayback "https://example.com" 3
        (world_answering (Responds rate_limited)) = (Ok (false, None), w')
      /\ trace w' = [] ++ [Get (wayback_endpoint "https://example.com"); Sleep (2 ^ 0);
                           Get (wayback_endpoint "https://example.com"); Sleep (2 ^ 1);
                           Get (wayback_endpoint "https://example.com"); Sleep (2 ^ 2)]
      /\ sent w' = (0 + 3)%nat)
  /\ for_each (wayback_attempt "https://example.com" 3) [1; 2] (ret (false, None))
       (world_answering (Responds not_found))
     = (Ok (false, None),
        count_request (record (Get (wayback_endpoint "https://example.com"))
                         (world_answering (Responds not_found)))).
Proof.
  apply (archive_url_wayback_retries "https://example.com"
           (world_answering (Responds rate_limited))
           (world_answering (Responds not_found)) not_found 1 [2]).
  - intros k _. exists rate_limited. split; reflexivity.
  - reflexivity.
  - discriminate.
  - discriminate.
Defined.

Lemma archive_url_result_shape_witness :
  let w := world_answering (Responds archived_ok) in
  let r := mkServiceResult true (Some "https://archive.today/https://example.com") in
  (success r = false -> archived_url r = None)
  /\ (success r = true -> exists u, archived_url r = Some u).
Proof.
  intros w r.
  apply (archive_url_result_shape "https://example.com" w
           (snd (archive_url "https://example.com" w))
           (<["archive_today" := r]>
              (<["wayback_machine" :=
                   mkServiceResult true (Some (resp_url archived_ok))]> ∅))
           "archive_today" r).
  - vm_compute. reflexivity.
  - vm_compute. reflexivity.
Defined.

Lemma archive_today_attempt_200 url max_retries attempt w cookie response :
  net w (sent w) = Responds cookie ->
  net w (S (sent w)) = Responds response ->
  status_code response = 200 ->
  archive_today_attempt url max_retries attempt w
  = (Ok (Some (true, Some (archive_today_location url response))),
     count_request (record (Post archive_endpoint ("url=" +:+ quote url))
       (count_request (record (Get "https://archive.today/") w)))).
Proof.
  intros Hcookie Hsubmit Hstatus.
  unfold archive_today_attempt, try_except_RequestException, bind, request.
  rewrite Hcookie. cbn [sent count_request record net]. rewrite Hsubmit, Hstatus.
  cbn [Z.eqb Pos.eqb]. unfold archive_today_location.
  destruct (on_archive_today (resp_url response)); [reflexivity|].
  destruct (first_href _ (anchors response)); [reflexivity|].
  destruct (if Str.contains "already been saved" (text response)
            then first_href _ (anchors response) else None); reflexivity.
Qed.

Lemma first_href_none (test test' : string -> bool) hrefs :
  (forall h, test h = true -> test' h = true) ->
  existsb (fun href => match href with
                       | Some h => test' h
                       | None => false
                       end) hrefs = false ->
  first_href test hrefs = None.
Proof.
  intros Himp Hnone. unfold first_href.
  destruct (find _ hrefs) as [href|] eqn:F; [|reflexivity].
  apply find_some in F as [Hin Htest]. destruct href as [h|]; [|discriminate].
  apply andb_prop in Htest as [_ Htest].
  assert (existsb (fun href => match href with
                               | Some h => test' h
                               | None => false
                               end) hrefs = true) as E.
  { apply existsb_exists. exists (Some h). split; [assumption|]. now apply Himp. }
  rewrite E in Hnone. discriminate.
Qed.

(** C4 (amended). On every submit response with HTTP status 200,
    [archive_url_archive_today] reports success; the three conditions only
    choose the archived URL that goes with it (the final URL when it is on the
    service's domain, else the first anchor on that domain that contains the
    target, else, for a body that says the link was already saved, the first
    root-relative anchor of more than two characters), and when none of them
    holds the URL is made up as [https://archive.today/<url>]. *)
Theorem archive_url_archive_today_200 (url : string) (max_retries attempt : Z)
  (rest : list Z) (w : World) (cookie response : Response) :
  net w (sent w) = Responds cookie ->
  net w (S (sent w)) = Responds response ->
  status_code response = 200 ->
  for_each (archive_today_attempt url max_retries) (attempt :: rest)
           (ret (false, None)) w
  = (Ok (true, Some (archive_today_location url response)),
     count_request (record (Post archive_endpoint ("url=" +:+ quote url))
       (count_request (record (Get "https://archive.today/") w))))
  /\ (final_url_on_service response = false ->
      anchor_on_service url response = false ->
      already_saved_anchor response = false ->
      archive_today_location url response = "https://archive.today/" +:+ url).
Proof.
  intros Hcookie Hsubmit Hstatus. split.
  - eapply for_each_return. now apply (archive_today_attempt_200 _ _ _ _ cookie).
  - unfold final_url_on_service, anchor_on_service, already_saved_anchor,
      archive_today_location.
    intros -> Hanchor Hsaved.
    rewrite (first_href_none _ _ _ (fun h H => H) Hanchor).
    destruct (Str.contains "already been saved" (text response)); [|reflexivity].
    cbn [andb] in Hsaved.
    rewrite (first_href_none _ (fun h => Str.startswith "/" h) _
               (fun h H => proj1 (andb_prop _ _ H)) Hsaved).
    reflexivity.
Qed.

Lemma archive_url_archive_today_200_witness :
  let w := world_answering (Responds landing_page) in
  for_each (archive_today_attempt "https://example.com" 3) [0; 1; 2]
           (ret (false, None)) w
  = (Ok (true, Some (archive_today_location "https://example.com" landing_page)),
     count_request
       (record (Post archive_endpoint ("url=" +:+ quote "https://example.com"))
          (count_request (record (Get "https://archive.today/") w))))
  /\ (final_url_on_service landing_page = false ->
      anchor_on_service "https://example.com" landing_page = false ->
      already_saved_anchor landing_page = false ->
      archive_today_location "https://example.com" landing_page
      = "https://archive.today/" +:+ "https://example.com").
Proof.
  intros w.
  apply (archive_url_archive_today_200 "https://example.com" 3 0 [1; 2] w
           landing_page landing_page);
    reflexivity.
Defined.

(** C4 as stated fails: a submit response with status 200 whose final URL is
    not on the service's domain, with no anchor at all and no word of an
    earlier save, is reported as a success. *)
Lemma archive_url_archive_today_any_200 :
  let w := world_answering (Responds landing_page) in
  status_code landing_page = 200
  /\ final_url_on_service landing_page = false
  /\ anchor_on_service "https://example.com" landing_page = false
  /\ already_saved_anchor landing_page = false
  /\ fst (archive_url_archive_today "https://example.com" 3 w)
     = Ok (true, Some "https://archive.today/https://example.com").
Proof. intros w. repeat split. Qed.

End ServiceProperties.

(** ** The orchestrator *)

Section OrchestratorProperties.
Import Services Orchestrator Outcomes Invariants.

Lemma bind_Ok {A B} (c : M A) (k : A -> M B) w b w' :
  bind c k w = (Ok b, w') ->
  exists a w1, c w = (Ok a, w1) /\ k a w1 = (Ok b, w').
Proof.
  unfold bind. destruct (c w) as [[a|e] w1]; [|discriminate].
  intros H. now exists a, w1.
Qed.

Lemma emits_ret {A} P (a : A) : emits P (ret a).
Proof. intros w r w' [= <- <-]. exists []. now rewrite app_nil_r. Qed.

Lemma emits_raise {A} P e : emits P (@raise A e).
Proof. intros w r w' [= <- <-]. exists []. now rewrite app_nil_r. Qed.

Lemma emits_bind {A B} P (c : M A) (k : A -> M B) :
  emits P c -> (forall a, emits P (k a)) -> emits P (bind c k).
Proof.
  intros Hc Hk w r w'. unfold bind.
  destruct (c w) as [[a|e] w1] eqn:E; intros H.
  - destruct (Hc _ _ _ E) as [t1 [T1 F1]].
    destruct (Hk a _ _ _ H) as [t2 [T2 F2]].
    exists (t1 ++ t2). rewrite T2, T1, app_assoc. split; [reflexivity|].
    now apply Forall_app.
  - injection H as <- <-. exact (Hc _ _ _ E).
Qed.

Lemma emits_effect P e : P e -> emits P (effect e).
Proof. intros H w r w' [= <- <-]. exists [e]. split; [reflexivity|]. now constructor. Qed.

Lemma emits_request P e : P e -> emits P (request e).
Proof.
  intros H w r w'. unfold request.
  destruct (net w (sent w)); intros [= <- <-];
    (exists [e]; split; [reflexivity | now constructor]).
Qed.

Lemma emits_try {A} P (body handler : M A) :
  emits P body -> emits P handler ->
  emits P (try_except_RequestException body handler).
Proof.
  intros Hb Hh w r w'. unfold try_except_RequestException.
  destruct (body w) as [[a|e] w1] eqn:E.
  - intros [= <- <-]. exact (Hb _ _ _ E).
  - destruct (Hb _ _ _ E) as [t1 [T1 F1]].
    assert (Hother : (Raise e, w1) = (r, w') ->
                     exists t, trace w' = trace w ++ t /\ Forall P t).
    { intros [= <- <-]. eauto. }
    destruct e; try exact Hother.
    intros H. destruct (Hh _ _ _ H) as [t2 [T2 F2]].
    exists (t1 ++ t2). rewrite T2, T1, app_assoc. split; [reflexivity|].
    now apply Forall_app.
Qed.

Lemma emits_for_each {A R} P (body : A -> M (option R)) xs after :
  (forall x, emits P (body x)) -> emits P after ->
  emits P (for_each body xs after).
Proof.
  intros Hb Ha. induction xs as [|x xs IH]; simpl; [exact Ha|].
  apply emits_bind; [apply Hb|]. intros [v|]; [apply emits_ret | exact IH].
Qed.

Lemma emits_silent {A} P (c : M A) :
  (forall w r w', c w = (r, w') -> trace w' = trace w) -> emits P c.
Proof.
  intros H w r w' E. exists []. rewrite app_nil_r. split; [eauto | constructor].
Qed.

Ltac emits_step :=
  match goal with
  | |- emits _ (ret _) => apply emits_ret
  | |- emits _ (raise _) => apply emits_raise
  | |- emits _ (bind _ _) => apply emits_bind; [|intros ?]
  | |- emits _ (effect _) => apply emits_effect
  | |- emits _ (sleep _) => apply emits_effect
  | |- emits _ (sleep_uniform _ _) => apply emits_effect
  | |- emits _ (request _) => apply emits_request
  | |- emits _ (try_except_RequestException _ _) => apply emits_try
  | |- emits _ (for_each _ _ _) => apply emits_for_each; [intros ?|]
  | |- emits _ (if ?b then _ else _) => destruct b
  | |- emits _ (match ?x with _ => _ end) => destruct x
  end.

Lemma archive_url_wayback_emits P url max_retries :
  (forall u, P (Get u)) -> (forall n, P (Sleep n)) ->
  emits P (archive_url_wayback url max_retries).
Proof.
  intros HGet HSleep. unfold archive_url_wayback, wayback_attempt.
  repeat emits_step; auto.
Qed.

Lemma archive_url_archive_today_emits P url max_retries :
  (forall u, P (Get u)) -> (forall u d, P (Post u d)) -> (forall n, P (Sleep n)) ->
  emits P (archive_url_archive_today url max_retries).
Proof.
  intros HGet HPost HSleep. unfold archive_url_archive_today, archive_today_attempt.
  repeat emits_step; auto.
Qed.

(** a call of [archive_url] on another link leaves no call on [url] in the
    trace *)
Lemma archive_url_emits url link :
  link <> url -> emits (fun e => e <> Call_archive_url url) (archive_url link).
Proof.
  intros Hne. unfold archive_url.
  apply emits_bind; [apply emits_effect; congruence | intros _].
  apply emits_bind; [apply emits_effect; discriminate | intros _].
  apply emits_bind;
    [apply archive_url_wayback_emits; intros; discriminate | intros [b1 o1]].
  apply emits_bind; [apply emits_effect; discriminate | intros _].
  apply emits_bind;
    [apply archive_url_archive_today_emits; intros; discriminate | intros [b2 o2]].
  apply emits_ret.
Qed.

Lemma save_log_silent doc w r w' : save_log doc w = (r, w') -> trace w' = trace w.
Proof.
  unfold save_log.
  destruct (disk w !! LOG_DIR) as [[|c]|]; try (intros [= <- <-]; reflexivity).
  destruct (disk w !! LOG_FILE) as [[|c]|]; intros [= <- <-]; reflexivity.
Qed.

Lemma utcnow_isoformat_silent w r w' :
  utcnow_isoformat w = (r, w') -> trace w' = trace w.
Proof. intros [= <- <-]. reflexivity. Qed.

Lemma already_archived_true log_data url entry :
  archived_links log_data !! url = Some entry -> archived entry ->
  already_archived log_data url = true.
Proof.
  intros Hentry [service [r [Hr Hsuccess]]]. unfold already_archived.
  rewrite Hentry. apply existsb_exists. exists (service, r).
  split; [|exact Hsuccess].
  apply list_elem_of_In, elem_of_map_to_list, Hr.
Qed.

Lemma merge_other file_path link timestamp archive_results log_data url :
  link <> url ->
  archived_links (merge file_path link timestamp archive_results log_data) !! url
  = archived_links log_data !! url.
Proof.
  intros Hne. unfold merge.
  destruct (archived_links log_data !! link); cbn; now rewrite lookup_insert_ne.
Qed.

(** what one round of the loop does, seen from an archived [url] *)
Lemma process_link_keeps url entry file_path link log_data w r w' :
  archived_links log_data !! url = Some entry -> archived entry ->
  process_link file_path link log_data w = (r, w') ->
  (exists t, trace w' = trace w ++ t
             /\ Forall (fun e => e <> Call_archive_url url) t)
  /\ (forall log_data', r = Ok log_data' ->
                        archived_links log_data' !! url = Some entry).
Proof.
  intros Hentry Harchived. unfold process_link.
  destruct (decide (link = url)) as [->|Hne].
  - rewrite (already_archived_true _ _ _ Hentry Harchived).
    intros [= <- <-]. split.
    + exists []. now rewrite app_nil_r.
    + now intros log_data' [= <-].
  - destruct (already_archived log_data link).
    { intros [= <- <-]. split.
      + exists []. now rewrite app_nil_r.
      + now intros log_data' [= <-]. }
    intros H. split.
    + revert H. generalize w r w'.
      change (emits (fun e => e <> Call_archive_url url)
                (do archive_results <- archive_url link;
                 do timestamp <- utcnow_isoformat;
                 do_ save_log (encode_log
                      (merge file_path link timestamp archive_results log_data));
                 do_ sleep 1;
                 ret (merge file_path link timestamp archive_results log_data))).
      apply emits_bind; [now apply archive_url_emits | intros results].
      apply emits_bind;
        [apply emits_silent, utcnow_isoformat_silent | intros timestamp].
      apply emits_bind; [apply emits_silent, save_log_silent | intros _].
      apply emits_bind; [apply emits_effect; discriminate | intros _].
      apply emits_ret.
    + intros log_data' ->.
      apply bind_Ok in H as [results [w1 [_ H]]].
      apply bind_Ok in H as [timestamp [w2 [_ H]]].
      apply bind_Ok in H as [[] [w3 [_ H]]].
      apply bind_Ok in H as [[] [w4 [_ H]]].
      injection H as <- <-. now rewrite merge_other.
Qed.

Lemma process_links_keeps url entry file_path links :
  forall log_data w r w',
    archived_links log_data !! url = Some entry -> archived entry ->
    process_links file_path links log_data w = (r, w') ->
    (exists t, trace w' = trace w ++ t
               /\ Forall (fun e => e <> Call_archive_url url) t)
    /\ (forall log_data', r = Ok log_data' ->
                          archived_links log_data' !! url = Some entry).
Proof.
  induction links as [|link links IH]; intros log_data w r w' Hentry Harchived.
  - intros [= <- <-]. split.
    + exists []. now rewrite app_nil_r.
    + now intros log_data' [= <-].
  - simpl. unfold bind.
    destruct (process_link file_path link log_data w) as [[log1|e] w1] eqn:E.
    + destruct (process_link_keeps _ _ _ _ _ _ _ _ Hentry Harchived E)
        as [[t1 [T1 F1]] K1].
      intros H. destruct (IH _ _ _ _ (K1 _ eq_refl) Harchived H) as [[t2 [T2 F2]] K2].
      split; [|exact K2].
      exists (t1 ++ t2). rewrite T2, T1, app_assoc. split; [reflexivity|].
      now apply Forall_app.
    + intros [= <- <-].
      destruct (process_link_keeps _ _ _ _ _ _ _ _ Hentry Harchived E) as [T _].
      split; [exact T | discriminate].
Qed.

Lemma process_files_keeps url entry all_files_links :
  forall log_data w r w',
    archived_links log_data !! url = Some entry -> archived entry ->
    process_files all_files_links log_data w = (r, w') ->
    (exists t, trace w' = trace w ++ t
               /\ Forall (fun e => e <> Call_archive_url url) t)
    /\ (forall log_data', r = Ok log_data' ->
                          archived_links log_data' !! url = Some entry).
Proof.
  induction all_files_links as [|[file_path links] rest IH];
    intros log_data w r w' Hentry Harchived.
  - intros [= <- <-]. split.
    + exists []. now rewrite app_nil_r.
    + now intros log_data' [= <-].
  - simpl. unfold bind.
    destruct (process_links file_path links log_data w) as [[log1|e] w1] eqn:E.
    + destruct (process_links_keeps _ _ _ _ _ _ _ _ Hentry Harchived E)
        as [[t1 [T1 F1]] K1].
      intros H. destruct (IH _ _ _ _ (K1 _ eq_refl) Harchived H) as [[t2 [T2 F2]] K2].
      split; [|exact K2].
      exists (t1 ++ t2). rewrite T2, T1, app_assoc. split; [reflexivity|].
      now apply Forall_app.
    + intros [= <- <-].
      destruct (process_links_keeps _ _ _ _ _ _ _ _ Hentry Harchived E) as [T _].
      split; [exact T | discriminate].
Qed.

(** C1. When the log already has a record for [url] with a service result
    marked [success: true], the round of the main loop for [url] is skipped
    without any effect, and a whole run of the loop neither calls
    [archive_url] on [url] nor changes the record of [url]. *)
Theorem archived_link_is_skipped (url : string) (entry : LinkRecord)
  (log_data : LogData) (file_path : string)
  (all_files_links : list (string * list string)) (w : World) :
  archived_links log_data !! url = Some entry ->
  archived entry ->
  process_link file_path url log_data w = (Ok log_data, w)
  /\ (forall r w',
        process_files all_files_links log_data w = (r, w') ->
        (exists t, trace w' = trace w ++ t /\ ~ In (Call_archive_url url) t)
        /\ (forall log_data', r = Ok log_data' ->
                              archived_links log_data' !! url = Some entry)).
Proof.
  intros Hentry Harchived. split.
  - unfold process_link.
    now rewrite (already_archived_true _ _ _ Hentry Harchived).
  - intros r w' H.
    destruct (process_files_keeps _ _ _ _ _ _ _ Hentry Harchived H)
      as [[t [T F]] K].
    split; [|exact K]. exists t. split; [exact T|].
    intros Hin. rewrite List.Forall_forall in F. now apply (F _ Hin).
Qed.

(** C7. When the query of the repository fails (no repository, no parent
    commit, any other exception) [get_changed_yaml_files] returns the empty
    set, and [main] then works on all the extracted files: the filter keeps
    every file. *)
Theorem get_changed_yaml_files_failure (git : git_query)
  (walk : list (string * list string)) (parse : string -> Extract.loaded)
  (all_files_links : list (string * list string)) :
  git = NoRepository \/ git = NoParentCommit \/ git = OtherException ->
  get_changed_yaml_files git = ∅
  /\ restrict_to_changed (get_changed_yaml_files git) all_files_links
     = all_files_links
  /\ main walk parse git = main_unfiltered walk parse.
Proof.
  intros [-> | [-> | ->]]; repeat split; reflexivity.
Qed.

Lemma get_changed_yaml_files_failure_witness :
  let walk := [(".", ["a.yaml"])] in
  let parse := fun _ : string => Extract.YAMLError in
  get_changed_yaml_files NoParentCommit = ∅
  /\ restrict_to_changed (get_changed_yaml_files NoParentCommit)
       [("./a.yaml", ["https://example.com"])]
     = [("./a.yaml", ["https://example.com"])]
  /\ main walk parse NoParentCommit = main_unfiltered walk parse.
Proof.
  intros walk parse.
  apply (get_changed_yaml_files_failure NoParentCommit walk parse).
  right; left; reflexivity.
Defined.

Lemma merge_files_unique file_path link timestamp archive_results log_data :
  files_unique log_data ->
  files_unique (merge file_path link timestamp archive_results log_data).
Proof.
  intros Hinv l e. unfold merge.
  destruct (archived_links log_data !! link) as [entry|] eqn:E; cbn.
  - destruct (decide (link = l)) as [->|Hne].
    + rewrite lookup_insert_eq. intros [= <-]. cbn.
      pose proof (Hinv _ _ E) as Hnodup. case_bool_decide as Hin; [exact Hnodup|].
      apply NoDup_app. split; [exact Hnodup|]. split.
      * intros x Hx Hx'. apply list_elem_of_singleton in Hx'. now subst.
      * apply NoDup_singleton.
    + rewrite lookup_insert_ne by exact Hne. apply Hinv.
  - destruct (decide (link = l)) as [->|Hne].
    + rewrite lookup_insert_eq. intros [= <-]. cbn. apply NoDup_singleton.
    + rewrite lookup_insert_ne by exact Hne. apply Hinv.
Qed.

Lemma process_link_files_unique file_path link log_data w log_data' w' :
  files_unique log_data ->
  process_link file_path link log_data w = (Ok log_data', w') ->
  files_unique log_data'.
Proof.
  intros Hinv. unfold process_link. destruct (already_archived log_data link).
  - now intros [= <- <-].
  - intros H.
    apply bind_Ok in H as [results [w1 [_ H]]].
    apply bind_Ok in H as [timestamp [w2 [_ H]]].
    apply bind_Ok in H as [[] [w3 [_ H]]].
    apply bind_Ok in H as [[] [w4 [_ H]]].
    injection H as <- <-. now apply merge_files_unique.
Qed.

Lemma process_links_files_unique file_path links :
  forall log_data w log_data' w',
    files_unique log_data ->
    process_links file_path links log_data w = (Ok log_data', w') ->
    files_unique log_data'.
Proof.
  induction links as [|link links IH]; intros log_data w log_data' w' Hinv H.
  - now injection H as <- <-.
  - simpl in H. apply bind_Ok in H as [log1 [w1 [E H]]].
    eapply IH; [|exact H]. eapply process_link_files_unique; eauto.
Qed.

Lemma process_files_files_unique all_files_links :
  forall log_data w log_data' w',
    files_unique log_data ->
    process_files all_files_links log_data w = (Ok log_data', w') ->
    files_unique log_data'.
Proof.
  induction all_files_links as [|[file_path links] rest IH];
    intros log_data w log_data' w' Hinv H.
  - now injection H as <- <-.
  - simpl in H. apply bind_Ok in H as [log1 [w1 [E H]]].
    eapply IH; [|exact H]. eapply process_links_files_unique; eauto.
Qed.

(** C9. When no record of the log lists a path twice, the same holds after
    every merge step (the path is appended only when the record does not list
    it yet) and after every run of the main loop; the empty log, from which
    the first run starts, lists nothing twice. *)
Theorem files_stay_unique (log_data : LogData) (file_path link timestamp : string)
  (archive_results : gmap string ServiceResult) :
  files_unique log_data ->
  files_unique (mkLogData ∅)
  /\ files_unique (merge file_path link timestamp archive_results log_data)
  /\ (forall entry,
        archived_links log_data !! link = Some entry ->
        exists entry',
          archived_links (merge file_path link timestamp archive_results log_data)
            !! link = Some entry'
          /\ files entry' = if bool_decide (file_path ∈ files entry)
                            then files entry else files entry ++ [file_path])
  /\ (forall all_files_links w log_data' w',
        process_files all_files_links log_data w = (Ok log_data', w') ->
        files_unique log_data').
Proof.
  intros Hinv. split; [|split; [|split]].
  - intros l e. cbn. now rewrite lookup_empty.
  - now apply merge_files_unique.
  - intros entry E. unfold merge. rewrite E. cbn. rewrite lookup_insert_eq.
    eexists. split; reflexivity.
  - intros all_files_links w log_data' w'. now apply process_files_files_unique.
Qed.

Lemma archived_link_is_skipped_witness :
  let url := "https://example.com" in
  let w := world_answering (Responds not_found) in
  let all_files_links :=
    [("./a.yaml", [url; "https://example.org/x"]); ("./b.yml", [url])] in
  process_link "./b.yml" url one_record_log w = (Ok one_record_log, w)
  /\ (forall r w',
        process_files all_files_links one_record_log w = (r, w') ->
        (exists t, trace w' = trace w ++ t /\ ~ In (Call_archive_url url) t)
        /\ (forall log_data', r = Ok log_data' ->
                              archived_links log_data' !! url = Some archived_entry)).
Proof.
  intros url w all_files_links.
  apply (archived_link_is_skipped url archived_entry one_record_log "./b.yml"
           all_files_links w).
  - reflexivity.
  - exists "wayback_machine", (mkServiceResult true
             (Some "https://web.archive.org/web/2024/https://example.com")).
    split; reflexivity.
Defined.

Lemma one_record_log_files_unique : files_unique one_record_log.
Proof.
  intros l e H. cbn in H.
  apply lookup_insert_Some in H as [[_ <-] | [_ H]].
  - apply NoDup_singleton.
  - now rewrite lookup_empty in H.
Defined.

Lemma files_stay_unique_witness :
  let link := "https://example.com" in
  let merged :=
    merge "./a.yaml" link "2024-02-02T00:00:00"
      (<["wayback_machine" := mkServiceResult false None]> ∅) one_record_log in
  files_unique (mkLogData ∅)
  /\ files_unique merged
  /\ (forall entry,
        archived_links one_record_log !! link = Some entry ->
        exists entry',
          archived_links merged !! link = Some entry'
          /\ files entry' = if bool_decide ("./a.yaml" ∈ files entry)
                            then files entry else files entry ++ ["./a.yaml"])
  /\ (forall all_files_links w log_data' w',
        process_files all_files_links one_record_log w = (Ok log_data', w') ->
        files_unique log_data').
Proof.
  intros link merged.
  apply (files_stay_unique one_record_log "./a.yaml" link "2024-02-02T00:00:00"
           (<["wayback_machine" := mkServiceResult false None]> ∅)).
  exact one_record_log_files_unique.
Defined.

End OrchestratorProperties.

(** ** The log file *)

Section JsonProperties.
Import Json.

#[local] Arguments String.append !s1 s2 : simpl nomatch.

Lemma append_assoc (a b c : string) : (a +:+ b) +:+ c = a +:+ (b +:+ c).
Proof. induction a as [|x a IH]; simpl; [reflexivity | f_equal; exact IH]. Qed.

Lemma append_nil_r (a : string) : a +:+ EmptyString = a.
Proof. induction a as [|x a IH]; simpl; [reflexivity | f_equal; exact IH]. Qed.

Lemma length_append (a b : string) :
  String.length (a +:+ b) = (String.length a + String.length b)%nat.
Proof. induction a as [|x a IH]; simpl; [reflexivity | f_equal; exact IH]. Qed.

Lemma skip_ws_spaces n s : skip_ws (spaces n +:+ s) = skip_ws s.
Proof. induction n as [|n IH]; simpl; [reflexivity | exact IH]. Qed.

Lemma skip_ws_newline_indent level s :
  skip_ws (newline_indent level +:+ s) = skip_ws s.
Proof. unfold newline_indent. simpl String.append. cbn [skip_ws is_ws]. apply skip_ws_spaces. Qed.

Lemma dumps_head level v rest :
  exists c r, dumps level v +:+ rest = String c r /\ value_start c.
Proof.
  unfold value_start.
  destruct v as [|[]|s|[|x l]|[|kv ms]]; simpl; eexists _, _; split;
    try reflexivity; tauto.
Qed.

Lemma skip_ws_value c r : value_start c -> skip_ws (String c r) = String c r.
Proof. intros [->|[->|[->|[->|[->| ->]]]]]; reflexivity. Qed.

Lemma skip_ws_dumps level v rest :
  skip_ws (dumps level v +:+ rest) = dumps level v +:+ rest.
Proof.
  destruct (dumps_head level v rest) as [c [r [-> H]]]. now apply skip_ws_value.
Qed.

Lemma parse_chars_escape_char c r :
  parse_chars (escape_char c +:+ r) = cons_char c (parse_chars r).
Proof.
  destruct c as [[] [] [] [] [] [] [] []]; reflexivity.
Qed.

Lemma parse_chars_escape s rest :
  parse_chars (escape s +:+ String dquote rest) = Some (s, rest).
Proof.
  induction s as [|c s IH]; [reflexivity|].
  change (escape (String c s)) with (escape_char c +:+ escape s).
  rewrite append_assoc, parse_chars_escape_char, IH. reflexivity.
Qed.

Lemma value_start_not_closing c :
  value_start c -> Ascii.eqb c "]" = false /\ Ascii.eqb c "}" = false.
Proof. intros [->|[->|[->|[->|[->| ->]]]]]; split; reflexivity. Qed.

Lemma parse_value_str fuel s rest :
  parse_value (S fuel) (quoted s +:+ rest) = Some (JStr s, rest).
Proof.
  unfold quoted. simpl String.append. cbn [parse_value].
  change (Ascii.eqb dquote dquote) with true. cbn iota.
  rewrite append_assoc. simpl String.append.
  now rewrite parse_chars_escape.
Qed.

Lemma size_pos v : (1 <= size v)%nat.
Proof. destruct v; simpl; lia. Qed.

Lemma length_le_sum {A} (g : A -> nat) (l : list A) :
  (forall x, 1 <= g x)%nat -> (length l <= list_sum (map g l))%nat.
Proof.
  intros Hg. induction l as [|x l IH]; simpl; [lia|].
  pose proof (Hg x). lia.
Qed.

Lemma le_list_sum {A} (g : A -> nat) (l : list A) x :
  In x l -> (g x <= list_sum (map g l))%nat.
Proof.
  induction l as [|y l IH]; simpl; [contradiction|].
  intros [->|Hin]; [lia|]. specialize (IH Hin). lia.
Qed.

Lemma append_cons c a b : String c a +:+ b = String c (a +:+ b).
Proof. reflexivity. Qed.

Lemma append_nil_l b : EmptyString +:+ b = b.
Proof. reflexivity. Qed.

Lemma items_tail_cons dump level y l :
  items_tail dump level (y :: l)
  = String "," (newline_indent (S level) +:+ dump y +:+ items_tail dump level l).
Proof. reflexivity. Qed.

Lemma members_tail_cons dump level k v l :
  members_tail dump level ((k, v) :: l)
  = String "," (newline_indent (S level) +:+ quoted k +:+ ": " +:+ dump v
                +:+ members_tail dump level l).
Proof. reflexivity. Qed.

Lemma skip_ws_quoted k rest : skip_ws (quoted k +:+ rest) = quoted k +:+ rest.
Proof. reflexivity. Qed.

Section Elements.
Variable pv : string -> option (json * string).
Variable level : nat.

Lemma parse_elements_step fuel s v r :
  pv s = Some (v, r) ->
  parse_elements pv (S fuel) s
  = match skip_ws r with
    | String c rest' =>
        if Ascii.eqb c "," then
          match parse_elements pv fuel (skip_ws rest') with
          | Some (vs, rest'') => Some (v :: vs, rest'')
          | None => None
          end
        else if Ascii.eqb c "]" then Some ([v], rest')
        else None
    | EmptyString => None
    end.
Proof. intros E. cbn [parse_elements]. now rewrite E. Qed.

Lemma parse_elements_dumps xs :
  forall x fuel rest,
    (forall y, In y (x :: xs) ->
               forall r, pv (dumps (S level) y +:+ r) = Some (y, r)) ->
    (length (x :: xs) <= fuel)%nat ->
    parse_elements pv fuel
      (dumps (S level) x +:+ items_tail (dumps (S level)) level xs +:+ rest)
    = Some (x :: xs, rest).
Proof.
  induction xs as [|y xs IH]; intros x fuel rest Hpv Hfuel;
    (destruct fuel as [|fuel]; [simpl in Hfuel; lia|]);
    rewrite (parse_elements_step _ _ _ _ (Hpv x (or_introl eq_refl) _)).
  - change (items_tail (dumps (S level)) level [])
      with (newline_indent level +:+ "]").
    rewrite append_assoc, skip_ws_newline_indent. reflexivity.
  - rewrite items_tail_cons, append_cons.
    change (skip_ws (String "," ?s)) with (String "," s). cbv iota.
    change (Ascii.eqb "," ",") with true. cbv iota.
    rewrite !append_assoc, skip_ws_newline_indent, skip_ws_dumps.
    rewrite IH; [reflexivity | | simpl in *; lia].
    intros z Hz. apply Hpv. now right.
Qed.

Lemma parse_members_step fuel k s v r :
  pv (skip_ws s) = Some (v, r) ->
  parse_members pv (S fuel) (quoted k +:+ String ":" s)
  = match skip_ws r with
    | String c rest' =>
        if Ascii.eqb c "," then
          match parse_members pv fuel (skip_ws rest') with
          | Some (ms, rest'') => Some ((k, v) :: ms, rest'')
          | None => None
          end
        else if Ascii.eqb c "}" then Some ([(k, v)], rest')
        else None
    | EmptyString => None
    end.
Proof.
  intros E. unfold quoted. rewrite append_cons, append_assoc, append_cons, append_nil_l.
  cbn [parse_members]. change (Ascii.eqb dquote dquote) with true. cbv iota.
  rewrite parse_chars_escape.
  change (skip_ws (String ":" s)) with (String ":" s). cbv iota.
  change (Ascii.eqb ":" ":") with true. cbv iota.
  now rewrite E.
Qed.

Lemma parse_members_dumps ms :
  forall kv fuel rest,
    (forall m, In m (kv :: ms) ->
               forall r, pv (dumps (S level) (snd m) +:+ r) = Some (snd m, r)) ->
    (length (kv :: ms) <= fuel)%nat ->
    parse_members pv fuel
      (quoted (fst kv) +:+ ": " +:+ dumps (S level) (snd kv)
       +:+ members_tail (dumps (S level)) level ms +:+ rest)
    = Some (kv :: ms, rest).
Proof.
  induction ms as [|[k' v'] ms IH]; intros [k v] fuel rest Hpv Hfuel;
    (destruct fuel as [|fuel]; [simpl in Hfuel; lia|]);
    cbn [fst snd];
    change (": " +:+ ?x) with (String ":" (String " " x));
    erewrite parse_members_step
      by (change (skip_ws (String " " ?s)) with (skip_ws s);
          rewrite skip_ws_dumps; apply (Hpv (k, v) (or_introl eq_refl))).
  - change (members_tail (dumps (S level)) level [])
      with (newline_indent level +:+ "}").
    rewrite append_assoc, skip_ws_newline_indent. reflexivity.
  - rewrite members_tail_cons, append_cons.
    change (skip_ws (String "," ?s)) with (String "," s). cbv iota.
    change (Ascii.eqb "," ",") with true. cbv iota.
    rewrite !append_assoc, skip_ws_newline_indent, skip_ws_quoted.
    rewrite (IH (k', v')); [reflexivity | | simpl in *; lia].
    intros z Hz. apply Hpv. now right.
Qed.

End Elements.

Lemma assign_fresh k v d :
  ~ In k (map fst d) -> assign k v d = d ++ [(k, v)].
Proof.
  induction d as [|[k' v'] d IH]; simpl; [reflexivity|]. intros Hnot.
  destruct (String.eqb_spec k k') as [->|Hne]; [tauto|].
  rewrite IH; [reflexivity | tauto].
Qed.

Lemma dict_from acc pairs :
  List.NoDup (map fst (acc ++ pairs)) ->
  fold_left (fun d kv => assign (fst kv) (snd kv) d) pairs acc = acc ++ pairs.
Proof.
  revert acc. induction pairs as [|[k v] pairs IH]; intros acc Hnodup; simpl.
  - now rewrite app_nil_r.
  - rewrite assign_fresh.
    + rewrite IH; rewrite <- app_assoc; [reflexivity | exact Hnodup].
    + rewrite map_app in Hnodup. simpl in Hnodup.
      apply List.NoDup_remove_2 in Hnodup. intros Hin. apply Hnodup.
      apply in_or_app. now left.
Qed.

(** a list of pairs with distinct keys is the dictionary of its pairs *)
Lemma dict_unique ms : NoDup (map fst ms) -> dict ms = ms.
Proof.
  intros H. unfold dict. rewrite dict_from; [reflexivity|].
  now apply NoDup_ListNoDup.
Qed.

(** Decoding undoes encoding, at every depth and before any text. *)
Lemma parse_value_dumps v :
  document v ->
  forall fuel level rest,
    (size v <= fuel)%nat ->
    parse_value fuel (dumps level v +:+ rest) = Some (v, rest).
Proof.
  induction v as [|b|s|l IH|ms IH] using json_tree_ind;
    intros Hdoc fuel level rest Hfuel;
    (destruct fuel as [|fuel]; [exfalso; cbn [size] in Hfuel; lia|]).
  - reflexivity.
  - destruct b; reflexivity.
  - apply parse_value_str.
  - inversion Hdoc as [| | |l' Hl|]; subst.
    destruct l as [|x xs]; [reflexivity|].
    cbn [size] in Hfuel.
    assert (Hpv : forall y, In y (x :: xs) ->
                    forall r, parse_value fuel (dumps (S level) y +:+ r) = Some (y, r)).
    { intros y Hy r. rewrite List.Forall_forall in IH, Hl.
      apply IH; [exact Hy | now apply Hl |].
      pose proof (le_list_sum size (x :: xs) y Hy). lia. }
    assert (Hlen : (length (x :: xs) <= fuel)%nat).
    { pose proof (length_le_sum size (x :: xs) size_pos). lia. }
    cbn [dumps]. rewrite !append_cons, append_nil_l. cbn [parse_value].
    change (Ascii.eqb "[" dquote) with false. cbv iota.
    change (Ascii.eqb "[" "[") with true. cbv iota.
    rewrite !append_assoc, skip_ws_newline_indent, skip_ws_dumps.
    destruct (dumps_head (S level) x
                (items_tail (dumps (S level)) level xs +:+ rest))
      as [c [r [E Hc]]].
    rewrite E at 1. destruct (value_start_not_closing c Hc) as [-> _].
    now rewrite (parse_elements_dumps _ _ xs x fuel rest Hpv Hlen).
  - inversion Hdoc as [| | | |ms' Hkeys Hms]; subst.
    destruct ms as [|[k v] ms]; [reflexivity|].
    cbn [size] in Hfuel.
    assert (Hpv : forall m, In m ((k, v) :: ms) ->
                    forall r, parse_value fuel (dumps (S level) (snd m) +:+ r)
                              = Some (snd m, r)).
    { intros m Hm r. rewrite List.Forall_forall in IH, Hms.
      apply IH; [exact Hm | now apply Hms |].
      pose proof (le_list_sum (fun kv => size (snd kv)) ((k, v) :: ms) m Hm).
      cbn beta in *. lia. }
    assert (Hlen : (length ((k, v) :: ms) <= fuel)%nat).
    { pose proof (length_le_sum (fun kv => size (snd kv)) ((k, v) :: ms)
                    (fun kv => size_pos (snd kv))). lia. }
    cbn [dumps fst snd]. rewrite append_cons, append_nil_l, append_cons.
    cbn [parse_value].
    change (Ascii.eqb "{" dquote) with false. cbv iota.
    change (Ascii.eqb "{" "[") with false. cbv iota.
    change (Ascii.eqb "{" "{") with true. cbv iota.
    rewrite !append_assoc, skip_ws_newline_indent.
    change (skip_ws (quoted k +:+ ?s)) with (quoted k +:+ s).
    change (quoted k +:+ ?s) with (String dquote ((escape k +:+ String dquote EmptyString) +:+ s)) at 1.
    cbv iota. change (Ascii.eqb dquote "}") with false. cbv iota.
    rewrite <- !append_assoc.
    pose proof (parse_members_dumps _ level ms (k, v) fuel rest Hpv Hlen) as E.
    cbn [fst snd] in E. rewrite <- !append_assoc in E. rewrite E.
    now rewrite dict_unique.
Qed.

Lemma list_sum_cons a l : list_sum (a :: l) = (a + list_sum l)%nat.
Proof. reflexivity. Qed.

Lemma size_le_length v : forall level, (size v <= String.length (dumps level v))%nat.
Proof.
  induction v as [|b|s|l IH|ms IH] using json_tree_ind; intros level.
  - simpl. lia.
  - destruct b; simpl; lia.
  - simpl. lia.
  - destruct l as [|x xs]; [simpl; lia|].
    apply List.Forall_cons_iff in IH as [IHx IHxs].
    cbn [dumps size map]. rewrite list_sum_cons, !length_append.
    specialize (IHx (S level)).
    assert (Htail : (list_sum (map size xs)
                     <= String.length (items_tail (dumps (S level)) level xs))%nat).
    { clear IHx. induction xs as [|y xs IHl]; [simpl; lia|].
      apply List.Forall_cons_iff in IHxs as [IHy IHxs].
      rewrite items_tail_cons. cbn [map String.length].
      rewrite list_sum_cons, !length_append. specialize (IHy (S level)). specialize (IHl IHxs).
      lia. }
    cbn [String.length]. lia.
  - destruct ms as [|[k v] ms]; [simpl; lia|].
    apply List.Forall_cons_iff in IH as [IHx IHxs]. cbn [snd] in IHx.
    cbn [dumps size map fst snd]. rewrite list_sum_cons, !length_append.
    specialize (IHx (S level)).
    assert (Htail : (list_sum (map (fun kv => size (snd kv)) ms)
                     <= String.length (members_tail (dumps (S level)) level ms))%nat).
    { clear IHx. induction ms as [|[k' y] ms IHl]; [simpl; lia|].
      apply List.Forall_cons_iff in IHxs as [IHy IHxs]. cbn [snd] in IHy.
      rewrite members_tail_cons. cbn [map String.length snd].
      rewrite list_sum_cons, !length_append. specialize (IHy (S level)). specialize (IHl IHxs).
      lia. }
    cbn [String.length]. lia.
Qed.

(** [json.loads(json.dumps(v, indent=2)) == v] *)
Lemma json_loads_dumps v : document v -> json_loads (json_dumps v) = Some v.
Proof.
  intros Hdoc. unfold json_loads, json_dumps.
  pose proof (skip_ws_dumps 0 v EmptyString) as Hskip.
  pose proof (parse_value_dumps v Hdoc (S (String.length (dumps 0 v))) 0
                EmptyString) as Hparse.
  rewrite append_nil_r in Hskip, Hparse.
  rewrite Hskip, Hparse; [reflexivity|].
  pose proof (size_le_length v 0). lia.
Qed.

Import Services Orchestrator Outcomes Invariants.

Lemma document_result r : document (encode_result r).
Proof.
  constructor.
  - apply (bool_decide_unpack _). reflexivity.
  - destruct (archived_url r); repeat constructor.
Qed.

Lemma map_fst_encoded {A} (f : A -> json) (l : list (string * A)) :
  map fst (map (fun kv => (fst kv, f (snd kv))) l) = map fst l.
Proof. rewrite List.map_map. reflexivity. Qed.

Lemma document_dict {A} (f : A -> json) (m : gmap string A) :
  (forall x, document (f x)) ->
  document (JObj (map (fun kv => (fst kv, f (snd kv))) (map_to_list m))).
Proof.
  intros Hf. constructor.
  - rewrite map_fst_encoded. apply NoDup_fst_map_to_list.
  - apply List.Forall_forall. intros kv Hin.
    apply in_map_iff in Hin as [kv' [<- _]]. apply Hf.
Qed.

Lemma document_record r : document (encode_record r).
Proof.
  assert (Hfiles : document (JArr (map JStr (files r)))).
  { constructor. apply List.Forall_forall. intros v Hin.
    apply in_map_iff in Hin as [s [<- _]]. constructor. }
  assert (Hservices : document (encode_services (services r)))
    by (apply document_dict, document_result).
  unfold encode_record. destruct (last_updated r); constructor;
    try (apply (bool_decide_unpack _); reflexivity);
    repeat (constructor; try assumption).
Qed.

Lemma document_log log_data : document (encode_log log_data).
Proof.
  unfold encode_log. constructor.
  - apply (bool_decide_unpack _). reflexivity.
  - constructor; [|constructor]. apply document_dict, document_record.
Qed.

Lemma decode_all_map {A B} (f : A -> option B) (g : B -> A) (l : list B) :
  (forall x, f (g x) = Some x) -> decode_all f (map g l) = Some l.
Proof.
  intros H. induction l as [|x l IH]; simpl; [reflexivity|].
  now rewrite H, IH.
Qed.

Lemma decode_dict_encoded {A} (dec : json -> option A) (enc : A -> json)
  (m : gmap string A) :
  (forall x, dec (enc x) = Some x) ->
  decode_dict dec (JObj (map (fun kv => (fst kv, enc (snd kv))) (map_to_list m)))
  = Some m.
Proof.
  intros H. unfold decode_dict. rewrite decode_all_map.
  - now rewrite list_to_map_to_list.
  - intros [k x]. cbn. now rewrite H.
Qed.

Lemma decode_result_encoded r : decode_result (encode_result r) = Some r.
Proof. destruct r as [b [u|]]; reflexivity. Qed.

Lemma decode_record_encoded r : decode_record (encode_record r) = Some r.
Proof.
  destruct r as [o t u fs sv]. unfold decode_record, encode_record.
  cbn [original_url first_seen last_updated files services].
  assert (Hfs : decode_all decode_string (map JStr fs) = Some fs)
    by now apply decode_all_map.
  assert (Hsv : decode_dict decode_result (encode_services sv) = Some sv)
    by apply decode_dict_encoded, decode_result_encoded.
  destruct u as [u|]; cbn [app field lookup_key String.eqb Ascii.eqb Bool.eqb];
    now rewrite Hfs, Hsv.
Qed.

Lemma decode_log_encoded log_data : decode_log (encode_log log_data) = Some log_data.
Proof.
  destruct log_data as [m]. unfold decode_log, encode_log.
  cbn [field lookup_key String.eqb Ascii.eqb Bool.eqb archived_links].
  now rewrite (decode_dict_encoded decode_record encode_record m decode_record_encoded).
Qed.

Lemma LOG_FILE_not_LOG_DIR : LOG_FILE <> LOG_DIR.
Proof. discriminate. Qed.

(** saving a document and loading the file gives the document back *)
Lemma save_then_load doc w :
  document doc ->
  disk w !! LOG_DIR = Some Dir -> disk w !! LOG_FILE <> Some Dir ->
  (do_ save_log doc; load_existing_log) w
  = (Ok doc, set_disk (<[LOG_FILE := File (json_dumps doc)]> (disk w)) w).
Proof.
  intros Hdoc Hdir Hfile. unfold bind, save_log. rewrite Hdir.
  assert (Hload : load_existing_log
                    (set_disk (<[LOG_FILE := File (json_dumps doc)]> (disk w)) w)
                  = (Ok doc, set_disk (<[LOG_FILE := File (json_dumps doc)]> (disk w)) w)).
  { unfold load_existing_log, bind, path_exists. cbn [disk set_disk].
    rewrite lookup_insert_eq.
    rewrite bool_decide_eq_true_2 by eauto.
    cbn [disk set_disk]. rewrite lookup_insert_eq.
    now rewrite json_loads_dumps. }
  destruct (disk w !! LOG_FILE) as [[|content]|]; [congruence | exact Hload..].
Qed.

(** C8. For every log that the scripts build, [save_log] followed by
    [load_existing_log] returns the document that was saved, and that
    document is the log: the JSON persistence is the identity. It needs the
    log directory, which [main] makes sure of before anything else. *)
Theorem save_log_load_existing_log (log_data : LogData) (w : World) :
  disk w !! LOG_DIR = Some Dir ->
  disk w !! LOG_FILE <> Some Dir ->
  exists w',
    (do_ save_log (encode_log log_data); load_existing_log) w
    = (Ok (encode_log log_data), w')
    /\ decode_log (encode_log log_data) = Some log_data.
Proof.
  intros Hdir Hfile. eexists. split.
  - apply save_then_load; [apply document_log | assumption..].
  - apply decode_log_encoded.
Qed.

Lemma save_log_load_existing_log_witness :
  let w := set_disk {[ LOG_DIR := Dir ]} (world_answering Fails) in
  exists w',
    (do_ save_log (encode_log one_record_log); load_existing_log) w
    = (Ok (encode_log one_record_log), w')
    /\ decode_log (encode_log one_record_log) = Some one_record_log.
Proof.
  intros w. apply (save_log_load_existing_log one_record_log w).
  - reflexivity.
  - vm_compute. discriminate.
Defined.

End JsonProperties.

(** * Further properties of the scripts *)

Section ShapeProperties.
Import Regex Extract Walk Shapes.

Lemma dead_nullable r : dead r = true -> nullable r = false.
Proof.
  induction r; simpl; try discriminate; try reflexivity; intros H.
  - apply orb_prop in H as [H|H]; [rewrite IHr1 | rewrite IHr2];
      auto using andb_false_r.
  - apply andb_prop in H as [H1 H2]. now rewrite IHr1, IHr2.
Qed.

Lemma dead_deriv c r : dead r = true -> dead (deriv c r) = true.
Proof.
  induction r; simpl; try discriminate; try reflexivity; intros H.
  - apply orb_prop in H as [H|H].
    + rewrite (dead_nullable _ H). simpl. now rewrite IHr1.
    + destruct (nullable r1); simpl; rewrite H, ?IHr2 by assumption;
        now rewrite ?orb_true_r.
  - apply andb_prop in H as [H1 H2]. now rewrite IHr1, IHr2.
Qed.

Lemma dead_rejects s : forall r, dead r = true -> accepts r s = false.
Proof.
  induction s as [|c s IH]; intros r H; simpl.
  - now apply dead_nullable.
  - now apply IH, dead_deriv.
Qed.

Lemma within_deriv P c r : within P r -> within P (deriv c r).
Proof.
  induction r; simpl; try tauto.
  - intros _. now destruct (b c).
  - intros [H1 H2]. destruct (nullable r1); simpl; tauto.
Qed.

Lemma within_deriv_dead P c r :
  within P r -> P c = false -> dead (deriv c r) = true.
Proof.
  intros Hr Hc. induction r; simpl in *; try reflexivity.
  - destruct (b c) eqn:E; [|reflexivity]. apply Hr in E. congruence.
  - destruct Hr as [H1 H2].
    destruct (nullable r1); simpl; rewrite IHr1, ?IHr2 by assumption;
      reflexivity.
  - destruct Hr as [H1 H2]. now rewrite IHr1, IHr2.
  - now rewrite IHr.
Qed.

(** a string that [r] matches has only characters that the classes of [r]
    admit *)
Lemma within_accepts P s :
  forall r, within P r -> accepts r s = true ->
            Forall (fun c => P c = true) (chars s).
Proof.
  induction s as [|c s IH]; intros r Hr Hs; simpl; [constructor|].
  simpl in Hs. destruct (P c) eqn:Hc.
  - constructor; [exact Hc|]. apply (IH (deriv c r)); [|exact Hs].
    now apply within_deriv.
  - rewrite (dead_rejects s _ (within_deriv_dead P c r Hr Hc)) in Hs.
    discriminate.
Qed.

Lemma demands_nullable P r : demands P r -> nullable r = false.
Proof.
  induction r; simpl; try tauto.
  - intros [H|H]; [rewrite IHr1 | rewrite IHr2]; auto using andb_false_r.
  - intros [H1 H2]. now rewrite IHr1, IHr2.
Qed.

Lemma demands_deriv P c r :
  demands P r -> P c = false -> demands P (deriv c r).
Proof.
  intros Hr Hc. induction r; simpl in *; try tauto.
  - destruct (b c) eqn:E; simpl; [|exact I]. apply Hr in E. congruence.
  - destruct Hr as [H|H].
    + rewrite (demands_nullable _ _ H). simpl. left. now apply IHr1.
    + destruct (nullable r1); simpl; [|now right].
      split; [now right | now apply IHr2].
Qed.

(** a string that [r] matches has a character that [r] demands *)
Lemma demands_accepts P s :
  forall r, demands P r -> accepts r s = true ->
            Exists (fun c => P c = true) (chars s).
Proof.
  induction s as [|c s IH]; intros r Hr Hs; simpl in *.
  - rewrite (demands_nullable _ _ Hr) in Hs. discriminate.
  - destruct (P c) eqn:Hc; [now left|]. right.
    apply (IH (deriv c r)); [|exact Hs]. now apply demands_deriv.
Qed.

Lemma within_Lit P s :
  Forall (fun c => P c = true) (chars s) -> within P (Lit s).
Proof.
  induction s as [|c s IH]; simpl; [tauto|]. intros H.
  apply List.Forall_cons_iff in H as [Hc Hs]. split; [|now apply IH].
  intros c' E. apply Ascii.eqb_eq in E. now subst.
Qed.

Lemma url_pattern_within : within (fun c => negb (whitespace c)) url_pattern.
Proof.
  assert (Hdomain : forall c, domain_char c = true -> negb (whitespace c) = true).
  { intros c. destruct c as [[] [] [] [] [] [] [] []]; vm_compute; congruence. }
  assert (Hletter : forall c, letter c = true -> negb (whitespace c) = true).
  { intros c. destruct c as [[] [] [] [] [] [] [] []]; vm_compute; congruence. }
  unfold url_pattern, Opt, Plus, AtLeast2. cbn [within].
  repeat split; try exact Hdomain; try exact Hletter;
    intros c E;
    first [exact E | apply Ascii.eqb_eq in E; subst c; reflexivity].
Qed.

Lemma url_pattern_demands : demands (Ascii.eqb ".") url_pattern.
Proof.
  unfold url_pattern. right. right. right. left. left. left.
  intros c E. exact E.
Qed.

Lemma endswith_LF_chars s :
  Str.endswith LF s = true -> In "010"%char (chars s).
Proof.
  induction s as [|c s IH]; [discriminate|]. cbn [Str.endswith chars].
  intros H. apply orb_prop in H as [H|H]; [|right; now apply IH].
  apply String.eqb_eq in H. unfold LF in H. injection H as <- <-. now left.
Qed.

Lemma drop_last_append s : drop_last (s +:+ LF) = s.
Proof.
  induction s as [|c s IH]; [reflexivity|].
  change (String c s +:+ LF) with (String c (s +:+ LF)). cbn [drop_last].
  rewrite IH. destruct s; reflexivity.
Qed.

Lemma endswith_append_LF s : Str.endswith LF (s +:+ LF) = true.
Proof.
  induction s as [|c s IH]; [reflexivity|].
  change (String c s +:+ LF) with (String c (s +:+ LF)). cbn [Str.endswith].
  rewrite IH. apply orb_true_r.
Qed.

Lemma append_drop_last s :
  Str.endswith LF s = true -> s = drop_last s +:+ LF.
Proof.
  induction s as [|c s IH]; [discriminate|]. cbn [Str.endswith]. intros H.
  apply orb_prop in H as [H|H].
  - apply String.eqb_eq in H. now rewrite <- H.
  - destruct s as [|c' s']; [discriminate|].
    change (drop_last (String c (String c' s')))
      with (String c (drop_last (String c' s'))).
    change (String c (drop_last (String c' s')) +:+ LF)
      with (String c (drop_last (String c' s') +:+ LF)).
    now rewrite <- IH.
Qed.

(** X1. Every string that [extract_links_from_dict] returns matches the
    URL-shape pattern of [is_url]. *)
Theorem extracted_links_are_urls (root : yaml) (u : string) :
  In u (extract_links_from_dict root) -> is_url (YStr u) = true.
Proof.
  intros Hu. apply extract_links_from_dict_spec in Hu as [m [_ Hy]].
  destruct Hy; assumption.
Qed.

Lemma extracted_links_are_urls_witness :
  is_url (YStr "example.org/page") = true.
Proof.
  apply (extracted_links_are_urls
           (YDict [(YStr "see", YList [YStr "no link"; YStr "example.org/page"])])).
  vm_compute. now left.
Defined.

(** X2. When [extract_links_from_yaml] returns for a parsed file, its result
    lists no string twice and holds exactly the strings that
    [extract_links_from_dict] finds in the file. *)
Theorem extract_links_from_yaml_set (data : yaml) (links : list string) :
  extract_links_from_yaml (Parsed data) = Ok links ->
  List.NoDup links
  /\ (forall u, In u links <-> In u (extract_links_from_dict data)).
Proof.
  unfold extract_links_from_yaml. destruct (truthy data) eqn:Ht; cbn [negb].
  - destruct (is_dict data) eqn:Hd; [|discriminate]. intros [= <-].
    unfold unique. split.
    + apply NoDup_ListNoDup, NoDup_elements.
    + intros u.
      rewrite <- !list_elem_of_In, elem_of_elements, elem_of_list_to_set.
      reflexivity.
  - intros [= <-]. split; [constructor|]. intros u.
    destruct data as [| | | | |[|]|[|]]; try discriminate; simpl; tauto.
Qed.

Lemma extract_links_from_yaml_set_witness :
  let data := YDict [(YStr "link", YList [YStr "example.org"; YStr "example.org"])] in
  List.NoDup ["example.org"]
  /\ (forall u, In u ["example.org"] <-> In u (extract_links_from_dict data)).
Proof.
  intros data. apply (extract_links_from_yaml_set data ["example.org"]).
  vm_compute. reflexivity.
Defined.

(** X3. A string that [is_url] accepts is a body with no white space in it
    and with a dot in it, followed by at most one line feed. *)
Theorem is_url_shape (s : string) :
  is_url (YStr s) = true ->
  exists body,
    (s = body \/ s = body +:+ LF)
    /\ Forall (fun c => whitespace c = false) (chars body)
    /\ In "."%char (chars body).
Proof.
  assert (Hbody : forall body, accepts url_pattern body = true ->
            Forall (fun c => whitespace c = false) (chars body)
            /\ In "."%char (chars body)).
  { intros body Hb. split.
    - eapply List.Forall_impl;
        [|exact (within_accepts _ body _ url_pattern_within Hb)].
      intros c. apply negb_true_iff.
    - apply (demands_accepts _ body _ url_pattern_demands) in Hb.
      apply List.Exists_exists in Hb as [c [Hin E]].
      apply Ascii.eqb_eq in E. now subst. }
  unfold is_url, anchored_match. intros H.
  apply orb_prop in H as [H|H].
  - exists s. split; [now left | now apply Hbody].
  - apply andb_prop in H as [Hend H]. exists (drop_last s).
    split; [right; now apply append_drop_last | now apply Hbody].
Qed.

Lemma is_url_shape_witness :
  exists body,
    ("example.com/a" +:+ LF = body \/ "example.com/a" +:+ LF = body +:+ LF)
    /\ Forall (fun c => whitespace c = false) (chars body)
    /\ In "."%char (chars body).
Proof.
  apply (is_url_shape ("example.com/a" +:+ LF)). reflexivity.
Defined.

(** X4. A string that [is_url] accepts and that does not end in a line feed
    is still accepted with a line feed after it, and the extractor collects
    it with that line feed. *)
Theorem is_url_trailing_newline (s : string) :
  is_url (YStr s) = true -> Str.endswith LF s = false ->
  is_url (YStr (s +:+ LF)) = true
  /\ extract_links_from_dict (YDict [(YStr "link", YStr (s +:+ LF))])
     = [s +:+ LF].
Proof.
  intros Hurl Hend.
  assert (Hlf : is_url (YStr (s +:+ LF)) = true).
  { unfold is_url, anchored_match in *. fold LF in Hurl |- *.
    rewrite Hend in Hurl.
    cbn [andb] in Hurl. rewrite orb_false_r in Hurl.
    rewrite endswith_append_LF, drop_last_append, Hurl. apply orb_true_r. }
  split; [exact Hlf|].
  rewrite extract_links_from_dict_eq. cbn [flat_map entry_links].
  rewrite (is_url_truthy _ Hlf). cbn [is_link_key]. unfold url_string.
  rewrite Hlf. reflexivity.
Qed.

Lemma is_url_trailing_newline_witness :
  is_url (YStr ("https://example.com" +:+ LF)) = true
  /\ extract_links_from_dict (YDict [(YStr "link", YStr ("https://example.com" +:+ LF))])
     = ["https://example.com" +:+ LF].
Proof.
  apply (is_url_trailing_newline "https://example.com"); reflexivity.
Defined.

End ShapeProperties.

Section FileProperties.
Import Extract Orchestrator.

Lemma endswith_append p a b :
  Str.endswith p b = true -> Str.endswith p (a +:+ b) = true.
Proof.
  intros H. induction a as [|c a IH]; [exact H|].
  change (String c a +:+ b) with (String c (a +:+ b)). cbn [Str.endswith].
  rewrite IH. apply orb_true_r.
Qed.

Lemma is_yaml_name_join root file :
  is_yaml_name file = true -> is_yaml_name (path_join root file) = true.
Proof.
  unfold is_yaml_name, path_join. intros H.
  destruct (Str.startswith "/" file); [exact H|].
  apply orb_prop in H as [H|H];
    destruct (negb (Str.nonempty root) || Str.endswith "/" root);
    rewrite ?(endswith_append _ _ _ H),
            ?(endswith_append _ root _ (endswith_append _ "/" _ H));
    auto using orb_true_r.
Qed.

Lemma get_all_yaml_files_In walk p :
  In p (get_all_yaml_files walk) <->
  exists root files file,
    In (root, files) walk /\ In file files
    /\ is_yaml_name file = true /\ Str.contains ".git" root = false
    /\ p = path_join root file.
Proof.
  unfold get_all_yaml_files. rewrite in_flat_map. split.
  - intros [[root files] [Hdir Hp]]. cbn [fst snd] in Hp.
    apply in_flat_map in Hp as [file [Hfile Hp]].
    destruct (is_yaml_name file) eqn:Hy; [|contradiction].
    destruct (Str.contains ".git" root) eqn:Hg; [contradiction|].
    destruct Hp as [<-|[]]. exists root, files, file. auto.
  - intros [root [files [file [Hdir [Hfile [Hy [Hg ->]]]]]]].
    exists (root, files). split; [exact Hdir|]. cbn [fst snd].
    apply in_flat_map. exists file. split; [exact Hfile|].
    rewrite Hy, Hg. now left.
Qed.

(** X5. [get_all_yaml_files] returns exactly the paths [root/file] of the
    files whose name ends in [.yaml] or [.yml] and whose directory path does
    not contain [.git]; every path it returns ends in [.yaml] or [.yml]. *)
Theorem get_all_yaml_files_paths (walk : list (string * list string))
  (p : string) :
  (In p (get_all_yaml_files walk) <->
   exists root files file,
     In (root, files) walk /\ In file files
     /\ is_yaml_name file = true /\ Str.contains ".git" root = false
     /\ p = path_join root file)
  /\ (In p (get_all_yaml_files walk) -> is_yaml_name p = true).
Proof.
  split; [apply get_all_yaml_files_In|]. intros Hp.
  apply get_all_yaml_files_In in Hp as [root [files [file [_ [_ [Hy [_ ->]]]]]]].
  now apply is_yaml_name_join.
Qed.

Lemma links_of_files_entries parse yaml_files :
  forall results,
    links_of_files parse yaml_files = Ok results ->
    forall f links,
      In (f, links) results <->
      In f yaml_files /\ extract_links_from_yaml (parse f) = Ok links
      /\ links <> [].
Proof.
  induction yaml_files as [|y ys IH]; intros results; simpl.
  - intros [= <-] f links. simpl. tauto.
  - destruct (extract_links_from_yaml (parse y)) as [ly|e] eqn:Ey; [|discriminate].
    destruct (links_of_files parse ys) as [rs|e]; [|discriminate].
    intros [= <-] f links. specialize (IH rs eq_refl f links).
    destruct ly as [|l ly].
    + rewrite IH. split; [tauto|]. intros [[-> |H] [E Hne]]; [|tauto].
      rewrite Ey in E. injection E as <-. congruence.
    + simpl. rewrite IH. split.
      * intros [[= <- <-]|H]; [|tauto]. split; [now left|]. split; [exact Ey|].
        discriminate.
      * intros [[-> |H] [E Hne]]; [|tauto].
        rewrite Ey in E. injection E as <-. now left.
Qed.

(** X6. When [get_links_from_all_yaml_files] returns, its result lists
    exactly the YAML files in which the extractor finds a link, each with the
    result of [extract_links_from_yaml] for it; a file without links is left
    out. *)
Theorem get_links_from_all_yaml_files_entries
  (walk : list (string * list string)) (parse : string -> loaded)
  (results : list (string * list string)) (f : string) (links : list string) :
  get_links_from_all_yaml_files walk parse = Ok results ->
  (In (f, links) results <->
   In f (get_all_yaml_files walk)
   /\ extract_links_from_yaml (parse f) = Ok links /\ links <> []).
Proof. intros H. now apply links_of_files_entries. Qed.

Lemma get_links_from_all_yaml_files_entries_witness :
  let walk := [(".", ["a.yaml"; "empty.yml"; "notes.txt"])] in
  let parse := fun p : string =>
    if String.eqb p "./a.yaml"
    then Parsed (YDict [(YStr "link", YStr "example.org")])
    else Parsed YNone in
  In ("./a.yaml", ["example.org"]) [("./a.yaml", ["example.org"])] <->
  In "./a.yaml" (get_all_yaml_files walk)
  /\ extract_links_from_yaml (parse "./a.yaml") = Ok ["example.org"]
  /\ ["example.org"] <> [].
Proof.
  intros walk parse.
  apply (get_links_from_all_yaml_files_entries walk parse
           [("./a.yaml", ["example.org"])]).
  vm_compute. reflexivity.
Defined.

Lemma extract_links_from_yaml_raises file e :
  extract_links_from_yaml file = Raise e -> e = AttributeError.
Proof.
  unfold extract_links_from_yaml. destruct file as [|data]; [discriminate|].
  destruct (negb (truthy data)); [discriminate|].
  destruct (is_dict data); [discriminate|]. now intros [= <-].
Qed.

Lemma links_of_files_raises parse yaml_files e :
  links_of_files parse yaml_files = Raise e -> e = AttributeError.
Proof.
  induction yaml_files as [|y ys IH]; simpl; [discriminate|].
  destruct (extract_links_from_yaml (parse y)) as [ly|e'] eqn:Ey.
  - destruct (links_of_files parse ys) as [rs|e'']; [discriminate|].
    intros [= <-]. now apply IH.
  - intros [= <-]. now apply extract_links_from_yaml_raises in Ey.
Qed.

(** X7. One YAML file whose top level is neither empty nor a mapping (a
    sequence, a plain string, a number) makes
    [get_links_from_all_yaml_files] raise [AttributeError]: no file is
    extracted. *)
Theorem get_links_from_all_yaml_files_aborts
  (walk : list (string * list string)) (parse : string -> loaded)
  (f : string) (data : yaml) :
  In f (get_all_yaml_files walk) ->
  parse f = Parsed data -> truthy data = true -> is_dict data = false ->
  get_links_from_all_yaml_files walk parse = Raise AttributeError.
Proof.
  intros Hin Hparse Ht Hd. unfold get_links_from_all_yaml_files.
  induction (get_all_yaml_files walk) as [|y ys IH]; [contradiction|].
  simpl. destruct Hin as [-> |Hin].
  - unfold extract_links_from_yaml at 1. now rewrite Hparse, Ht, Hd.
  - rewrite (IH Hin).
    destruct (extract_links_from_yaml (parse y)) as [ly|e] eqn:Ey;
      [reflexivity|].
    now rewrite (extract_links_from_yaml_raises _ _ Ey).
Qed.

Lemma get_links_from_all_yaml_files_aborts_witness :
  let walk := [(".", ["a.yaml"; "b.yaml"])] in
  let parse := fun p : string =>
    if String.eqb p "./b.yaml"
    then Parsed (YList [YDict [(YStr "link", YStr "example.org")]])
    else Parsed (YDict [(YStr "link", YStr "example.org")]) in
  get_links_from_all_yaml_files walk parse = Raise AttributeError.
Proof.
  intros walk parse.
  apply (get_links_from_all_yaml_files_aborts walk parse "./b.yaml"
           (YList [YDict [(YStr "link", YStr "example.org")]])).
  - right. now left.
  - reflexivity.
  - reflexivity.
  - reflexivity.
Defined.

End FileProperties.

Section ServiceBounds.
Import Services Outcomes Invariants Bounds.

Lemma sends_ret {A} (a : A) : sends_at_most 0 (ret a).
Proof. intros w r w' [= <- <-]. lia. Qed.

Lemma sends_effect e : sends_at_most 0 (effect e).
Proof. intros w r w' [= <- <-]. cbn. lia. Qed.

Lemma sends_request e : sends_at_most 1 (request e).
Proof.
  intros w r w'. unfold request.
  destruct (net w (sent w)); intros [= <- <-]; cbn; lia.
Qed.

Lemma sends_more n n' {A} (c : M A) :
  sends_at_most n c -> (n <= n')%nat -> sends_at_most n' c.
Proof. intros H Hle w r w' E. specialize (H _ _ _ E). lia. Qed.

Lemma sends_bind n m {A B} (c : M A) (k : A -> M B) :
  sends_at_most n c -> (forall a, sends_at_most m (k a)) ->
  sends_at_most (n + m) (bind c k).
Proof.
  intros Hc Hk w r w'. unfold bind.
  destruct (c w) as [[a|e] w1] eqn:E; intros H.
  - specialize (Hc _ _ _ E). specialize (Hk a _ _ _ H). lia.
  - injection H as <- <-. specialize (Hc _ _ _ E). lia.
Qed.

Lemma sends_try n {A} (body handler : M A) :
  sends_at_most n body -> sends_at_most 0 handler ->
  sends_at_most n (try_except_RequestException body handler).
Proof.
  intros Hb Hh w r w'. unfold try_except_RequestException.
  destruct (body w) as [[a|e] w1] eqn:E.
  - intros [= <- <-]. exact (Hb _ _ _ E).
  - specialize (Hb _ _ _ E).
    destruct e; try (intros [= <- <-]; exact Hb).
    intros H. specialize (Hh _ _ _ H). lia.
Qed.

Lemma sends_for_each k {A R} (body : A -> M (option R)) xs after :
  (forall x, sends_at_most k (body x)) -> sends_at_most 0 after ->
  sends_at_most (length xs * k) (for_each body xs after).
Proof.
  intros Hb Ha. induction xs as [|x xs IH]; [exact Ha|].
  cbn [for_each length Nat.mul]. apply sends_bind; [apply Hb|].
  intros [v|]; [|exact IH].
  eapply sends_more; [apply sends_ret | lia].
Qed.

Ltac sends_zero :=
  repeat match goal with
         | |- sends_at_most 0 (ret _) => apply sends_ret
         | |- sends_at_most 0 (sleep _) => apply sends_effect
         | |- sends_at_most 0 (bind _ _) =>
             apply (sends_bind 0 0); [|intros ?]
         | |- sends_at_most 0 (if ?b then _ else _) => destruct b
         | |- sends_at_most 0 (match ?x with _ => _ end) => destruct x
         end.

Lemma wayback_attempt_sends url max_retries attempt :
  sends_at_most 1 (wayback_attempt url max_retries attempt).
Proof.
  unfold wayback_attempt. apply sends_try; [|sends_zero].
  apply (sends_bind 1 0); [apply sends_request|]. intros response.
  sends_zero.
Qed.

Lemma archive_today_attempt_sends url max_retries attempt :
  sends_at_most 2 (archive_today_attempt url max_retries attempt).
Proof.
  unfold archive_today_attempt. apply sends_try; [|sends_zero].
  apply (sends_bind 1 1); [apply sends_request|]. intros _.
  apply (sends_bind 1 0); [apply sends_request|]. intros response.
  sends_zero.
Qed.

Lemma length_range n : length (range n) = Z.to_nat n.
Proof. unfold range. now rewrite length_map, length_seq. Qed.

Lemma archive_url_wayback_sends url max_retries :
  sends_at_most (Z.to_nat max_retries) (archive_url_wayback url max_retries).
Proof.
  unfold archive_url_wayback.
  eapply sends_more;
    [apply (sends_for_each 1);
     [intros x; apply wayback_attempt_sends | apply sends_ret]|].
  rewrite length_range. lia.
Qed.

Lemma archive_url_archive_today_sends url max_retries :
  sends_at_most (2 * Z.to_nat max_retries)
                (archive_url_archive_today url max_retries).
Proof.
  unfold archive_url_archive_today.
  eapply sends_more;
    [apply (sends_for_each 2);
     [intros x; apply archive_today_attempt_sends | apply sends_ret]|].
  rewrite length_range. lia.
Qed.

(** X8. Whatever the network does, [archive_url_wayback] issues at most
    [max_retries] requests and [archive_url_archive_today] at most twice
    [max_retries]; one call of [archive_url] issues at most 9. *)
Theorem requests_are_bounded (url : string) (max_retries : Z) :
  sends_at_most (Z.to_nat max_retries) (archive_url_wayback url max_retries)
  /\ sends_at_most (2 * Z.to_nat max_retries)
                   (archive_url_archive_today url max_retries)
  /\ sends_at_most 9 (archive_url url).
Proof.
  split; [apply archive_url_wayback_sends|].
  split; [apply archive_url_archive_today_sends|].
  unfold archive_url.
  apply (sends_bind 0 9); [apply sends_effect | intros _].
  apply (sends_bind 0 9); [apply sends_effect | intros _].
  apply (sends_bind 3 6); [apply (archive_url_wayback_sends url 3) | intros [b1 o1]].
  apply (sends_bind 0 6); [apply sends_effect | intros _].
  apply (sends_bind 6 0);
    [apply (archive_url_archive_today_sends url 3) | intros [b2 o2]].
  apply sends_ret.
Qed.

Lemma startswith_append p x : Str.startswith p (p +:+ x) = true.
Proof.
  unfold Str.startswith. induction p as [|c p IH]; [now destruct x|].
  change (String c p +:+ x) with (String c (p +:+ x)). cbn [String.prefix].
  destruct (ascii_dec c c); [exact IH | congruence].
Qed.

Lemma wayback_attempt_200 url max_retries attempt w response :
  net w (sent w) = Responds response -> status_code response = 200 ->
  wayback_attempt url max_retries attempt w
  = (Ok (Some (true, Some (wayback_location url response))),
     count_request (record (Get (wayback_endpoint url)) w)).
Proof.
  intros Hnet Hstatus.
  unfold wayback_attempt, try_except_RequestException, bind, request.
  rewrite Hnet, Hstatus. cbn [Z.eqb Pos.eqb]. unfold wayback_location.
  destruct (Str.contains "/web/" (resp_url response)); [reflexivity|].
  destruct (first_href _ (anchors response)); reflexivity.
Qed.

(** X9. A response with status 200 makes [archive_url_wayback] return
    success at once, in whichever round it comes. The archived URL is the
    final URL of the response when that contains [/web/], and otherwise a URL
    on [https://web.archive.org]. *)
Theorem archive_url_wayback_200 (url : string) (max_retries attempt : Z)
  (rest : list Z) (w : World) (response : Response) :
  net w (sent w) = Responds response ->
  status_code response = 200 ->
  for_each (wayback_attempt url max_retries) (attempt :: rest)
           (ret (false, None)) w
  = (Ok (true, Some (wayback_location url response)),
     count_request (record (Get (wayback_endpoint url)) w))
  /\ (Str.contains "/web/" (resp_url response) = true ->
      wayback_location url response = resp_url response)
  /\ (Str.contains "/web/" (resp_url response) = false ->
      Str.startswith "https://web.archive.org" (wayback_location url response)
      = true).
Proof.
  intros Hnet Hstatus. split; [|split].
  - eapply for_each_return. now apply wayback_attempt_200.
  - unfold wayback_location. now intros ->.
  - unfold wayback_location. intros ->.
    destruct (first_href _ (anchors response)).
    + apply startswith_append.
    + apply (startswith_append "https://web.archive.org" ("/web/*/" +:+ url)).
Qed.

Lemma archive_url_wayback_200_witness :
  let w := world_answering (Responds landing_page) in
  for_each (wayback_attempt "https://example.com" 3) [0; 1; 2]
           (ret (false, None)) w
  = (Ok (true, Some (wayback_location "https://example.com" landing_page)),
     count_request (record (Get (wayback_endpoint "https://example.com")) w))
  /\ (Str.contains "/web/" (resp_url landing_page) = true ->
      wayback_location "https://example.com" landing_page
      = resp_url landing_page)
  /\ (Str.contains "/web/" (resp_url landing_page) = false ->
      Str.startswith "https://web.archive.org"
        (wayback_location "https://example.com" landing_page) = true).
Proof.
  intros w.
  apply (archive_url_wayback_200 "https://example.com" 3 0 [1; 2] w landing_page);
    reflexivity.
Defined.

Lemma wayback_attempt_exception url max_retries attempt w :
  net w (sent w) = Fails ->
  wayback_attempt url max_retries attempt w
  = if attempt <? max_retries - 1
    then (Ok None,
          record (Sleep (2 ^ attempt))
            (count_request (record (Get (wayback_endpoint url)) w)))
    else (Ok (Some (false, None)),
          count_request (record (Get (wayback_endpoint url)) w)).
Proof.
  intros Hnet.
  unfold wayback_attempt, try_except_RequestException, bind, request.
  rewrite Hnet. now destruct (attempt <? max_retries - 1).
Qed.

(** X10. With the default bound of 3 attempts, when each of the three GETs
    of [archive_url_wayback] raises a [RequestException], the function
    returns [(False, None)] after exactly 3 requests, with a pause of 1 and
    of 2 seconds between them and none after the last. *)
Theorem archive_url_wayback_exceptions (url : string) (w : World) :
  (forall k, (k < 3)%nat -> net w (sent w + k)%nat = Fails) ->
  exists w',
    archive_url_wayback url 3 w = (Ok (false, None), w')
    /\ trace w' = trace w ++ [Get (wayback_endpoint url); Sleep (2 ^ 0);
                              Get (wayback_endpoint url); Sleep (2 ^ 1);
                              Get (wayback_endpoint url)]
    /\ sent w' = (sent w + 3)%nat.
Proof.
  intros Hfails.
  pose proof (Hfails 0%nat ltac:(lia)) as N0.
  pose proof (Hfails 1%nat ltac:(lia)) as N1.
  pose proof (Hfails 2%nat ltac:(lia)) as N2.
  rewrite Nat.add_0_r in N0. rewrite Nat.add_1_r in N1.
  replace (sent w + 2)%nat with (S (S (sent w))) in N2 by lia.
  unfold archive_url_wayback. change (range 3) with [0; 1; 2].
  erewrite for_each_continue
    by (rewrite wayback_attempt_exception by exact N0; reflexivity).
  erewrite for_each_continue
    by (rewrite wayback_attempt_exception by exact N1; reflexivity).
  erewrite for_each_return
    by (rewrite wayback_attempt_exception by exact N2; reflexivity).
  eexists. split; [reflexivity|]. cbn. split.
  - rewrite <- !app_assoc. reflexivity.
  - lia.
Qed.

Lemma archive_url_wayback_exceptions_witness :
  exists w',
    archive_url_wayback "https://example.com" 3 (world_answering Fails)
    = (Ok (false, None), w')
    /\ trace w' = [] ++ [Get (wayback_endpoint "https://example.com"); Sleep (2 ^ 0);
                         Get (wayback_endpoint "https://example.com"); Sleep (2 ^ 1);
                         Get (wayback_endpoint "https://example.com")]
    /\ sent w' = (0 + 3)%nat.
Proof.
  apply (archive_url_wayback_exceptions "https://example.com"
           (world_answering Fails)).
  intros k _. reflexivity.
Defined.

Lemma archive_today_attempt_other url max_retries attempt w cookie response :
  net w (sent w) = Responds cookie ->
  net w (S (sent w)) = Responds response ->
  status_code response <> 200 -> status_code response <> 429 ->
  archive_today_attempt url max_retries attempt w
  = let w' := count_request
                (record (Post archive_endpoint ("url=" +:+ quote url))
                   (count_request (record (Get "https://archive.today/") w))) in
    if attempt <? max_retries - 1
    then (Ok None, record (Sleep (2 ^ attempt)) w')
    else (Ok (Some (false, None)), w').
Proof.
  intros Hcookie Hsubmit H200 H429.
  unfold archive_today_attempt, try_except_RequestException, bind, request.
  rewrite Hcookie. cbn [sent count_request record net]. rewrite Hsubmit.
  destruct (Z.eqb_spec (status_code response) 200); [contradiction|].
  destruct (Z.eqb_spec (status_code response) 429); [contradiction|].
  now destruct (attempt <? max_retries - 1).
Qed.

(** X11. Unlike Service A, [archive_url_archive_today] tries again after a
    response whose status is neither 200 nor 429: with the default bound of
    3, when every submit is answered so, it returns [(False, None)] after
    three rounds of GET and POST, 6 requests, with a pause of 1 and of 2
    seconds between the rounds. *)
Theorem archive_url_archive_today_other_status (url : string) (w : World) :
  (forall k, (k < 6)%nat ->
             exists r, net w (sent w + k)%nat = Responds r
                       /\ status_code r <> 200 /\ status_code r <> 429) ->
  exists w',
    archive_url_archive_today url 3 w = (Ok (false, None), w')
    /\ trace w'
       = trace w ++ [Get "https://archive.today/";
                     Post archive_endpoint ("url=" +:+ quote url); Sleep (2 ^ 0);
                     Get "https://archive.today/";
                     Post archive_endpoint ("url=" +:+ quote url); Sleep (2 ^ 1);
                     Get "https://archive.today/";
                     Post archive_endpoint ("url=" +:+ quote url)]
    /\ sent w' = (sent w + 6)%nat.
Proof.
  intros H.
  destruct (H 0%nat ltac:(lia)) as [r0 [N0 _]].
  destruct (H 1%nat ltac:(lia)) as [r1 [N1 [A1 B1]]].
  destruct (H 2%nat ltac:(lia)) as [r2 [N2 _]].
  destruct (H 3%nat ltac:(lia)) as [r3 [N3 [A3 B3]]].
  destruct (H 4%nat ltac:(lia)) as [r4 [N4 _]].
  destruct (H 5%nat ltac:(lia)) as [r5 [N5 [A5 B5]]].
  rewrite Nat.add_0_r in N0. rewrite Nat.add_1_r in N1.
  replace (sent w + 2)%nat with (S (S (sent w))) in N2 by lia.
  replace (sent w + 3)%nat with (S (S (S (sent w)))) in N3 by lia.
  replace (sent w + 4)%nat with (S (S (S (S (sent w))))) in N4 by lia.
  replace (sent w + 5)%nat with (S (S (S (S (S (sent w)))))) in N5 by lia.
  unfold archive_url_archive_today. change (range 3) with [0; 1; 2].
  erewrite for_each_continue
    by (rewrite (archive_today_attempt_other _ _ _ _ r0 r1) by assumption;
        reflexivity).
  erewrite for_each_continue
    by (rewrite (archive_today_attempt_other _ _ _ _ r2 r3) by assumption;
        reflexivity).
  erewrite for_each_return
    by (rewrite (archive_today_attempt_other _ _ _ _ r4 r5) by assumption;
        reflexivity).
  eexists. split; [reflexivity|]. cbn. split.
  - rewrite <- !app_assoc. reflexivity.
  - lia.
Qed.

Lemma archive_url_archive_today_other_status_witness :
  let url := "https://example.com" in
  exists w',
    archive_url_archive_today url 3 (world_answering (Responds server_error))
    = (Ok (false, None), w')
    /\ trace w'
       = [] ++ [Get "https://archive.today/";
                Post archive_endpoint ("url=" +:+ quote url); Sleep (2 ^ 0);
                Get "https://archive.today/";
                Post archive_endpoint ("url=" +:+ quote url); Sleep (2 ^ 1);
                Get "https://archive.today/";
                Post archive_endpoint ("url=" +:+ quote url)]
    /\ sent w' = (0 + 6)%nat.
Proof.
  intros url.
  apply (archive_url_archive_today_other_status url
           (world_answering (Responds server_error))).
  intros k _. exists server_error. repeat split; discriminate.
Defined.

Lemma archive_today_attempt_session_fails url max_retries attempt w :
  net w (sent w) = Fails ->
  archive_today_attempt url max_retries attempt w
  = if attempt <? max_retries - 1
    then (Ok None,
          record (Sleep (2 ^ attempt))
            (count_request (record (Get "https://archive.today/") w)))
    else (Ok (Some (false, None)),
          count_request (record (Get "https://archive.today/") w)).
Proof.
  intros Hnet.
  unfold archive_today_attempt, try_except_RequestException, bind, request.
  rewrite Hnet. now destruct (attempt <? max_retries - 1).
Qed.

(** X12. When the GET that opens the session raises a [RequestException],
    [archive_url_archive_today] does not send the POST of that round: with
    the default bound of 3 and every session GET failing, it returns
    [(False, None)] after 3 GETs and no POST. *)
Theorem archive_url_archive_today_session_fails (url : string) (w : World) :
  (forall k, (k < 3)%nat -> net w (sent w + k)%nat = Fails) ->
  exists w',
    archive_url_archive_today url 3 w = (Ok (false, None), w')
    /\ trace w' = trace w ++ [Get "https://archive.today/"; Sleep (2 ^ 0);
                              Get "https://archive.today/"; Sleep (2 ^ 1);
                              Get "https://archive.today/"]
    /\ sent w' = (sent w + 3)%nat.
Proof.
  intros Hfails.
  pose proof (Hfails 0%nat ltac:(lia)) as N0.
  pose proof (Hfails 1%nat ltac:(lia)) as N1.
  pose proof (Hfails 2%nat ltac:(lia)) as N2.
  rewrite Nat.add_0_r in N0. rewrite Nat.add_1_r in N1.
  replace (sent w + 2)%nat with (S (S (sent w))) in N2 by lia.
  unfold archive_url_archive_today. change (range 3) with [0; 1; 2].
  erewrite for_each_continue
    by (rewrite archive_today_attempt_session_fails by exact N0; reflexivity).
  erewrite for_each_continue
    by (rewrite archive_today_attempt_session_fails by exact N1; reflexivity).
  erewrite for_each_return
    by (rewrite archive_today_attempt_session_fails by exact N2; reflexivity).
  eexists. split; [reflexivity|]. cbn. split.
  - rewrite <- !app_assoc. reflexivity.
  - lia.
Qed.

Lemma archive_url_archive_today_session_fails_witness :
  exists w',
    archive_url_archive_today "https://example.com" 3 (world_answering Fails)
    = (Ok (false, None), w')
    /\ trace w' = [] ++ [Get "https://archive.today/"; Sleep (2 ^ 0);
                         Get "https://archive.today/"; Sleep (2 ^ 1);
                         Get "https://archive.today/"]
    /\ sent w' = (0 + 3)%nat.
Proof.
  apply (archive_url_archive_today_session_fails "https://example.com"
           (world_answering Fails)).
  intros k _. reflexivity.
Defined.

Lemma range_nonpositive n : n <= 0 -> range n = [].
Proof.
  intros H. unfold range. destruct n as [|p|p]; try reflexivity. lia.
Qed.

(** X13. With a bound [max_retries] of zero or less, both service functions
    return [(False, None)] without a request, a pause or any other effect. *)
Theorem no_attempt_without_retries (url : string) (max_retries : Z) (w : World) :
  max_retries <= 0 ->
  archive_url_wayback url max_retries w = (Ok (false, None), w)
  /\ archive_url_archive_today url max_retries w = (Ok (false, None), w).
Proof.
  intros H. unfold archive_url_wayback, archive_url_archive_today.
  now rewrite (range_nonpositive _ H).
Qed.

Lemma no_attempt_without_retries_witness :
  let w := world_answering (Responds archived_ok) in
  archive_url_wayback "https://example.com" 0 w = (Ok (false, None), w)
  /\ archive_url_archive_today "https://example.com" 0 w = (Ok (false, None), w).
Proof.
  intros w. apply (no_attempt_without_retries "https://example.com" 0 w). lia.
Defined.

Ltac emits_all :=
  repeat match goal with
         | |- emits _ (ret _) => apply emits_ret
         | |- emits _ (bind _ _) => apply emits_bind; [|intros ?]
         | |- emits _ (sleep _) => apply emits_effect
         | |- emits _ (request _) => apply emits_request
         | |- emits _ (try_except_RequestException _ _) => apply emits_try
         | |- emits _ (if ?b then _ else _) => destruct b
         | |- emits _ (match ?x with _ => _ end) => destruct x
         end.

Lemma wayback_attempt_extends url max_retries attempt :
  emits (fun _ => True) (wayback_attempt url max_retries attempt).
Proof. unfold wayback_attempt. emits_all; exact I. Qed.

Lemma archive_today_attempt_extends url max_retries attempt :
  emits (fun _ => True) (archive_today_attempt url max_retries attempt).
Proof. unfold archive_today_attempt. emits_all; exact I. Qed.

Lemma emits_anything {A} (c : M A) P :
  emits P c -> forall w r w', c w = (r, w') -> exists t, trace w' = trace w ++ t.
Proof. intros H w r w' E. destruct (H _ _ _ E) as [t [T _]]. eauto. Qed.

(** the first effect of a loop of attempts is the first effect of its first
    round *)
Lemma for_each_starts {A R} (body : A -> M (option R)) x xs after e :
  (forall y, emits (fun _ => True) (body y)) ->
  emits (fun _ => True) after ->
  (forall w r w', body x w = (r, w') -> exists t, trace w' = trace w ++ e :: t) ->
  forall w r w',
    for_each body (x :: xs) after w = (r, w') ->
    exists t, trace w' = trace w ++ e :: t.
Proof.
  intros Hbody Hafter Hfirst w r w'. cbn [for_each]. unfold bind.
  destruct (body x w) as [[o|ex] w1] eqn:E1;
    destruct (Hfirst _ _ _ E1) as [t1 T1].
  - intros H.
    assert (T2 : exists t2, trace w' = trace w1 ++ t2).
    { destruct o as [v|].
      - injection H as <- <-. exists []. now rewrite app_nil_r.
      - eapply (emits_anything _ (fun _ => True)); [|exact H].
        now apply emits_for_each. }
    destruct T2 as [t2 T2]. exists (t1 ++ t2).
    rewrite T2, T1, <- app_assoc. reflexivity.
  - intros [= <- <-]. eauto.
Qed.

Lemma request_then_starts {A} e (k : Response -> M A) (handler : M A) :
  (forall response, emits (fun _ => True) (k response)) ->
  emits (fun _ => True) handler ->
  forall w r w',
    try_except_RequestException (bind (request e) k) handler w = (r, w') ->
    exists t, trace w' = trace w ++ e :: t.
Proof.
  intros Hk Hh w r w'. unfold try_except_RequestException, bind, request.
  destruct (net w (sent w)) as [response|].
  - destruct (k response (count_request (record e w))) as [[a|ex] w1] eqn:E.
    + intros [= <- <-]. destruct (Hk _ _ _ _ E) as [t [T _]].
      exists t. rewrite T. cbn. now rewrite <- app_assoc.
    + destruct (Hk _ _ _ _ E) as [t [T _]].
      assert (Hout : exists t', trace w1 = trace w ++ e :: t').
      { exists t. rewrite T. cbn. now rewrite <- app_assoc. }
      destruct ex; try (intros [= <- <-]; exact Hout).
      intros H. destruct (Hh _ _ _ H) as [t2 [T2 _]].
      destruct Hout as [t' T']. exists (t' ++ t2).
      rewrite T2, T', <- app_assoc. reflexivity.
  - intros H. destruct (Hh _ _ _ H) as [t2 [T2 _]].
    exists t2. rewrite T2. cbn. now rewrite <- app_assoc.
Qed.

Lemma archive_url_wayback_starts url w r w' :
  archive_url_wayback url 3 w = (r, w') ->
  exists t, trace w' = trace w ++ Get (wayback_endpoint url) :: t.
Proof.
  unfold archive_url_wayback. change (range 3) with [0; 1; 2].
  apply for_each_starts.
  - intros y. apply wayback_attempt_extends.
  - apply emits_ret.
  - intros w0 r0 w0'. unfold wayback_attempt. apply request_then_starts.
    + intros response. emits_all; exact I.
    + emits_all; exact I.
Qed.

Lemma archive_url_archive_today_starts url w r w' :
  archive_url_archive_today url 3 w = (r, w') ->
  exists t, trace w' = trace w ++ Get "https://archive.today/" :: t.
Proof.
  unfold archive_url_archive_today. change (range 3) with [0; 1; 2].
  apply for_each_starts.
  - intros y. apply archive_today_attempt_extends.
  - apply emits_ret.
  - intros w0 r0 w0'. unfold archive_today_attempt. apply request_then_starts.
    + intros response. emits_all; exact I.
    + emits_all; exact I.
Qed.

Lemma archive_url_trace url w r w' :
  archive_url url w = (r, w') ->
  exists t1 t2,
    trace w' = trace w
               ++ [Call_archive_url url; SleepUniform 1 3;
                   Get (wayback_endpoint url)] ++ t1
               ++ [SleepUniform 2 5; Get "https://archive.today/"] ++ t2.
Proof.
  unfold archive_url, bind, sleep_uniform, effect. cbv beta iota zeta.
  destruct (archive_url_wayback url 3
              (record (SleepUniform 1 3) (record (Call_archive_url url) w)))
    as [[[b1 o1]|e] w1] eqn:E1.
  - destruct (archive_url_wayback_starts _ _ _ _ E1) as [t1 T1].
    destruct (archive_url_archive_today url 3 (record (SleepUniform 2 5) w1))
      as [[[b2 o2]|e] w2] eqn:E2.
    all: destruct (archive_url_archive_today_starts _ _ _ _ E2) as [t2 T2].
    all: cbv beta iota zeta.
    all: intros H; injection H as <- <-.
    all: exists t1, t2; rewrite T2; cbn [trace record]; rewrite T1.
    all: cbn [trace record]; rewrite <- !app_assoc; reflexivity.
  - exfalso.
    destruct (archive_url_wayback_returns url 3
                (record (SleepUniform 1 3) (record (Call_archive_url url) w)))
      as [a [w2 [E _]]].
    rewrite E in E1. discriminate.
Qed.

(** X14. One call of [archive_url] always contacts both services, the second
    whatever the first answered: after the entry and a pause of 1 to 3
    seconds comes a GET to the save endpoint of the first, and, once the
    first is done, a pause of 2 to 5 seconds and a GET to the second. *)
Theorem archive_url_contacts_both (url : string) (w : World)
  (r : result (gmap string ServiceResult)) (w' : World) :
  archive_url url w = (r, w') ->
  exists t1 t2,
    trace w' = trace w
               ++ [Call_archive_url url; SleepUniform 1 3;
                   Get (wayback_endpoint url)] ++ t1
               ++ [SleepUniform 2 5; Get "https://archive.today/"] ++ t2.
Proof. apply archive_url_trace. Qed.

Lemma archive_url_contacts_both_witness :
  let url := "https://example.com" in
  let w := world_answering (Responds archived_ok) in
  exists t1 t2,
    trace (snd (archive_url url w))
    = trace w
      ++ [Call_archive_url url; SleepUniform 1 3; Get (wayback_endpoint url)] ++ t1
      ++ [SleepUniform 2 5; Get "https://archive.today/"] ++ t2.
Proof.
  intros url w.
  apply (archive_url_contacts_both url w (fst (archive_url url w))).
  apply surjective_pairing.
Defined.

End ServiceBounds.

Section FilterProperties.
Import Extract Services Orchestrator Invariants Runs.

Lemma elem_of_add_path path changed p :
  p ∈ add_path path changed <->
  p ∈ changed \/ (path = Some p /\ p <> EmptyString).
Proof.
  unfold add_path. destruct path as [q|].
  - destruct q as [|c q]; cbn [Str.nonempty].
    + split; [tauto|]. intros [H|[[= <-] H]]; [exact H | congruence].
    + rewrite elem_of_union, elem_of_singleton. split.
      * intros [H| ->]; [now left|]. right. split; [reflexivity | discriminate].
      * intros [H|[[= ->] _]]; auto.
  - split; [tauto|]. intros [H|[H _]]; [exact H | discriminate].
Qed.

(** the loop over the diff, when no path is missing *)
Lemma changed_in_present items :
  (forall a b, In (a, b) items -> is_Some a /\ is_Some b) ->
  forall acc,
  exists changed,
    changed_in items acc = Some changed
    /\ forall p,
        p ∈ changed <->
        p ∈ acc
        \/ (p <> EmptyString
            /\ exists a b,
                In (Some a, Some b) items /\ (p = a \/ p = b)
                /\ is_yaml_name a || is_yaml_name b = true).
Proof.
  induction items as [|[a b] items IH]; intros Hpresent acc.
  - exists acc. split; [reflexivity|]. intros p. split; [tauto|].
    intros [H|[_ [a [b [[] _]]]]]. exact H.
  - destruct (Hpresent a b (or_introl eq_refl)) as [[a' ->] [b' ->]].
    assert (Hrest : forall a b, In (a, b) items -> is_Some a /\ is_Some b).
    { intros x y H. apply Hpresent. now right. }
    cbn [changed_in endswith_yaml].
    assert (Hadd : forall acc',
              (forall p, p ∈ acc' <->
                         p ∈ acc \/ (p <> EmptyString /\ (p = a' \/ p = b'))) ->
              is_yaml_name a' || is_yaml_name b' = true ->
              exists changed,
                changed_in items acc' = Some changed
                /\ forall p,
                    p ∈ changed <->
                    p ∈ acc
                    \/ (p <> EmptyString
                        /\ exists a b,
                            In (Some a, Some b) ((Some a', Some b') :: items)
                            /\ (p = a \/ p = b)
                            /\ is_yaml_name a || is_yaml_name b = true)).
    { intros acc' Hacc Hy. destruct (IH Hrest acc') as [changed [E Hc]].
      exists changed. split; [exact E|]. intros p. rewrite Hc, Hacc. split.
      - intros [[H|[Hne Hp]]|[Hne [a [b [Hin Hab]]]]].
        + now left.
        + right. split; [exact Hne|]. exists a', b'. split; [now left|]. auto.
        + right. split; [exact Hne|]. exists a, b. split; [now right|].
          exact Hab.
      - intros [H|[Hne [a [b [[[= <- <-]|Hin] Hab]]]]].
        + left. now left.
        + left. right. tauto.
        + right. split; [exact Hne|]. exists a, b. auto. }
    assert (Hboth : forall p,
              p ∈ add_path (Some b') (add_path (Some a') acc) <->
              p ∈ acc \/ (p <> EmptyString /\ (p = a' \/ p = b'))).
    { intros p. rewrite !elem_of_add_path. split.
      - intros [[H|[[= ->] Hne]]|[[= ->] Hne]]; auto.
      - intros [H|[Hne [-> | ->]]]; auto. }
    destruct (is_yaml_name a') eqn:Ya.
    + apply Hadd; [exact Hboth | reflexivity].
    + destruct (is_yaml_name b') eqn:Yb.
      * apply Hadd; [exact Hboth | reflexivity].
      * destruct (IH Hrest acc) as [changed [E Hc]].
        exists changed. split; [exact E|]. intros p. rewrite Hc. split.
        -- intros [H|[Hne [a [b [Hin Hab]]]]]; [now left|].
           right. split; [exact Hne|]. exists a, b. split; [now right|].
           exact Hab.
        -- intros [H|[Hne [a [b [[[= <- <-]|Hin] [Hp Hab]]]]]]; [now left | |].
           ++ rewrite Ya, Yb in Hab. discriminate.
           ++ right. split; [exact Hne|]. exists a, b. auto.
Qed.

Lemma get_changed_yaml_files_paths_aux items p :
  (forall a b, In (a, b) items -> is_Some a /\ is_Some b) ->
  p ∈ get_changed_yaml_files (Diff items) ->
  p <> EmptyString
  /\ exists a b,
      In (Some a, Some b) items /\ (p = a \/ p = b)
      /\ is_yaml_name a || is_yaml_name b = true.
Proof.
  intros Hpresent. unfold get_changed_yaml_files.
  destruct (changed_in_present items Hpresent ∅) as [changed [-> Hc]].
  rewrite Hc. intros [H|H]; [|exact H].
  now apply not_elem_of_empty in H.
Qed.

(** X15. When every item of the diff has both its paths,
    [get_changed_yaml_files] returns exactly the non-empty paths of the items
    of which one path ends in [.yaml] or [.yml]: both paths of such an item,
    so that a file renamed to or from a YAML name brings its other name
    along. *)
Theorem get_changed_yaml_files_paths
  (items : list (option string * option string)) (p : string) :
  (forall a b, In (a, b) items -> is_Some a /\ is_Some b) ->
  (p ∈ get_changed_yaml_files (Diff items) <->
   p <> EmptyString
   /\ exists a b,
       In (Some a, Some b) items /\ (p = a \/ p = b)
       /\ is_yaml_name a || is_yaml_name b = true).
Proof.
  intros Hpresent. unfold get_changed_yaml_files.
  destruct (changed_in_present items Hpresent ∅) as [changed [-> Hc]].
  rewrite Hc. split; [|tauto]. intros [H|H]; [|exact H].
  now apply not_elem_of_empty in H.
Qed.

Lemma get_changed_yaml_files_paths_witness :
  let items := [(Some "notes.txt", Some "notes.yaml");
                (Some "README.md", Some "README.md")] in
  "notes.txt" ∈ get_changed_yaml_files (Diff items) <->
  "notes.txt" <> EmptyString
  /\ exists a b,
      In (Some a, Some b) items /\ ("notes.txt" = a \/ "notes.txt" = b)
      /\ is_yaml_name a || is_yaml_name b = true.
Proof.
  intros items. apply (get_changed_yaml_files_paths items "notes.txt").
  intros a b [[= <- <-]|[[= <- <-]|[]]]; split; eauto.
Defined.

Lemma changed_in_missing items :
  forall acc a b,
    In (a, b) items ->
    a = None \/ (exists a', a = Some a' /\ is_yaml_name a' = false /\ b = None) ->
    changed_in items acc = None.
Proof.
  induction items as [|[x y] items IH]; intros acc a b Hin Hmiss;
    [contradiction|].
  cbn [changed_in]. destruct Hin as [[= -> ->]|Hin].
  - destruct Hmiss as [-> |[a' [-> [Ya ->]]]]; [reflexivity|].
    cbn [endswith_yaml]. now rewrite Ya.
  - destruct (endswith_yaml x) as [[]|]; [eauto | | reflexivity].
    destruct (endswith_yaml y) as [[]|]; eauto.
Qed.

(** X16. One item of the diff with a missing path that the loop asks for (the
    first path, or the second when the first is not a YAML name) makes
    [get_changed_yaml_files] return the empty set, whatever the other items
    are. *)
Theorem get_changed_yaml_files_missing_path
  (items : list (option string * option string)) (a b : option string) :
  In (a, b) items ->
  a = None \/ (exists a', a = Some a' /\ is_yaml_name a' = false /\ b = None) ->
  get_changed_yaml_files (Diff items) = ∅.
Proof.
  intros Hin Hmiss. unfold get_changed_yaml_files.
  now rewrite (changed_in_missing items ∅ a b Hin Hmiss).
Qed.

Lemma get_changed_yaml_files_missing_path_witness :
  get_changed_yaml_files
    (Diff [(Some "a.yaml", Some "a.yaml"); (None, Some "new.yaml")]) = ∅.
Proof.
  apply (get_changed_yaml_files_missing_path _ None (Some "new.yaml")).
  - right. now left.
  - now left.
Defined.

(** X17. A commit that touches no YAML file (every item of the diff with
    both paths, neither ending in [.yaml] or [.yml]; the empty diff too)
    gives the empty set, exactly like a failed query: [main] then works on
    all the extracted files. *)
Theorem commit_without_yaml_processes_all
  (items : list (option string * option string))
  (walk : list (string * list string)) (parse : string -> loaded) :
  (forall a b, In (a, b) items ->
     exists a' b', a = Some a' /\ b = Some b'
                   /\ is_yaml_name a' = false /\ is_yaml_name b' = false) ->
  get_changed_yaml_files (Diff items) = ∅
  /\ main walk parse (Diff items) = main_unfiltered walk parse.
Proof.
  intros Hnone.
  assert (E : get_changed_yaml_files (Diff items) = ∅).
  { apply elem_of_equiv_empty_L. intros p Hp.
    apply get_changed_yaml_files_paths_aux in Hp.
    - destruct Hp as [_ [a [b [Hin [_ Hy]]]]].
      destruct (Hnone _ _ Hin) as [a' [b' [[= <-] [[= <-] [Ya Yb]]]]].
      rewrite Ya, Yb in Hy. discriminate.
    - intros a b Hin.
      destruct (Hnone _ _ Hin) as [a' [b' [-> [-> _]]]]. eauto. }
  split; [exact E|]. unfold main, main_unfiltered. now rewrite E.
Qed.

Lemma commit_without_yaml_processes_all_witness :
  let items := [(Some "README.md", Some "README.md")] in
  let walk := [(".", ["a.yaml"])] in
  let parse := fun _ : string => YAMLError in
  get_changed_yaml_files (Diff items) = ∅
  /\ main walk parse (Diff items) = main_unfiltered walk parse.
Proof.
  intros items walk parse.
  apply (commit_without_yaml_processes_all items walk parse).
  intros a b [[= <- <-]|[]]. exists "README.md", "README.md". repeat split.
Defined.

Lemma startswith_append_l p a b :
  Str.startswith p a = true -> Str.startswith p (a +:+ b) = true.
Proof.
  unfold Str.startswith. revert a. induction p as [|c p IH]; intros a H.
  - now destruct (a +:+ b).
  - destruct a as [|c' a]; [discriminate|].
    change (String c' a +:+ b) with (String c' (a +:+ b)).
    cbn [String.prefix] in *. destruct (ascii_dec c c'); [|discriminate].
    now apply IH.
Qed.

Lemma path_join_dot root file :
  root = "." \/ Str.startswith "./" root = true ->
  Str.startswith "/" file = false ->
  Str.startswith "./" (path_join root file) = true.
Proof.
  intros Hroot Hfile. unfold path_join. rewrite Hfile.
  destruct Hroot as [-> |Hroot].
  { change (if negb (Str.nonempty ".") || Str.endswith "/" "."
            then "." +:+ file else "." +:+ "/" +:+ file)
      with ("./" +:+ file).
    apply startswith_append. }
  destruct (negb (Str.nonempty root) || Str.endswith "/" root);
    now apply startswith_append_l.
Qed.

(** X18. [os.walk('.')] names every directory [.] or [./...], so every path
    that the extractor reports begins with [./]; when no changed path begins
    so (the repository reports paths from its root, like [data/a.yaml]) and
    the changed set is not empty, the filter of [main] keeps no file at
    all. *)
Theorem changed_filter_keeps_nothing
  (walk : list (string * list string)) (parse : string -> loaded)
  (all_files_links : list (string * list string)) (changed_files : gset string) :
  (forall root files, In (root, files) walk ->
     (root = "." \/ Str.startswith "./" root = true)
     /\ forall file, In file files -> Str.startswith "/" file = false) ->
  (forall p, p ∈ changed_files -> Str.startswith "./" p = false) ->
  changed_files <> ∅ ->
  get_links_from_all_yaml_files walk parse = Ok all_files_links ->
  restrict_to_changed changed_files all_files_links = [].
Proof.
  intros Hwalk Hchanged Hne Hall. unfold restrict_to_changed.
  rewrite bool_decide_eq_false_2 by exact Hne.
  apply elem_of_nil_inv. intros [f links] Hin.
  apply list_elem_of_filter in Hin as [Hf Hin]. cbn [fst] in Hf.
  apply bool_decide_unpack in Hf. apply list_elem_of_In in Hin.
  apply (links_of_files_entries _ _ _ Hall) in Hin as [Hin _].
  apply get_all_yaml_files_In in Hin as [root [files [file [Hdir [Hfile [_ [_ ->]]]]]]].
  destruct (Hwalk _ _ Hdir) as [Hroot Hfiles].
  specialize (Hchanged _ Hf).
  rewrite (path_join_dot root file Hroot (Hfiles _ Hfile)) in Hchanged.
  discriminate.
Qed.

Lemma changed_filter_keeps_nothing_witness :
  let walk := [(".", ["a.yaml"]); ("./data", ["b.yml"])] in
  let parse := fun _ : string =>
    Parsed (YDict [(YStr "link", YStr "https://example.com")]) in
  restrict_to_changed {["data/b.yml"]}
    [("./a.yaml", ["https://example.com"]); ("./data/b.yml", ["https://example.com"])]
  = [].
Proof.
  intros walk parse.
  apply (changed_filter_keeps_nothing walk parse).
  - intros root files [[= <- <-]|[[= <- <-]|[]]]; split;
      try (now left); try (now right);
      intros file [<-|[]]; reflexivity.
  - intros p Hp. apply elem_of_singleton in Hp as ->. reflexivity.
  - intros H. apply (f_equal (fun s : gset string => bool_decide ("data/b.yml" ∈ s))) in H.
    vm_compute in H. discriminate.
  - vm_compute. reflexivity.
Defined.

End FilterProperties.

Section RunProperties.
Import Extract Services Json Orchestrator Outcomes Invariants Runs.

(** what a round of the loop that returns has done *)
Lemma process_link_Ok file_path link log_data w log_data' w' :
  process_link file_path link log_data w = (Ok log_data', w') ->
  (already_archived log_data link = true /\ log_data' = log_data /\ w' = w)
  \/ (already_archived log_data link = false
      /\ exists archive_results timestamp,
          log_data' = merge file_path link timestamp archive_results log_data
          /\ synced w' log_data').
Proof.
  unfold process_link. destruct (already_archived log_data link).
  - intros [= <- <-]. now left.
  - intros H. right. split; [reflexivity|].
    apply bind_Ok in H as [results [w1 [_ H]]].
    apply bind_Ok in H as [timestamp [w2 [_ H]]].
    apply bind_Ok in H as [[] [w3 [Hsave H]]].
    apply bind_Ok in H as [[] [w4 [Hsleep H]]].
    injection H as <- <-. exists results, timestamp. split; [reflexivity|].
    injection Hsleep as <-. unfold synced. cbn [disk record].
    unfold save_log in Hsave.
    destruct (disk w2 !! LOG_DIR) as [[|c]|]; try discriminate.
    destruct (disk w2 !! LOG_FILE) as [[|c]|]; try discriminate;
      injection Hsave as <-; cbn [disk set_disk]; apply lookup_insert_eq.
Qed.

(** a property of the log and the world that every round keeps is kept by
    the loop over the links of a file and by the loop over the files *)
Lemma process_links_steps (R : LogData -> World -> LogData -> World -> Prop)
  file_path links :
  (forall l w, R l w l w) ->
  (forall l1 w1 l2 w2 l3 w3, R l1 w1 l2 w2 -> R l2 w2 l3 w3 -> R l1 w1 l3 w3) ->
  (forall f link l w l' w',
     process_link f link l w = (Ok l', w') -> R l w l' w') ->
  forall l w l' w',
    process_links file_path links l w = (Ok l', w') -> R l w l' w'.
Proof.
  intros Hrefl Htrans Hstep.
  induction links as [|link links IH]; intros l w l' w' H.
  - injection H as <- <-. apply Hrefl.
  - simpl in H. apply bind_Ok in H as [l1 [w1 [E H]]].
    eapply Htrans; [eapply Hstep; exact E | now apply IH].
Qed.

Lemma process_files_steps (R : LogData -> World -> LogData -> World -> Prop)
  all_files_links :
  (forall l w, R l w l w) ->
  (forall l1 w1 l2 w2 l3 w3, R l1 w1 l2 w2 -> R l2 w2 l3 w3 -> R l1 w1 l3 w3) ->
  (forall f link l w l' w',
     process_link f link l w = (Ok l', w') -> R l w l' w') ->
  forall l w l' w',
    process_files all_files_links l w = (Ok l', w') -> R l w l' w'.
Proof.
  intros Hrefl Htrans Hstep.
  induction all_files_links as [|[file_path links] rest IH]; intros l w l' w' H.
  - injection H as <- <-. apply Hrefl.
  - simpl in H. apply bind_Ok in H as [l1 [w1 [E H]]].
    eapply Htrans;
      [eapply (process_links_steps R); eauto | now apply IH].
Qed.

Lemma load_synced w log_data :
  synced w log_data -> load_existing_log w = (Ok (encode_log log_data), w).
Proof.
  unfold synced, load_existing_log, bind, path_exists. intros H.
  rewrite H, bool_decide_eq_true_2 by eauto. cbv beta iota. rewrite H.
  now rewrite json_loads_dumps by apply document_log.
Qed.

(** X19. After every round of the main loop that archived a link, the log
    file holds the log of that moment; so after a run that returns, a file
    that held the log at the start holds the log at the end, and
    [load_existing_log] gives that log back. *)
Theorem log_file_follows_log (all_files_links : list (string * list string))
  (log_data : LogData) (w : World) (log_data' : LogData) (w' : World) :
  process_files all_files_links log_data w = (Ok log_data', w') ->
  synced w log_data ->
  synced w' log_data'
  /\ load_existing_log w' = (Ok (encode_log log_data'), w')
  /\ (forall f link l1 w1 l2 w2,
        process_link f link l1 w1 = (Ok l2, w2) ->
        already_archived l1 link = false -> synced w2 l2).
Proof.
  intros Hrun Hsync.
  assert (Hstep : forall f link l1 w1 l2 w2,
            process_link f link l1 w1 = (Ok l2, w2) ->
            synced w1 l1 -> synced w2 l2).
  { intros f link l1 w1 l2 w2 H Hs.
    apply process_link_Ok in H as [[_ [-> ->]]|[_ [rs [ts [_ H]]]]];
      assumption. }
  assert (Hend : synced w' log_data').
  { revert Hsync.
    apply (process_files_steps (fun l w l' w' => synced w l -> synced w' l')
             all_files_links); eauto. }
  split; [exact Hend|]. split; [now apply load_synced|].
  intros f link l1 w1 l2 w2 H Hnot.
  apply process_link_Ok in H as [[Hyes _]|[_ [rs [ts [_ H]]]]];
    [congruence | exact H].
Qed.

Lemma log_file_follows_log_witness :
  let all_files_links := [("./b.yaml", ["https://example.org/x"])] in
  let w := offline_world one_record_log in
  let run := process_files all_files_links one_record_log w in
  synced (snd run) (final_log one_record_log run)
  /\ load_existing_log (snd run)
     = (Ok (encode_log (final_log one_record_log run)), snd run)
  /\ (forall f link l1 w1 l2 w2,
        process_link f link l1 w1 = (Ok l2, w2) ->
        already_archived l1 link = false -> synced w2 l2).
Proof.
  intros all_files_links w run.
  apply (log_file_follows_log all_files_links one_record_log w).
  - vm_compute. reflexivity.
  - reflexivity.
Defined.

Lemma grows_refl entry : grows entry entry.
Proof. repeat split. exists []. now rewrite app_nil_r. Qed.

Lemma grows_trans e1 e2 e3 : grows e1 e2 -> grows e2 e3 -> grows e1 e3.
Proof.
  intros [O1 [F1 [m1 M1]]] [O2 [F2 [m2 M2]]]. repeat split; try congruence.
  exists (m1 ++ m2). now rewrite M2, M1, app_assoc.
Qed.

Lemma kept_refl log_data : kept log_data log_data.
Proof. intros link entry H. exists entry. split; [exact H | apply grows_refl]. Qed.

Lemma kept_trans l1 l2 l3 : kept l1 l2 -> kept l2 l3 -> kept l1 l3.
Proof.
  intros H12 H23 link e1 H1. destruct (H12 _ _ H1) as [e2 [H2 G12]].
  destruct (H23 _ _ H2) as [e3 [H3 G23]]. exists e3. split; [exact H3|].
  eapply grows_trans; eauto.
Qed.

Lemma merge_kept file_path link timestamp archive_results log_data :
  kept log_data (merge file_path link timestamp archive_results log_data).
Proof.
  intros l e He. unfold merge.
  destruct (archived_links log_data !! link) as [entry|] eqn:E; cbn.
  - destruct (decide (link = l)) as [-> |Hne].
    + rewrite lookup_insert_eq. eexists. split; [reflexivity|].
      rewrite E in He. injection He as <-. repeat split. cbn.
      case_bool_decide; [exists [] | exists [file_path]];
        now rewrite ?app_nil_r.
    + rewrite lookup_insert_ne by exact Hne. exists e. split; [exact He|].
      apply grows_refl.
  - destruct (decide (link = l)) as [-> |Hne]; [congruence|].
    rewrite lookup_insert_ne by exact Hne. exists e. split; [exact He|].
    apply grows_refl.
Qed.

Lemma process_link_kept f link l w l' w' :
  process_link f link l w = (Ok l', w') -> kept l l'.
Proof.
  intros H. apply process_link_Ok in H as [[_ [-> _]]|[_ [rs [ts [-> _]]]]].
  - apply kept_refl.
  - apply merge_kept.
Qed.

(** X20. A run of the main loop that returns deletes no record: every record
    of the log is still there afterwards, with the same [original_url] and
    [first_seen], and with the files it listed before, in the same order,
    followed by those added. *)
Theorem records_are_kept (all_files_links : list (string * list string))
  (log_data : LogData) (w : World) (log_data' : LogData) (w' : World)
  (link : string) (entry : LinkRecord) :
  process_files all_files_links log_data w = (Ok log_data', w') ->
  archived_links log_data !! link = Some entry ->
  exists entry',
    archived_links log_data' !! link = Some entry'
    /\ original_url entry' = original_url entry
    /\ first_seen entry' = first_seen entry
    /\ exists more, files entry' = files entry ++ more.
Proof.
  intros Hrun Hentry.
  assert (Hkept : kept log_data log_data').
  { apply (process_files_steps (fun l _ l' _ => kept l l') all_files_links)
      with (w := w) (w' := w'); auto using kept_refl.
    - intros l1 _ l2 _ l3 _. apply kept_trans.
    - intros f lk l w0 l' w0'. apply process_link_kept. }
  exact (Hkept _ _ Hentry).
Qed.

Lemma records_are_kept_witness :
  let all_files_links := [("./b.yaml", ["https://example.com"])] in
  let w := offline_world failed_log in
  let run := process_files all_files_links failed_log w in
  exists entry',
    archived_links (final_log failed_log run) !! "https://example.com"
    = Some entry'
    /\ original_url entry' = original_url failed_entry
    /\ first_seen entry' = first_seen failed_entry
    /\ exists more, files entry' = files failed_entry ++ more.
Proof.
  intros all_files_links w run.
  apply (records_are_kept all_files_links failed_log w
           (final_log failed_log run) (snd run)).
  - vm_compute. reflexivity.
  - reflexivity.
Defined.

Lemma already_archived_present log_data link :
  already_archived log_data link = true ->
  is_Some (archived_links log_data !! link).
Proof.
  unfold already_archived.
  destruct (archived_links log_data !! link); [eauto | discriminate].
Qed.

Lemma process_link_records f link l w l' w' :
  process_link f link l w = (Ok l', w') ->
  is_Some (archived_links l' !! link).
Proof.
  intros H. apply process_link_Ok in H as [[Hyes [-> _]]|[_ [rs [ts [-> _]]]]].
  - now apply already_archived_present.
  - unfold merge. destruct (archived_links l !! link); cbn;
      rewrite lookup_insert_eq; eauto.
Qed.

Lemma kept_present l l' link :
  kept l l' -> is_Some (archived_links l !! link) ->
  is_Some (archived_links l' !! link).
Proof. intros Hk [e He]. destruct (Hk _ _ He) as [e' [He' _]]. eauto. Qed.

Lemma process_links_kept f links l w l' w' :
  process_links f links l w = (Ok l', w') -> kept l l'.
Proof.
  apply (process_links_steps (fun l _ l' _ => kept l l') f links);
    auto using kept_refl.
  - intros l1 _ l2 _ l3 _. apply kept_trans.
  - intros f0 lk l0 w0 l0' w0'. apply process_link_kept.
Qed.

Lemma process_files_kept all l w l' w' :
  process_files all l w = (Ok l', w') -> kept l l'.
Proof.
  apply (process_files_steps (fun l _ l' _ => kept l l') all);
    auto using kept_refl.
  - intros l1 _ l2 _ l3 _. apply kept_trans.
  - intros f0 lk l0 w0 l0' w0'. apply process_link_kept.
Qed.

Lemma process_links_records f links :
  forall l w l' w' link,
    process_links f links l w = (Ok l', w') -> In link links ->
    is_Some (archived_links l' !! link).
Proof.
  induction links as [|lk links IH]; intros l w l' w' link H Hin;
    [contradiction|].
  simpl in H. apply bind_Ok in H as [l1 [w1 [E H]]].
  destruct Hin as [-> |Hin]; [|eapply IH; eauto].
  eapply kept_present; [eapply process_links_kept; exact H|].
  eapply process_link_records; exact E.
Qed.

Lemma process_files_records all_files_links :
  forall log_data w log_data' w' file_path links link,
    process_files all_files_links log_data w = (Ok log_data', w') ->
    In (file_path, links) all_files_links -> In link links ->
    is_Some (archived_links log_data' !! link).
Proof.
  induction all_files_links as [|[f ls] rest IH];
    intros l w l' w' file_path links link H Hfile Hlink; [contradiction|].
  simpl in H. apply bind_Ok in H as [l1 [w1 [E H]]].
  destruct Hfile as [[= -> ->]|Hfile]; [|eapply IH; eauto].
  eapply kept_present; [eapply process_files_kept; exact H|].
  eapply process_links_records; eauto.
Qed.

(** X21. After a run of the main loop that returns, the log has a record for
    every link of every file that the run was given. *)
Theorem every_link_is_recorded (all_files_links : list (string * list string))
  (log_data : LogData) (w : World) (log_data' : LogData) (w' : World)
  (file_path : string) (links : list string) (link : string) :
  process_files all_files_links log_data w = (Ok log_data', w') ->
  In (file_path, links) all_files_links -> In link links ->
  is_Some (archived_links log_data' !! link).
Proof. apply process_files_records. Qed.

Lemma every_link_is_recorded_witness :
  let all_files_links :=
    [("./a.yaml", ["https://example.com"]); ("./b.yaml", ["https://example.org/x"])] in
  let w := offline_world one_record_log in
  let run := process_files all_files_links one_record_log w in
  is_Some (archived_links (final_log one_record_log run) !! "https://example.org/x").
Proof.
  intros all_files_links w run.
  apply (every_link_is_recorded all_files_links one_record_log w
           (final_log one_record_log run) (snd run)
           "./b.yaml" ["https://example.org/x"]).
  - vm_compute. reflexivity.
  - right. now left.
  - now left.
Defined.

Lemma unarchived_not_archived log_data link :
  archived_links log_data !! link = None
  \/ (exists entry, archived_links log_data !! link = Some entry
                    /\ unarchived entry) ->
  already_archived log_data link = false.
Proof.
  unfold already_archived. intros [-> |[entry [-> Hun]]]; [reflexivity|].
  destruct (existsb _ _) eqn:E; [|reflexivity].
  apply existsb_exists in E as [[service r] [Hin Hs]].
  apply list_elem_of_In, elem_of_map_to_list in Hin.
  cbn [snd] in Hs. rewrite (Hun _ _ Hin) in Hs. discriminate.
Qed.

(** X22. A link that the log does not have, or has with no successful
    service result, is not skipped: the round of the main loop for it starts
    with a call of [archive_url] on it. *)
Theorem unarchived_link_is_retried (file_path link : string)
  (log_data : LogData) (w : World) (r : result LogData) (w' : World) :
  archived_links log_data !! link = None
  \/ (exists entry, archived_links log_data !! link = Some entry
                    /\ unarchived entry) ->
  process_link file_path link log_data w = (r, w') ->
  exists t, trace w' = trace w ++ Call_archive_url link :: t.
Proof.
  intros Hun. unfold process_link.
  rewrite (unarchived_not_archived _ _ Hun). unfold bind at 1.
  destruct (archive_url link w) as [[results|e] w1] eqn:E.
  - destruct (archive_url_trace _ _ _ _ E) as [t1 [t2 T1]]. intros H.
    assert (T2 : exists t, trace w' = trace w1 ++ t).
    { eapply (emits_anything _ (fun _ => True)); [|exact H].
      apply emits_bind;
        [apply emits_silent, utcnow_isoformat_silent | intros timestamp].
      apply emits_bind; [apply emits_silent, save_log_silent | intros _].
      apply emits_bind; [now apply emits_effect | intros _].
      apply emits_ret. }
    destruct T2 as [t T2]. rewrite T2, T1. cbn [app].
    rewrite <- !app_assoc. cbn [app]. eexists. reflexivity.
  - intros [= <- <-]. destruct (archive_url_trace _ _ _ _ E) as [t1 [t2 T1]].
    rewrite T1. cbn [app]. eexists. reflexivity.
Qed.

Lemma unarchived_link_is_retried_witness :
  let w := offline_world failed_log in
  exists t,
    trace (snd (process_link "./a.yaml" "https://example.com" failed_log w))
    = trace w ++ Call_archive_url "https://example.com" :: t.
Proof.
  intros w.
  apply (unarchived_link_is_retried "./a.yaml" "https://example.com" failed_log w
           (fst (process_link "./a.yaml" "https://example.com" failed_log w))).
  - right. exists failed_entry. split; [reflexivity|].
    intros service r H. cbn in H.
    apply lookup_insert_Some in H as [[_ <-]|[_ H]]; [reflexivity|].
    apply lookup_insert_Some in H as [[_ <-]|[_ H]]; [reflexivity|].
    now rewrite lookup_empty in H.
  - apply surjective_pairing.
Defined.

Lemma merge_keyed file_path link timestamp archive_results log_data :
  keyed log_data ->
  keyed (merge file_path link timestamp archive_results log_data).
Proof.
  intros Hk l e. unfold merge.
  destruct (archived_links log_data !! link) as [entry|] eqn:E; cbn;
    (destruct (decide (link = l)) as [-> |Hne];
     [rewrite lookup_insert_eq; intros [= <-]; cbn; eauto
     |rewrite lookup_insert_ne by exact Hne; apply Hk]).
Qed.

(** X23. In a log that the main loop builds, every record sits under its own
    URL: when [original_url] is the key of every record, so it is after every
    run that returns, and the empty log has no record. *)
Theorem records_sit_under_their_url
  (all_files_links : list (string * list string))
  (log_data : LogData) (w : World) (log_data' : LogData) (w' : World) :
  keyed log_data ->
  process_files all_files_links log_data w = (Ok log_data', w') ->
  keyed log_data' /\ keyed (mkLogData ∅).
Proof.
  intros Hk Hrun. split.
  - revert Hk.
    apply (process_files_steps (fun l _ l' _ => keyed l -> keyed l')
             all_files_links) with (w := w) (w' := w'); eauto.
    intros f link l w0 l' w0' H Hl.
    apply process_link_Ok in H as [[_ [-> _]]|[_ [rs [ts [-> _]]]]];
      [exact Hl | now apply merge_keyed].
  - intros l e. cbn. now rewrite lookup_empty.
Qed.

Lemma records_sit_under_their_url_witness :
  let all_files_links := [("./b.yaml", ["https://example.org/x"])] in
  let w := offline_world (mkLogData ∅) in
  let run := process_files all_files_links (mkLogData ∅) w in
  keyed (final_log (mkLogData ∅) run) /\ keyed (mkLogData ∅).
Proof.
  intros all_files_links w run.
  apply (records_sit_under_their_url all_files_links (mkLogData ∅) w
           (final_log (mkLogData ∅) run) (snd run)).
  - intros l e. cbn. now rewrite lookup_empty.
  - vm_compute. reflexivity.
Defined.

Lemma keeps_disk_ret {A} (a : A) : keeps_disk (ret a).
Proof. now intros w r w' [= <- <-]. Qed.

Lemma keeps_disk_effect e : keeps_disk (effect e).
Proof. now intros w r w' [= <- <-]. Qed.

Lemma keeps_disk_request e : keeps_disk (request e).
Proof.
  intros w r w'. unfold request.
  now destruct (net w (sent w)); intros [= <- <-].
Qed.

Lemma keeps_disk_bind {A B} (c : M A) (k : A -> M B) :
  keeps_disk c -> (forall a, keeps_disk (k a)) -> keeps_disk (bind c k).
Proof.
  intros Hc Hk w r w'. unfold bind.
  destruct (c w) as [[a|e] w1] eqn:E; intros H.
  - rewrite (Hk a _ _ _ H). exact (Hc _ _ _ E).
  - injection H as <- <-. exact (Hc _ _ _ E).
Qed.

Lemma keeps_disk_try {A} (body handler : M A) :
  keeps_disk body -> keeps_disk handler ->
  keeps_disk (try_except_RequestException body handler).
Proof.
  intros Hb Hh w r w'. unfold try_except_RequestException.
  destruct (body w) as [[a|e] w1] eqn:E.
  - intros [= <- <-]. exact (Hb _ _ _ E).
  - destruct e; try (intros [= <- <-]; exact (Hb _ _ _ E)).
    intros H. rewrite (Hh _ _ _ H). exact (Hb _ _ _ E).
Qed.

Lemma keeps_disk_for_each {A R} (body : A -> M (option R)) xs after :
  (forall x, keeps_disk (body x)) -> keeps_disk after ->
  keeps_disk (for_each body xs after).
Proof.
  intros Hb Ha. induction xs as [|x xs IH]; [exact Ha|].
  cbn [for_each]. apply keeps_disk_bind; [apply Hb|].
  intros [v|]; [apply keeps_disk_ret | exact IH].
Qed.

Ltac keeps_disk_all :=
  repeat match goal with
         | |- keeps_disk (ret _) => apply keeps_disk_ret
         | |- keeps_disk (bind _ _) => apply keeps_disk_bind; [|intros ?]
         | |- keeps_disk (effect _) => apply keeps_disk_effect
         | |- keeps_disk (sleep _) => apply keeps_disk_effect
         | |- keeps_disk (sleep_uniform _ _) => apply keeps_disk_effect
         | |- keeps_disk (request _) => apply keeps_disk_request
         | |- keeps_disk (try_except_RequestException _ _) =>
             apply keeps_disk_try
         | |- keeps_disk (for_each _ _ _) =>
             apply keeps_disk_for_each; [intros ?|]
         | |- keeps_disk (if ?b then _ else _) => destruct b
         | |- keeps_disk (match ?x with _ => _ end) => destruct x
         end.

(** the services touch the network only *)
Lemma archive_url_keeps_disk url : keeps_disk (archive_url url).
Proof.
  unfold archive_url, archive_url_wayback, archive_url_archive_today,
    wayback_attempt, archive_today_attempt.
  keeps_disk_all.
Qed.

Lemma process_link_completes file_path link log_data w :
  writable w ->
  exists log_data' w',
    process_link file_path link log_data w = (Ok log_data', w')
    /\ writable w'.
Proof.
  intros [Hdir Hfile]. unfold process_link.
  destruct (already_archived log_data link).
  { exists log_data, w. now split. }
  destruct (archive_url_returns link w) as [results [w1 [E1 _]]].
  pose proof (archive_url_keeps_disk link _ _ _ E1) as D1.
  set (timestamp := clock w1 (read w1)).
  set (merged := merge file_path link timestamp results log_data).
  set (w2 := count_reading w1).
  set (w3 := set_disk (<[LOG_FILE := File (json_dumps (encode_log merged))]>
                         (disk w2)) w2).
  assert (Hsave : save_log (encode_log merged) w2 = (Ok tt, w3)).
  { assert (L1 : disk w2 !! LOG_DIR = Some Dir)
      by (cbn [disk count_reading w2]; now rewrite D1).
    assert (L2 : disk w2 !! LOG_FILE = disk w !! LOG_FILE)
      by (cbn [disk count_reading w2]; now rewrite D1).
    unfold save_log. rewrite L1, L2.
    destruct (disk w !! LOG_FILE) as [[|c]|]; [congruence | reflexivity..]. }
  exists merged, (record (Sleep 1) w3). split.
  - unfold bind. rewrite E1. unfold utcnow_isoformat. fold timestamp w2 merged.
    rewrite Hsave. reflexivity.
  - unfold writable. cbn [disk record set_disk count_reading w3 w2].
    rewrite D1, lookup_insert_eq, lookup_insert_ne by discriminate.
    split; [exact Hdir | discriminate].
Qed.

Lemma process_links_completes file_path links :
  forall log_data w,
    writable w ->
    exists log_data' w',
      process_links file_path links log_data w = (Ok log_data', w')
      /\ writable w'.
Proof.
  induction links as [|link links IH]; intros l w Hw.
  - exists l, w. now split.
  - destruct (process_link_completes file_path link l w Hw) as [l1 [w1 [E Hw1]]].
    destruct (IH l1 w1 Hw1) as [l2 [w2 [E2 Hw2]]].
    exists l2, w2. split; [|exact Hw2]. simpl. unfold bind. now rewrite E.
Qed.

Lemma process_files_completes all_files_links :
  forall log_data w,
    writable w ->
    exists log_data' w',
      process_files all_files_links log_data w = (Ok log_data', w')
      /\ writable w'.
Proof.
  induction all_files_links as [|[file_path links] rest IH]; intros l w Hw.
  - exists l, w. now split.
  - destruct (process_links_completes file_path links l w Hw) as [l1 [w1 [E Hw1]]].
    destruct (IH l1 w1 Hw1) as [l2 [w2 [E2 Hw2]]].
    exists l2, w2. split; [|exact Hw2]. simpl. unfold bind. now rewrite E.
Qed.

(** X24. With the log directory in place and no directory where the log file
    goes, the main loop always completes: no failure of the network and no
    link makes it raise, and the log file stays writable. *)
Theorem main_loop_completes (all_files_links : list (string * list string))
  (log_data : LogData) (w : World) :
  writable w ->
  exists log_data' w',
    process_files all_files_links log_data w = (Ok log_data', w')
    /\ writable w'.
Proof. apply process_files_completes. Qed.

Lemma main_loop_completes_witness :
  let all_files_links := [("./b.yaml", ["https://example.org/x"])] in
  exists log_data' w',
    process_files all_files_links one_record_log (offline_world one_record_log)
    = (Ok log_data', w')
    /\ writable w'.
Proof.
  intros all_files_links.
  apply (main_loop_completes all_files_links one_record_log
           (offline_world one_record_log)).
  split; [reflexivity | vm_compute; discriminate].
Defined.

(** X25. On a disk with neither the log directory nor the log file,
    [save_log] alone raises [OSError]; after [ensure_log_directory] the
    directory is there, [load_existing_log] gives the empty log, and a log
    that is saved is the log that is loaded. *)
Theorem first_run_creates_the_log (log_data : LogData) (w : World) :
  disk w !! LOG_DIR = None -> disk w !! LOG_FILE = None ->
  save_log (encode_log log_data) w = (Raise OSError, w)
  /\ (do_ ensure_log_directory; load_existing_log) w
     = (Ok empty_log, set_disk (<[LOG_DIR := Dir]> (disk w)) w)
  /\ exists w',
      (do_ ensure_log_directory;
       do_ save_log (encode_log log_data);
       load_existing_log) w
      = (Ok (encode_log log_data), w')
      /\ disk w' !! LOG_DIR = Some Dir.
Proof.
  intros Hdir Hfile.
  assert (Hensure : ensure_log_directory w
                    = (Ok tt, set_disk (<[LOG_DIR := Dir]> (disk w)) w)).
  { unfold ensure_log_directory, bind, path_exists, makedirs.
    rewrite Hdir. rewrite bool_decide_eq_false_2 by (intros [x Hx]; discriminate).
    cbn [negb]. now rewrite Hdir. }
  assert (Hfile' : disk (set_disk (<[LOG_DIR := Dir]> (disk w)) w) !! LOG_FILE = None).
  { cbn [disk set_disk]. now rewrite lookup_insert_ne by discriminate. }
  assert (Hdir' : disk (set_disk (<[LOG_DIR := Dir]> (disk w)) w) !! LOG_DIR = Some Dir).
  { cbn [disk set_disk]. apply lookup_insert_eq. }
  split; [|split].
  - unfold save_log. now rewrite Hdir.
  - unfold bind at 1. rewrite Hensure.
    unfold load_existing_log, bind, path_exists. rewrite Hfile'.
    rewrite bool_decide_eq_false_2 by (intros [x Hx]; discriminate).
    reflexivity.
  - eexists. unfold bind at 1. rewrite Hensure. split.
    + apply save_then_load; [apply document_log | exact Hdir' |].
      rewrite Hfile'. discriminate.
    + cbn [disk set_disk]. rewrite lookup_insert_ne by discriminate.
      apply lookup_insert_eq.
Qed.

Lemma first_run_creates_the_log_witness :
  let w := world_answering Fails in
  save_log (encode_log one_record_log) w = (Raise OSError, w)
  /\ (do_ ensure_log_directory; load_existing_log) w
     = (Ok empty_log, set_disk (<[LOG_DIR := Dir]> (disk w)) w)
  /\ exists w',
      (do_ ensure_log_directory;
       do_ save_log (encode_log one_record_log);
       load_existing_log) w
      = (Ok (encode_log one_record_log), w')
      /\ disk w' !! LOG_DIR = Some Dir.
Proof.
  intros w. apply (first_run_creates_the_log one_record_log w); reflexivity.
Defined.

Lemma process_files_synced all_files_links log_data w log_data' w' :
  process_files all_files_links log_data w = (Ok log_data', w') ->
  synced w log_data \/ archived_links log_data = ∅ ->
  synced w' log_data' \/ archived_links log_data' = ∅.
Proof.
  apply (process_files_steps
           (fun l w l' w' =>
              synced w l \/ archived_links l = ∅ ->
              synced w' l' \/ archived_links l' = ∅) all_files_links); eauto.
  intros f link l w0 l' w0' H Hl.
  apply process_link_Ok in H as [[_ [-> ->]]|[_ [rs [ts [_ H]]]]];
    [exact Hl | now left].
Qed.

(** X26. A first run of [main], on a disk with neither the log directory nor
    the log file and with an extraction that returns, completes whatever the
    network and the repository do: it creates the directory, records every
    link of the files it works on, and, when there is such a file, leaves the
    log it returns in the log file. *)
Theorem first_run_of_main (walk : list (string * list string))
  (parse : string -> loaded) (git : git_query) (w : World)
  (all_files_links : list (string * list string)) :
  disk w !! LOG_DIR = None -> disk w !! LOG_FILE = None ->
  get_links_from_all_yaml_files walk parse = Ok all_files_links ->
  let worked_on :=
    restrict_to_changed (get_changed_yaml_files git) all_files_links in
  exists log_data' w',
    main walk parse git w = (Ok log_data', w')
    /\ disk w' !! LOG_DIR = Some Dir
    /\ (forall file_path links link,
          In (file_path, links) worked_on -> In link links ->
          is_Some (archived_links log_data' !! link))
    /\ (worked_on <> [] -> synced w' log_data').
Proof.
  intros Hdir Hfile Hall worked_on.
  set (w1 := set_disk (<[LOG_DIR := Dir]> (disk w)) w).
  assert (Hensure : ensure_log_directory w = (Ok tt, w1)).
  { unfold ensure_log_directory, bind, path_exists, makedirs.
    rewrite Hdir. rewrite bool_decide_eq_false_2 by (intros [x Hx]; discriminate).
    cbn [negb]. now rewrite Hdir. }
  assert (Hfile1 : disk w1 !! LOG_FILE = None).
  { cbn [disk set_disk w1]. now rewrite lookup_insert_ne by discriminate. }
  assert (Hload : load_existing_log w1 = (Ok empty_log, w1)).
  { unfold load_existing_log, bind, path_exists. rewrite Hfile1.
    rewrite bool_decide_eq_false_2 by (intros [x Hx]; discriminate).
    reflexivity. }
  assert (Hw1 : writable w1).
  { split; [cbn [disk set_disk w1]; apply lookup_insert_eq|].
    rewrite Hfile1. discriminate. }
  destruct (process_files_completes worked_on (mkLogData ∅) w1 Hw1)
    as [log_data' [w' [Hrun [Hdir' _]]]].
  exists log_data', w'.
  assert (Hmain : main walk parse git w = (Ok log_data', w')).
  { unfold main, bind. rewrite Hensure, Hload.
    change (decode_log empty_log) with (Some (mkLogData ∅)).
    unfold ret, lift. rewrite Hall. exact Hrun. }
  split; [exact Hmain|]. split; [exact Hdir'|]. split.
  - intros file_path links link.
    exact (process_files_records worked_on _ _ _ _ file_path links link Hrun).
  - intros Hne.
    destruct (process_files_synced _ _ _ _ _ Hrun (or_intror eq_refl))
      as [Hs|Hempty]; [exact Hs|]. exfalso.
    destruct worked_on as [|[f links] rest] eqn:Ew; [congruence|].
    assert (Hin : In (f, links) all_files_links).
    { assert (Hsub : In (f, links) worked_on) by (rewrite Ew; now left).
      unfold worked_on, restrict_to_changed in Hsub.
      destruct (bool_decide _); [exact Hsub|].
      apply list_elem_of_In, list_elem_of_filter in Hsub as [_ Hsub].
      now apply list_elem_of_In. }
    apply (links_of_files_entries _ _ _ Hall) in Hin as [_ [_ Hlinks]].
    destruct links as [|link links]; [congruence|].
    destruct (process_files_records _ _ _ _ _ f (link :: links) link Hrun)
      as [e He]; [now left | now left|].
    rewrite Hempty, lookup_empty in He. discriminate.
Qed.

Lemma first_run_of_main_witness :
  let walk := [(".", ["a.yaml"])] in
  let parse := fun _ : string =>
    Parsed (YDict [(YStr "link", YStr "https://example.com")]) in
  let w := world_answering Fails in
  let worked_on :=
    restrict_to_changed (get_changed_yaml_files NoRepository)
      [("./a.yaml", ["https://example.com"])] in
  exists log_data' w',
    main walk parse NoRepository w = (Ok log_data', w')
    /\ disk w' !! LOG_DIR = Some Dir
    /\ (forall file_path links link,
          In (file_path, links) worked_on -> In link links ->
          is_Some (archived_links log_data' !! link))
    /\ (worked_on <> [] -> synced w' log_data').
Proof.
  intros walk parse w.
  apply (first_run_of_main walk parse NoRepository w
           [("./a.yaml", ["https://example.com"])]).
  - reflexivity.
  - reflexivity.
  - vm_compute. reflexivity.
Defined.

End RunProperties.
